(** * LAN communication hub: relay services, client reassembler, orchestrator

    A shallow embedding of the Python sources of the LAN communication
    system, and the properties stated about them.

    Conventions used throughout.
    - A Python [dict] whose iteration order is observable (broadcast loops)
      is an insertion-ordered association list, see [PyDict]; a [dict] that
      is only looked up is a [gmap].
    - [bytes] values are lists of [Byte.byte].
    - A socket is identified by a number.  Whether a send raises is decided
      by an oracle [send_ok n c]: the outcome of the [n]-th send attempted so
      far, addressed to socket [c].  Every attempt is appended to a trace
      together with its outcome, so the trace is the observable behaviour.
    - Wall-clock readings ([time.time()]) are integers, in milliseconds.
    - Every operation (one turn of a loop, one handler call) runs to its end
      before the next one starts; the [running] flag of a service is set
      while its loops are modelled; logging and status callbacks do not
      raise. *)

From stdpp Require Import base option list strings gmap.
From Stdlib Require Import ZArith Lia DecimalString DecimalZ DecimalN.
From Stdlib.Strings Require Import Byte.

Open Scope Z_scope.

Definition bytes := list byte.

(** ** Insertion-ordered dictionaries *)

Module PyDict.
Section Dict.
Context {K V : Type} `{EqDecision K}.

(** [d.get(k)] *)
Fixpoint dict_get (k : K) (d : list (K * V)) : option V :=
  match d with
  | [] => None
  | (k', v) :: d' => if decide (k = k') then Some v else dict_get k d'
  end.

(** [k in d] *)
Definition dict_mem (k : K) (d : list (K * V)) : bool :=
  match dict_get k d with Some _ => true | None => false end.

(** [d[k] = v]: an existing key keeps its position, a new key goes last. *)
Fixpoint dict_set (k : K) (v : V) (d : list (K * V)) : list (K * V) :=
  match d with
  | [] => [(k, v)]
  | (k', v') :: d' =>
      if decide (k = k') then (k, v) :: d' else (k', v') :: dict_set k v d'
  end.

(** [d.pop(k, None)]; also [del d[k]] under the guard [k in d]. *)
Fixpoint dict_del (k : K) (d : list (K * V)) : list (K * V) :=
  match d with
  | [] => []
  | (k', v') :: d' =>
      if decide (k = k') then d' else (k', v') :: dict_del k d'
  end.

(** [list(d.keys())] *)
Definition dict_keys (d : list (K * V)) : list K := map fst d.

(** [d.setdefault(k, v)] *)
Definition dict_setdefault (k : K) (v : V) (d : list (K * V)) : list (K * V) :=
  if dict_mem k d then d else dict_set k v d.
End Dict.
End PyDict.
Import PyDict.

(** ** Screen relay: [server_modules/screen_module.py] *)

Module ScreenServer.

Definition sock := nat.

(** Messages pushed by the server. *)
Inductive message :=
| presenter_started (username : string)
| presenter_stopped (username : string)
| presenting_allowed (allowed : bool) (current_presenter : option string)
| screen_frame (username : string) (frame : bytes).

(** Messages received from a client, after [pickle.loads]; [frame] is
    absent when the record has no such key. *)
Inductive request :=
| start_presenting
| stop_presenting
| screen_frame_req (frame : option bytes)
| other_type (type : string).

(** What one turn of the handler loop reads: a whole message, or a failure
    of [recv] / [pickle.loads] / [message['type']], which ends the loop.  (A
    peer that closes in the middle of a message leaves the handler in its
    inner read loop; no input stands for that.) *)
Inductive inbound :=
| Msg (r : request)
| Broken.

Record state := {
  clients : list (string * sock);
  client_threads : list (string * sock);
  current_presenter : option string
}.

Definition sendev : Type := sock * message * bool.

(** The [(socket, message)] pairs of a trace, outcomes dropped. *)
Definition attempts (tr : list sendev) : list (sock * message) := map fst tr.

Section Net.
Variable send_ok : nat -> sock -> bool.

Definition sendall (c : sock) (m : message) (tr : list sendev)
  : bool * list sendev :=
  let r := send_ok (length tr) c in (r, tr ++ [(c, m, r)]).

Definition _remove_client (username : string) (s : state) : state :=
  {| clients :=
       if dict_mem username (clients s)
       then dict_del username (clients s) else clients s;
     client_threads :=
       if dict_mem username (client_threads s)
       then dict_del username (client_threads s) else client_threads s;
     current_presenter := current_presenter s |}.

Definition _send_to_client (username : string) (m : message)
    (s : state) (tr : list sendev) : state * list sendev :=
  match dict_get username (clients s) with
  | Some c =>
      let '(r, tr1) := sendall c m tr in
      if r then (s, tr1) else (_remove_client username s, tr1)
  | None => (s, tr)
  end.

(** The sending loop of a broadcast over a snapshot of the registry;
    returns the [disconnected] list. *)
Fixpoint send_each (targets : list (string * sock)) (m : message)
    (tr : list sendev) : list string * list sendev :=
  match targets with
  | [] => ([], tr)
  | (u, c) :: rest =>
      let '(r, tr1) := sendall c m tr in
      let '(dis, tr2) := send_each rest m tr1 in
      (if r then dis else u :: dis, tr2)
  end.

Definition remove_all (dis : list string) (s : state) : state :=
  fold_left (fun s u => _remove_client u s) dis s.

Definition _broadcast_to_all (m : message) (s : state) (tr : list sendev)
  : state * list sendev :=
  let '(dis, tr1) := send_each (clients s) m tr in
  (remove_all dis s, tr1).

Definition _broadcast_to_all_except (sender_username : string)
    (m : message) (s : state) (tr : list sendev) : state * list sendev :=
  let targets :=
    filter (fun uc => uc.1 <> sender_username) (clients s) in
  let '(dis, tr1) := send_each targets m tr in
  (remove_all dis s, tr1).

Definition set_presenter (p : option string) (s : state) : state :=
  {| clients := clients s; client_threads := client_threads s;
     current_presenter := p |}.

Definition _handle_start_presenting (username : string)
    (s : state) (tr : list sendev) : state * list sendev :=
  match current_presenter s with
  | None =>
      let s1 := set_presenter (Some username) s in
      let '(s2, tr2) := _broadcast_to_all (presenter_started username) s1 tr in
      _send_to_client username (presenting_allowed true None) s2 tr2
  | Some p =>
      _send_to_client username (presenting_allowed false (Some p)) s tr
  end.

Definition _handle_stop_presenting (username : string)
    (s : state) (tr : list sendev) : state * list sendev :=
  if decide (current_presenter s = Some username) then
    _broadcast_to_all (presenter_stopped username) (set_presenter None s) tr
  else (s, tr).

(** The tail of [_handle_client]: the client is gone. *)
Definition disconnect (username : string) (s : state) (tr : list sendev)
  : state * list sendev :=
  let '(s1, tr1) := _handle_stop_presenting username s tr in
  (_remove_client username s1, tr1).

(** One turn of the loop of [_handle_client]; [None] when the turn
    raises, which leaves the loop. *)
Definition handle_message (username : string) (r : request)
    (s : state) (tr : list sendev) : option (state * list sendev) :=
  match r with
  | start_presenting => Some (_handle_start_presenting username s tr)
  | stop_presenting => Some (_handle_stop_presenting username s tr)
  | screen_frame_req frame =>
      if decide (current_presenter s = Some username) then
        match frame with
        | Some f =>
            Some (_broadcast_to_all_except username
                    (screen_frame username f) s tr)
        | None => None
        end
      else Some (s, tr)
  | other_type _ => Some (s, tr)
  end.

Fixpoint _handle_client (username : string) (input : list inbound)
    (s : state) (tr : list sendev) : state * list sendev :=
  match input with
  | Msg r :: rest =>
      match handle_message username r s tr with
      | Some (s1, tr1) => _handle_client username rest s1 tr1
      | None => disconnect username s tr
      end
  | Broken :: _ | [] => disconnect username s tr
  end.

(** The body of the loop of [_accept_clients]; the handler thread is
    recorded under the socket it serves.  [if self.current_presenter]
    is false for [None] and for the empty name. *)
Definition _accept_client (username : string) (c : sock)
    (s : state) (tr : list sendev) : state * list sendev :=
  let s1 := {| clients := dict_set username c (clients s);
               client_threads := client_threads s;
               current_presenter := current_presenter s |} in
  let '(s2, tr2) :=
    match current_presenter s1 with
    | Some p =>
        if decide (p = "")%string then (s1, tr)
        else _send_to_client username (presenter_started p) s1 tr
    | None => (s1, tr)
    end in
  ({| clients := clients s2;
      client_threads := dict_set username c (client_threads s2);
      current_presenter := current_presenter s2 |}, tr2).
End Net.

(** The invariant of the data model: the presenter, when there is one,
    is a registered client. *)
Definition presenter_registered (s : state) : bool :=
  match current_presenter s with
  | None => true
  | Some p => dict_mem p (clients s)
  end.

End ScreenServer.

(** ** File catalogue: [server_modules/file_module.py] *)

Module FileServer.

Definition sock := nat.

Definition CHUNK_SIZE : Z := 8192.
Definition MAX_FILE_SIZE : Z := 500 * 1024 * 1024.

Record fileinfo := { size : Z; uploader : string }.

(** A request after [json.loads]: the keys the handlers read, each
    possibly absent. *)
Record request := {
  command : option string;
  filename : option string;
  filesize : option Z;
  username : option string
}.

(** What the server writes to a socket. [file_list] and [file_list_update]
    travel behind a 4-byte length; [raw] is a chunk of a download. *)
Inductive response :=
| status_error (message : string)
| status_ready
| status_ready_size (filesize : Z)
| status_success (message : string)
| file_list (files : gmap string fileinfo)
| file_list_update (files : gmap string fileinfo)
| raw (data : bytes).

Record state := {
  clients : list sock;
  available_files : gmap string fileinfo;
  disk : gmap string bytes
}.

Definition sendev : Type := sock * response * bool.

(** What a connection will deliver: each element is the data waiting for
    the next [recv] ([Some []] is an orderly shutdown by the peer) or
    [None] when that [recv] raises.  An exhausted script is a closed
    connection. *)
Definition stream := list (option bytes).

(** [sock.recv(n)]: at most [n] bytes; what is left stays queued. *)
Definition recv (n : Z) (input : stream) : option bytes * stream :=
  match input with
  | [] => (Some [], [])
  | None :: rest => (None, rest)
  | Some [] :: _ => (Some [], input)
  | Some bs :: rest =>
      let k := Z.to_nat n in
      (Some (take k bs),
       match drop k bs with [] => rest | more => Some more :: rest end)
  end.

(** How the receive loop of an upload ends. *)
Inductive received :=
| LoopDone (count : Z)
| RecvRaised.

(** The loop [while received < filesize] of [_handle_upload]; [content] is
    what has been written to the file.  Every turn that does not leave the
    loop adds at least one byte, so [Z.to_nat filesize] turns suffice. *)
Fixpoint receive_file (fuel : nat) (filesize count : Z) (content : bytes)
    (input : stream) : received * bytes * stream :=
  match fuel with
  | O => (LoopDone count, content, input)
  | S fuel' =>
      if decide (count < filesize) then
        match recv (Z.min CHUNK_SIZE (filesize - count)) input with
        | (None, input') => (RecvRaised, content, input')
        | (Some [], input') => (LoopDone count, content, input')
        | (Some chunk, input') =>
            receive_file fuel' filesize (count + Z.of_nat (length chunk))
              (content ++ chunk) input'
        end
      else (LoopDone count, content, input)
  end.

(** The chunks read by [f.read(CHUNK_SIZE)] in [_handle_download]. *)
Fixpoint file_chunks (fuel : nat) (content : bytes) : list bytes :=
  match fuel with
  | O => []
  | S fuel' =>
      match content with
      | [] => []
      | _ => take (Z.to_nat CHUNK_SIZE) content
               :: file_chunks fuel' (drop (Z.to_nat CHUNK_SIZE) content)
      end
  end.

Section Net.
Variable send_ok : nat -> sock -> bool.
(** [json.loads(data)] followed by the reading of the keys; [None] when
    decoding raises. *)
Variable json_loads : bytes -> option request.
(** [str(e)] for a socket error. *)
Variable os_error : string.

Definition send (c : sock) (r : response) (tr : list sendev)
  : bool * list sendev :=
  let ok := send_ok (length tr) c in (ok, tr ++ [(c, r, ok)]).

Definition set_files (f : gmap string fileinfo) (s : state) : state :=
  {| clients := clients s; available_files := f; disk := disk s |}.
Definition set_disk (d : gmap string bytes) (s : state) : state :=
  {| clients := clients s; available_files := available_files s; disk := d |}.
Definition set_clients (l : list sock) (s : state) : state :=
  {| clients := l; available_files := available_files s; disk := disk s |}.

(** The sending loop of [_broadcast_file_list]; returns [disconnected]. *)
Fixpoint send_each (targets : list sock) (r : response) (tr : list sendev)
  : list sock * list sendev :=
  match targets with
  | [] => ([], tr)
  | c :: rest =>
      let '(ok, tr1) := send c r tr in
      let '(dis, tr2) := send_each rest r tr1 in
      (if ok then dis else c :: dis, tr2)
  end.

(** [list.remove(x)] under the guard [x in list]. *)
Fixpoint list_remove (c : sock) (l : list sock) : list sock :=
  match l with
  | [] => []
  | c' :: l' => if decide (c = c') then l' else c' :: list_remove c l'
  end.

Definition _broadcast_file_list (s : state) (tr : list sendev)
  : state * list sendev :=
  let '(dis, tr1) :=
    send_each (clients s) (file_list_update (available_files s)) tr in
  (set_clients (fold_left (fun l c => list_remove c l) dis (clients s)) s,
   tr1).

Definition _send_file_list (c : sock) (s : state) (tr : list sendev)
  : list sendev :=
  (send c (file_list (available_files s)) tr).2.

(** The handler [except Exception as e] of [_handle_upload]. *)
Definition upload_failed (c : sock) (e : string) (tr : list sendev)
  : list sendev :=
  (send c (status_error e) tr).2.

Definition _handle_upload (c : sock) (req : request)
    (s : state) (input : stream) (tr : list sendev)
  : state * stream * list sendev :=
  match filename req, filesize req, username req with
  | None, _, _ => (s, input, upload_failed c "'filename'" tr)
  | Some _, None, _ => (s, input, upload_failed c "'filesize'" tr)
  | Some _, Some _, None => (s, input, upload_failed c "'username'" tr)
  | Some fn, Some fs, Some un =>
      if decide (fs > MAX_FILE_SIZE) then
        let '(ok, tr1) := send c (status_error "File too large") tr in
        if ok then (s, input, tr1)
        else (s, input, upload_failed c os_error tr1)
      else
        let '(ok, tr1) := send c status_ready tr in
        if negb ok then (s, input, upload_failed c os_error tr1)
        else
          let '(res, content, input1) :=
            receive_file (Z.to_nat fs) fs 0 [] input in
          let s1 := set_disk (<[fn := content]> (disk s)) s in
          match res with
          | RecvRaised => (s1, input1, upload_failed c os_error tr1)
          | LoopDone _ =>
              let s2 :=
                set_files (<[fn := {| size := fs; uploader := un |}]>
                             (available_files s1)) s1 in
              let '(ok2, tr2) :=
                send c (status_success "File uploaded successfully") tr1 in
              if negb ok2 then (s2, input1, upload_failed c os_error tr2)
              else
                let '(s3, tr3) := _broadcast_file_list s2 tr2 in
                (s3, input1, tr3)
          end
  end.

(** The loop [while sent < filesize] of [_handle_download]: stops at the
    first send that raises. *)
Fixpoint send_chunks (c : sock) (chunks : list bytes) (tr : list sendev)
  : list sendev :=
  match chunks with
  | [] => tr
  | chunk :: rest =>
      let '(ok, tr1) := send c (raw chunk) tr in
      if ok then send_chunks c rest tr1 else tr1
  end.

Definition _handle_download (c : sock) (req : request)
    (s : state) (input : stream) (tr : list sendev)
  : stream * list sendev :=
  match filename req with
  | None => (input, tr)
  | Some fn =>
      match disk s !! fn with
      | None => (input, (send c (status_error "File not found") tr).2)
      | Some content =>
          let '(ok, tr1) :=
            send c (status_ready_size (Z.of_nat (length content))) tr in
          if negb ok then (input, tr1)
          else
            match recv 1024 input with
            | (None, input1) => (input1, tr1)
            | (Some _, input1) =>
                (input1,
                 send_chunks c (file_chunks (length content) content) tr1)
            end
      end
  end.

(** The [finally] clause of [_handle_client]. *)
Definition close_client (c : sock) (s : state) : state :=
  set_clients (if decide (c ∈ clients s) then list_remove c (clients s)
               else clients s) s.

(** [_handle_client]: one turn per unit of fuel.  Returns the state, the
    unread input, the trace, and whether the connection was closed
    ([false]: the loop was still serving when the fuel ran out). *)
Fixpoint _handle_client (fuel : nat) (c : sock)
    (s : state) (input : stream) (tr : list sendev)
  : state * stream * list sendev * bool :=
  match fuel with
  | O => (s, input, tr, false)
  | S fuel' =>
      match recv 1024 input with
      | (None, input1) | (Some [], input1) =>
          (close_client c s, input1, tr, true)
      | (Some data, input1) =>
          match json_loads data with
          | None => (close_client c s, input1, tr, true)
          | Some req =>
              if decide (command req = Some "UPLOAD"%string) then
                let '(s2, input2, tr2) := _handle_upload c req s input1 tr in
                _handle_client fuel' c s2 input2 tr2
              else if decide (command req = Some "DOWNLOAD"%string) then
                let '(input2, tr2) := _handle_download c req s input1 tr in
                _handle_client fuel' c s input2 tr2
              else if decide (command req = Some "LIST"%string) then
                _handle_client fuel' c s input1 (_send_file_list c s tr)
              else _handle_client fuel' c s input1 tr
          end
      end
  end.
End Net.

(** An entry of the storage directory as [os.listdir] and [os.path.isfile]
    see it. *)
Inductive entry :=
| RegularFile (content : bytes)
| Directory.

(** [_load_existing_files], run by [__init__] on an empty catalogue: every
    regular file of the storage directory is listed with its size on disk
    and the uploader ['Server']. *)
Definition _load_existing_files (storage : gmap string entry)
  : gmap string fileinfo :=
  omap (fun e => match e with
                 | RegularFile content =>
                     Some {| size := Z.of_nat (length content);
                             uploader := "Server" |}
                 | Directory => None
                 end) storage.

(** The files [open] and [os.path.getsize] find in the storage directory. *)
Definition files_of (storage : gmap string entry) : gmap string bytes :=
  omap (fun e => match e with
                 | RegularFile content => Some content
                 | Directory => None
                 end) storage.

(** The server after [__init__]. *)
Definition __init__ (storage : gmap string entry) : state :=
  {| clients := [];
     available_files := _load_existing_files storage;
     disk := files_of storage |}.

End FileServer.

(** ** Video client, sender and reassembler: [client_modules/video_module.py] *)

#[global] Instance byte_eq_decision : EqDecision byte := Byte.byte_eq_dec.

(** [data.startswith(prefix)] *)
Fixpoint startswith (prefix data : bytes) : bool :=
  match prefix, data with
  | [], _ => true
  | p :: prefix', d :: data' =>
      if decide (p = d) then startswith prefix' data' else false
  | _ :: _, [] => false
  end.

(** [str(n)], the decimal text an f-string gives for an integer. *)
Definition str (n : Z) : bytes :=
  String.list_byte_of_string (NilZero.string_of_int (Z.to_int n)).

Module VideoClient.

Definition MAX_DATAGRAM_SIZE : Z := 8192.
(** [FRAME_EXPIRY_SECONDS = 1.0], in milliseconds. *)
Definition FRAME_EXPIRY_SECONDS : Z := 1000.
Definition FRAME_HEADER : bytes := String.list_byte_of_string "FRAME".
Definition REGISTER_HEADER : bytes := String.list_byte_of_string "REGISTER".
(** The separator [b'|']. *)
Definition BAR : byte := x7c.

(** [frame_bytes[start:stop]] for [0 <= start <= stop]. *)
Definition slice (l : bytes) (start stop : Z) : bytes :=
  take (Z.to_nat (stop - start)) (drop (Z.to_nat start) l).

Definition total_chunks_of (frame_bytes : bytes) : Z :=
  Z.max 1 ((Z.of_nat (length frame_bytes) + MAX_DATAGRAM_SIZE - 1)
           / MAX_DATAGRAM_SIZE).

Definition chunk_of (frame_bytes : bytes) (chunk_index : Z) : bytes :=
  slice frame_bytes (chunk_index * MAX_DATAGRAM_SIZE)
    (chunk_index * MAX_DATAGRAM_SIZE + MAX_DATAGRAM_SIZE).

(** The payloads cut by the loop of [_send_frame], in index order. *)
Definition frame_chunks (frame_bytes : bytes) : list bytes :=
  map (chunk_of frame_bytes) (seqZ 0 (total_chunks_of frame_bytes)).

(** [f"FRAME|{username}|{frame_id}|{chunk_index}|{total_chunks}|"]; a name
    stands for its UTF-8 encoding. *)
Definition header (username : string) (frame_id chunk_index total_chunks : Z)
  : bytes :=
  FRAME_HEADER ++ BAR :: String.list_byte_of_string username
    ++ BAR :: str frame_id ++ BAR :: str chunk_index
    ++ BAR :: str total_chunks ++ [BAR].

(** The datagrams built by the loop of [_send_frame], in sending order. *)
Definition frame_packets (username : string) (frame_id : Z)
    (frame_bytes : bytes) : list bytes :=
  map (fun chunk_index =>
         header username frame_id chunk_index (total_chunks_of frame_bytes)
           ++ chunk_of frame_bytes chunk_index)
      (seqZ 0 (total_chunks_of frame_bytes)).

(** The sending loop: it breaks at the first [sendto] that raises. *)
Fixpoint sendto_until_error (sendto_ok : nat -> bool) (packets : list bytes)
    (tr : list (bytes * bool)) : list (bytes * bool) :=
  match packets with
  | [] => tr
  | p :: rest =>
      let ok := sendto_ok (length tr) in
      if ok then sendto_until_error sendto_ok rest (tr ++ [(p, ok)])
      else tr ++ [(p, ok)]
  end.

(** [_send_frame]: the new frame counter and the datagrams handed to the
    socket. *)
Definition _send_frame (sendto_ok : nat -> bool) (username : string)
    (_frame_counter : Z) (frame_bytes : bytes) (tr : list (bytes * bool))
  : Z * list (bytes * bool) :=
  ((_frame_counter + 1) `mod` 1000000,
   sendto_until_error sendto_ok
     (frame_packets username _frame_counter frame_bytes) tr).

(** [l.split(sep, 1)] when [sep] occurs: the text before and after the
    first [sep]. *)
Fixpoint cut (sep : byte) (l : bytes) : option (bytes * bytes) :=
  match l with
  | [] => None
  | b :: l' =>
      if decide (b = sep) then Some ([], l')
      else match cut sep l' with
           | Some (pre, post) => Some (b :: pre, post)
           | None => None
           end
  end.

(** [l.split(sep, maxsplit)] *)
Fixpoint split (maxsplit : nat) (sep : byte) (l : bytes) : list bytes :=
  match maxsplit with
  | O => [l]
  | S n =>
      match cut sep l with
      | Some (pre, post) => pre :: split n sep post
      | None => [l]
      end
  end.

(** The reassembly state: [_incoming_frames], keyed by [(sender, frame_id)],
    and [_frame_meta] with [(total, created)]. *)
Record state := {
  _incoming_frames : gmap (string * Z) (gmap Z bytes);
  _frame_meta : gmap (string * Z) (Z * Z)
}.

(** [[frame_buffer.get(i) for i in range(total_chunks)]], then the test
    [any(chunk is None ...)]: all the chunks, or [None] when one is
    missing. *)
Definition ordered_chunks (frame_buffer : gmap Z bytes) (total_chunks : Z)
  : option (list bytes) :=
  mapM (fun i => frame_buffer !! i) (seqZ 0 total_chunks).

Section Receiver.
(** The decoded image type and [cv2.imdecode], [None] for undecodable
    bytes. *)
Variable frame : Type.
Variable imdecode : bytes -> option frame.
(** [int(b)] on a [bytes] value, [None] for [ValueError]. *)
Variable int : bytes -> option Z.
(** Whether [b.decode('utf-8')] succeeds. *)
Variable utf8_ok : bytes -> bool.
(** [self.username], and whether [self.video_callback] is set. *)
Variable username : string.
Variable has_callback : bool.

(** [_handle_frame_chunk]: the new state and the call of the callback, if
    one is made. *)
Definition _handle_frame_chunk (packet : bytes) (now : Z) (st : state)
  : state * option (string * frame) :=
  match split 5 BAR packet with
  | [_; sender_bytes; frame_id_bytes; chunk_index_bytes;
     total_chunks_bytes; payload] =>
      if negb (utf8_ok sender_bytes) then (st, None)
      else
        let sender := String.string_of_list_byte sender_bytes in
        match int frame_id_bytes, int chunk_index_bytes,
              int total_chunks_bytes with
        | Some frame_id, Some chunk_index, Some total_chunks =>
            if decide (sender = username) then (st, None)
            else
              let key := (sender, frame_id) in
              let frame_buffer :=
                <[chunk_index := payload]>
                  (default ∅ (_incoming_frames st !! key)) in
              let incoming := <[key := frame_buffer]> (_incoming_frames st) in
              let meta := <[key := (total_chunks, now)]> (_frame_meta st) in
              let stored := {| _incoming_frames := incoming;
                               _frame_meta := meta |} in
              if decide (Z.of_nat (size frame_buffer) = total_chunks) then
                match ordered_chunks frame_buffer total_chunks with
                | None => (stored, None)
                | Some chunks =>
                    let frame_bytes := concat chunks in
                    ({| _incoming_frames := delete key incoming;
                        _frame_meta := delete key meta |},
                     match imdecode frame_bytes with
                     | Some f => if has_callback then Some (sender, f) else None
                     | None => None
                     end)
                end
              else (stored, None)
        | _, _, _ => (st, None)
        end
  | _ => (st, None)
  end.

(** The fields [_handle_frame_chunk] reads from a datagram before it touches
    the buffers: sender, frame id, chunk index, chunk count and payload. *)
Definition parse_chunk (packet : bytes)
  : option (string * Z * Z * Z * bytes) :=
  match split 5 BAR packet with
  | [_; sender_bytes; frame_id_bytes; chunk_index_bytes;
     total_chunks_bytes; payload] =>
      if utf8_ok sender_bytes then
        match int frame_id_bytes, int chunk_index_bytes,
              int total_chunks_bytes with
        | Some frame_id, Some chunk_index, Some total_chunks =>
            Some (String.string_of_list_byte sender_bytes, frame_id,
                  chunk_index, total_chunks, payload)
        | _, _, _ => None
        end
      else None
  | _ => None
  end.

Definition stale_keys (now : Z) (st : state) : list (string * Z) :=
  (map_to_list
     (filter (fun km => now - km.2.2 > FRAME_EXPIRY_SECONDS) (_frame_meta st))).*1.

Definition _cleanup_stale_frames (now : Z) (st : state) : state :=
  fold_left
    (fun st key => {| _incoming_frames := delete key (_incoming_frames st);
                      _frame_meta := delete key (_frame_meta st) |})
    (stale_keys now st) st.

(** What one call of [recvfrom] gives to the loop of [_receive_video]. *)
Inductive received :=
| Datagram (data : bytes)
| SocketTimeout
| SocketOSError
| SocketOtherError.

(** [_receive_video] over the receptions, each with the clock reading of its
    turn; returns the state and the calls of the callback, in order. *)
Fixpoint _receive_video (events : list (Z * received)) (st : state)
  : state * list (string * frame) :=
  match events with
  | [] => (st, [])
  | (now, ev) :: rest =>
      match ev with
      | SocketTimeout => _receive_video rest (_cleanup_stale_frames now st)
      | SocketOSError => (st, [])
      | SocketOtherError => _receive_video rest st
      | Datagram data =>
          if decide (data = []) then _receive_video rest st
          else if startswith REGISTER_HEADER data then _receive_video rest st
          else if startswith FRAME_HEADER data then
            let '(st1, out) := _handle_frame_chunk data now st in
            let '(st2, outs) := _receive_video rest st1 in
            (st2, match out with Some o => o :: outs | None => outs end)
          else _receive_video rest st
      end
  end.

(** Feeding datagrams to [_handle_frame_chunk] one after the other. *)
Fixpoint receive_chunks (packets : list bytes) (now : Z) (st : state)
  : state * list (string * frame) :=
  match packets with
  | [] => (st, [])
  | p :: rest =>
      let '(st1, out) := _handle_frame_chunk p now st in
      let '(st2, outs) := receive_chunks rest now st1 in
      (st2, match out with Some o => o :: outs | None => outs end)
  end.

(** What the callback receives for reassembled bytes. *)
Definition delivered (sender : string) (frame_bytes : bytes)
  : option (string * frame) :=
  match imdecode frame_bytes with
  | Some f => if has_callback then Some (sender, f) else None
  | None => None
  end.
End Receiver.

(** The datagram of index [i] of a frame cut into [total] chunks, and the
    buffer of a frame after its chunks [0 .. k-1] arrived. *)
Definition packet (sender : string) (frame_id total : Z) (chunk : Z -> bytes)
    (i : Z) : bytes :=
  header sender frame_id i total ++ chunk i.
Definition stored (chunk : Z -> bytes) (k : nat) : gmap Z bytes :=
  map_seqZ 0 (map chunk (seqZ 0 (Z.of_nat k))).

(** A decimal reading of [int(b)], for closed examples: it agrees with
    Python on digit strings with an optional minus sign. *)
Definition int_decimal (b : bytes) : option Z :=
  option_map Z.of_int (NilZero.int_of_string (String.string_of_list_byte b)).

End VideoClient.

(** ** Orchestrator: [server.py], class [MainServer] *)

Module MainServer.

(** What [module.start()] does: it returns a value that is not [False]
    ([None] or [True]), returns [False], or raises. *)
Inductive start_outcome :=
| StartOk
| StartFalse
| StartRaises (what : string).

(** A server module as the orchestrator sees it; [stop] is [Some what] when
    [module.stop()] raises. *)
Record server_module := {
  start : start_outcome;
  stop : option string
}.

Inductive exn :=
| RuntimeError_startup (name : string)
| ModuleError (what : string).

Inductive log_line :=
| LogAlreadyRunning
| LogBanner
| LogStarting (index total : nat) (name : string)
| LogOnline (name : string)
| LogAllUp
| LogStartupError (e : exn)
| LogRollingBack
| LogStopping (name : string)
| LogStopError (name what : string)
| LogStoppingServices
| LogShutdownComplete.

(** What the orchestrator does, in order: log lines, status updates, and the
    calls of [start] and [stop] with their outcome. *)
Inductive event :=
| EvLog (l : log_line)
| EvStatus (name status : string)
| EvStart (name : string) (o : start_outcome)
| EvStop (name : string) (o : option string).

Record state := {
  module_states : list (string * string);
  active_modules : list (string * server_module);
  running : bool
}.

Inductive result :=
| Returned
| Raised (e : exn).

Definition _log (l : log_line) (tr : list event) : list event :=
  tr ++ [EvLog l].

Definition _update_status (name status : string) (s : state)
    (tr : list event) : state * list event :=
  ({| module_states := dict_set name status (module_states s);
      active_modules := active_modules s;
      running := running s |},
   tr ++ [EvStatus name status]).

(** The loop of [_stop_modules_list] over [reversed(modules)]. *)
Fixpoint stop_each (reversed : list (string * server_module)) (s : state)
    (tr : list event) : state * list event :=
  match reversed with
  | [] => (s, tr)
  | (name, module) :: rest =>
      let '(s1, tr1) := _update_status name "stopping" s tr in
      let tr2 := _log (LogStopping name) tr1 in
      let tr3 := tr2 ++ [EvStop name (stop module)] in
      let tr4 := match stop module with
                 | Some what => _log (LogStopError name what) tr3
                 | None => tr3
                 end in
      let '(s2, tr5) := _update_status name "stopped" s1 tr4 in
      stop_each rest s2 tr5
  end.

Definition _stop_modules_list (modules : list (string * server_module))
    (s : state) (tr : list event) : state * list event :=
  stop_each (rev modules) s tr.

(** The [for] loop of [start_modules]: [inl started] when it runs to the
    end, [inr (name, e, started)] when the start of [name] fails with [e]. *)
Fixpoint start_each (index total : nat) (modules : list (string * server_module))
    (started : list (string * server_module)) (s : state) (tr : list event)
  : (list (string * server_module)
     + string * exn * list (string * server_module)) * state * list event :=
  match modules with
  | [] => (inl started, s, tr)
  | (name, module) :: rest =>
      let '(s1, tr1) := _update_status name "starting" s tr in
      let tr2 := _log (LogStarting index total name) tr1 in
      let tr3 := tr2 ++ [EvStart name (start module)] in
      match start module with
      | StartRaises what => (inr (name, ModuleError what, started), s1, tr3)
      | StartFalse => (inr (name, RuntimeError_startup name, started), s1, tr3)
      | StartOk =>
          let '(s2, tr4) := _update_status name "running" s1 tr3 in
          let tr5 := _log (LogOnline name) tr4 in
          start_each (S index) total rest (started ++ [(name, module)]) s2 tr5
      end
  end.

Definition set_active (active : list (string * server_module))
    (r : bool) (s : state) : state :=
  {| module_states := module_states s; active_modules := active;
     running := r |}.

Definition start_modules (modules : list (string * server_module))
    (s : state) (tr : list event) : result * state * list event :=
  if running s then (Returned, s, _log LogAlreadyRunning tr)
  else
    let tr0 := _log LogBanner tr in
    match start_each 1 (length modules) modules [] s tr0 with
    | (inl started, s1, tr1) =>
        (Returned, set_active started true s1, _log LogAllUp tr1)
    | (inr (name, e, started), s1, tr1) =>
        let tr2 := _log (LogStartupError e) tr1 in
        let '(s2, tr3) := _update_status name "error" s1 tr2 in
        let '(s3, tr4) :=
          match started with
          | [] => (s2, tr3)
          | _ => _stop_modules_list started s2 (_log LogRollingBack tr3)
          end in
        (Raised e, set_active [] false s3, tr4)
    end.

Definition stop_modules (s : state) (tr : list event) : state * list event :=
  if negb (running s) && bool_decide (active_modules s = []) then (s, tr)
  else
    let '(s1, tr1) :=
      _stop_modules_list (active_modules s) s (_log LogStoppingServices tr) in
    (set_active [] false s1, _log LogShutdownComplete tr1).

(** The names whose [start] was called, and those whose [stop] was called,
    in call order. *)
Definition start_calls (tr : list event) : list string :=
  omap (fun e => match e with EvStart name _ => Some name | _ => None end) tr.
Definition stop_calls (tr : list event) : list string :=
  omap (fun e => match e with EvStop name _ => Some name | _ => None end) tr.

(** [list.remove(x)], a no-op when [x] is absent. *)
Fixpoint remove_first (name : string) (l : list string) : list string :=
  match l with
  | [] => []
  | x :: l' => if decide (name = x) then l' else x :: remove_first name l'
  end.

(** The components left running by a trace: those started successfully and
    not stopped since, the most recent first. *)
Fixpoint left_running (tr : list event) (live : list string) : list string :=
  match tr with
  | [] => live
  | EvStart name StartOk :: tr' => left_running tr' (name :: live)
  | EvStop name _ :: tr' => left_running tr' (remove_first name live)
  | _ :: tr' => left_running tr' live
  end.

Definition start_fails (m : string * server_module) : Prop :=
  start m.2 <> StartOk.
Definition start_ok (m : string * server_module) : Prop :=
  start m.2 = StartOk.

(** An event other than a start that failed. *)
Definition clean (e : event) : Prop :=
  match e with EvStart _ o => o = StartOk | _ => True end.

#[global] Instance start_outcome_eq_dec : EqDecision start_outcome.
Proof. solve_decision. Defined.

(** The exception a failed start surfaces. *)
Definition failure_of (m : string * server_module) : exn :=
  match start m.2 with
  | StartRaises what => ModuleError what
  | _ => RuntimeError_startup m.1
  end.

End MainServer.

(** ** Participant registry: [server_modules/participant_module.py] *)

Module ParticipantServer.

Definition sock := nat.

Record participant := {
  status : string;
  joined_at : string;
  video_active : bool
}.

(** What the server writes: the roster, or the answer to a keepalive. *)
Inductive message :=
| participant_list (participants : list (string * participant))
| keepalive_ack.

(** A client message after [json.loads]; a field is [None] when its key is
    absent. *)
Inductive request :=
| status_update (status : option string)
| video_status (active : option bool)
| keepalive
| other_type.

(** What one [recv] of the handler loop gives: data (with its decoding,
    [None] when it is not valid JSON), an orderly close, a read time-out, or
    a connection error. *)
Inductive inbound :=
| Data (r : option request)
| Closed
| TimedOut
| ConnError.

Record state := {
  clients : list (sock * string);
  participants : list (string * participant)
}.

Definition sendev : Type := sock * message * bool.
Definition attempts (tr : list sendev) : list (sock * message) := map fst tr.

(** How a handler thread stands after some input. *)
Inductive outcome :=
| Serving (s : state) (tr : list sendev)
| Finished (s : state) (tr : list sendev)
| Blocked (s : state) (tr : list sendev).

Section Net.
Variable send_ok : nat -> sock -> bool.

Definition sendall (c : sock) (m : message) (tr : list sendev)
  : bool * list sendev :=
  let ok := send_ok (length tr) c in (ok, tr ++ [(c, m, ok)]).

Definition _send_participant_list (c : sock) (s : state) (tr : list sendev)
  : list sendev :=
  (sendall c (participant_list (participants s)) tr).2.

(** The sending loop of [_broadcast_participant_update]; returns
    [disconnected]. *)
Fixpoint send_each (targets : list (sock * string)) (m : message)
    (tr : list sendev) : list (sock * string) * list sendev :=
  match targets with
  | [] => ([], tr)
  | (c, u) :: rest =>
      let '(ok, tr1) := sendall c m tr in
      let '(dis, tr2) := send_each rest m tr1 in
      (if ok then dis else (c, u) :: dis, tr2)
  end.

(** The clean-up of one failed send. *)
Definition prune (s : state) (cu : sock * string) : state :=
  {| clients := if dict_mem cu.1 (clients s)
                then dict_del cu.1 (clients s) else clients s;
     participants := if dict_mem cu.2 (participants s)
                     then dict_del cu.2 (participants s)
                     else participants s |}.

Definition _broadcast_participant_update (s : state) (tr : list sendev)
  : state * list sendev :=
  let '(dis, tr1) :=
    send_each (clients s) (participant_list (participants s)) tr in
  (fold_left prune dis s, tr1).

Definition _remove_participant (username : string) (c : sock)
    (s : state) (tr : list sendev) : state * list sendev :=
  let in_clients := dict_mem c (clients s) in
  let in_participants := dict_mem username (participants s) in
  let s1 := prune s (c, username) in
  if in_clients || in_participants
  then _broadcast_participant_update s1 tr
  else (s1, tr).

(** The body of the loop of [_accept_clients]; [now] is
    [datetime.now().strftime('%H:%M:%S')]. *)
Definition _accept_client (c : sock) (username now : string)
    (s : state) (tr : list sendev) : state * list sendev :=
  let s1 := {| clients := dict_set c username (clients s);
               participants :=
                 dict_set username
                   {| status := "online"; joined_at := now;
                      video_active := false |}
                   (participants s) |} in
  let tr1 := _send_participant_list c s1 tr in
  _broadcast_participant_update s1 tr1.

Definition set_status (username value : string) (s : state) : state :=
  match dict_get username (participants s) with
  | Some p =>
      {| clients := clients s;
         participants :=
           dict_set username
             {| status := value; joined_at := joined_at p;
                video_active := video_active p |} (participants s) |}
  | None => s
  end.

Definition set_video (username : string) (value : bool) (s : state) : state :=
  match dict_get username (participants s) with
  | Some p =>
      {| clients := clients s;
         participants :=
           dict_set username
             {| status := status p; joined_at := joined_at p;
                video_active := value |} (participants s) |}
  | None => s
  end.

(** [_handle_client].  The [status_update] branch calls
    [_broadcast_participant_update] while it holds [self.lock], which that
    function takes again: the thread stays there. *)
Fixpoint _handle_client (username : string) (c : sock) (input : list inbound)
    (s : state) (tr : list sendev) : outcome :=
  match input with
  | [] => Serving s tr
  | Closed :: _ | TimedOut :: _ | ConnError :: _ =>
      let '(s1, tr1) := _remove_participant username c s tr in
      Finished s1 tr1
  | Data None :: rest => _handle_client username c rest s tr
  | Data (Some r) :: rest =>
      match r with
      | status_update value =>
          if dict_mem username (participants s)
          then Blocked (set_status username (default "online"%string value) s) tr
          else _handle_client username c rest s tr
      | video_status value =>
          let s1 := set_video username (default false value) s in
          let '(s2, tr2) := _broadcast_participant_update s1 tr in
          _handle_client username c rest s2 tr2
      | keepalive =>
          let '(ok, tr1) := sendall c keepalive_ack tr in
          if ok then _handle_client username c rest s tr1
          else
            let '(s1, tr2) := _remove_participant username c s tr1 in
            Finished s1 tr2
      | other_type => _handle_client username c rest s tr
      end
  end.
End Net.


End ParticipantServer.

(** ** Video relay: [server_modules/video_module.py] *)

(** A UDP source address, [(host, port)]. *)
Definition address : Type := string * Z.

Definition REGISTER_PREFIX : bytes := String.list_byte_of_string "REGISTER|".
(** [CLIENT_TIMEOUT = 12], in milliseconds. *)
Definition CLIENT_TIMEOUT : Z := 12000.

(** What one [recvfrom] of a relay loop gives. *)
Inductive datagram_event :=
| Datagram (data : bytes) (source : address)
| SocketTimeout
| SocketOSError
| SocketOtherError.

Module VideoServer.

Record state := {
  clients : list (address * string);
  last_seen : list (address * Z)
}.

Definition sendev : Type := address * bytes * bool.

Section Net.
Variable sendto_ok : nat -> address -> bool.
(** [b.decode('utf-8', errors='ignore')] *)
Variable decode_ignore : bytes -> string.

Definition sendto (data : bytes) (a : address) (tr : list sendev)
  : bool * list sendev :=
  let ok := sendto_ok (length tr) a in (ok, tr ++ [(a, data, ok)]).

(** The forwarding loop; returns [disconnected]. *)
Fixpoint send_each (targets : list address) (source : address) (data : bytes)
    (tr : list sendev) : list address * list sendev :=
  match targets with
  | [] => ([], tr)
  | a :: rest =>
      if decide (a = source) then send_each rest source data tr
      else
        let '(ok, tr1) := sendto data a tr in
        let '(dis, tr2) := send_each rest source data tr1 in
        (if ok then dis else a :: dis, tr2)
  end.

Definition forget (s : state) (dead : address) : state :=
  {| clients := dict_del dead (clients s);
     last_seen := dict_del dead (last_seen s) |}.

(** One turn of [_receive_and_broadcast] for a received datagram. *)
Definition handle_datagram (data : bytes) (source : address) (now : Z)
    (s : state) (tr : list sendev) : state * list sendev :=
  if decide (data = []) then (s, tr)
  else if startswith REGISTER_PREFIX data then
    let username := decode_ignore (drop (length REGISTER_PREFIX) data) in
    let previous := dict_get source (clients s) in
    let tr1 := if decide (previous = Some username)
               then (sendto data source tr).2 else tr in
    ({| clients := dict_set source username (clients s);
        last_seen := dict_set source now (last_seen s) |}, tr1)
  else if negb (dict_mem source (clients s)) then (s, tr)
  else
    let s1 := {| clients := clients s;
                 last_seen := dict_set source now (last_seen s) |} in
    let '(dis, tr1) := send_each (dict_keys (clients s1)) source data tr in
    (fold_left forget dis s1, tr1).

Fixpoint _receive_and_broadcast (events : list (Z * datagram_event))
    (s : state) (tr : list sendev) : state * list sendev :=
  match events with
  | [] => (s, tr)
  | (now, ev) :: rest =>
      match ev with
      | Datagram data source =>
          let '(s1, tr1) := handle_datagram data source now s tr in
          _receive_and_broadcast rest s1 tr1
      | SocketOSError => (s, tr)
      | SocketTimeout | SocketOtherError => _receive_and_broadcast rest s tr
      end
  end.
End Net.

(** One sweep of [_cleanup_loop]. *)
Definition cleanup (now : Z) (s : state) : state :=
  fold_left forget
    (map fst (filter (fun al => now - al.2 > CLIENT_TIMEOUT) (last_seen s))) s.

End VideoServer.

(** ** Audio mixer: [server_modules/audio_module.py] *)

Module AudioServer.

Record state := {
  clients : list (address * string);
  last_seen : list (address * Z);
  latest_chunks : list (address * bytes)
}.

Definition sendev : Type := address * bytes * bool.

(** A little-endian 16-bit signed sample. *)
Definition int16_of (lo hi : byte) : Z :=
  let u := Z.of_N (Byte.to_N lo) + 256 * Z.of_N (Byte.to_N hi) in
  if decide (u < 32768) then u else u - 65536.

(** [np.frombuffer(chunk, dtype=np.int16)]: [None] ([ValueError]) when the
    length is odd. *)
Fixpoint frombuffer_int16 (chunk : bytes) : option (list Z) :=
  match chunk with
  | [] => Some []
  | [_] => None
  | lo :: hi :: rest =>
      match frombuffer_int16 rest with
      | Some samples => Some (int16_of lo hi :: samples)
      | None => None
      end
  end.

Section Net.
Variable sendto_ok : nat -> address -> bool.
Variable decode_ignore : bytes -> string.
(** The arithmetic of the mix on arrays of equal length: the [float32] sum,
    the division by the number of arrays, the [tanh] limiter, the clip and
    the conversion back to [int16] bytes. *)
Variable np_mix : list (list Z) -> bytes.

Definition sendto (data : bytes) (a : address) (tr : list sendev)
  : bool * list sendev :=
  let ok := sendto_ok (length tr) a in (ok, tr ++ [(a, data, ok)]).

(** The loop of [_build_mix_for_target] that decodes the contributors;
    chunks shorter than a sample or of odd length are skipped. *)
Definition decoded (contributors : list bytes) : list (list Z) :=
  omap (fun chunk =>
          if decide (length chunk < 2)%nat then None
          else frombuffer_int16 chunk)
       contributors.

Definition min_length (arrays : list (list Z)) : nat :=
  foldr (fun pcm m => Nat.min (length pcm) m)
        (match arrays with [] => O | pcm :: _ => length pcm end) arrays.

Definition _build_mix_for_target (latest : list (address * bytes))
    (target_address : address) : option bytes :=
  let contributors :=
    map snd (filter (fun ac => ac.1 <> target_address /\ ac.2 <> []) latest) in
  match contributors with
  | [] => None
  | _ =>
      let arrays := decoded contributors in
      match arrays with
      | [] => None
      | _ =>
          if decide (min_length arrays = O) then None
          else Some (np_mix (map (take (min_length arrays)) arrays))
      end
  end.

(** The mixing loop; returns [disconnected]. *)
Fixpoint send_each (targets : list address) (source : address)
    (latest : list (address * bytes)) (tr : list sendev)
  : list address * list sendev :=
  match targets with
  | [] => ([], tr)
  | a :: rest =>
      if decide (a = source) then send_each rest source latest tr
      else
        match _build_mix_for_target latest a with
        | None | Some [] => send_each rest source latest tr
        | Some mix_bytes =>
            let '(ok, tr1) := sendto mix_bytes a tr in
            let '(dis, tr2) := send_each rest source latest tr1 in
            (if ok then dis else a :: dis, tr2)
        end
  end.

Definition forget (s : state) (dead : address) : state :=
  {| clients := dict_del dead (clients s);
     last_seen := dict_del dead (last_seen s);
     latest_chunks := dict_del dead (latest_chunks s) |}.

(** One turn of [_receive_and_broadcast] for a received datagram. *)
Definition handle_datagram (data : bytes) (source : address) (now : Z)
    (s : state) (tr : list sendev) : state * list sendev :=
  if decide (data = []) then (s, tr)
  else if startswith REGISTER_PREFIX data then
    let username := decode_ignore (drop (length REGISTER_PREFIX) data) in
    ({| clients := dict_set source username (clients s);
        last_seen := dict_set source now (last_seen s);
        latest_chunks := dict_setdefault source [] (latest_chunks s) |}, tr)
  else if negb (dict_mem source (clients s)) then (s, tr)
  else
    let s1 := {| clients := clients s;
                 last_seen := dict_set source now (last_seen s);
                 latest_chunks := dict_set source data (latest_chunks s) |} in
    let '(dis, tr1) :=
      send_each (dict_keys (clients s1)) source (latest_chunks s1) tr in
    (fold_left forget dis s1, tr1).

Fixpoint _receive_and_broadcast (events : list (Z * datagram_event))
    (s : state) (tr : list sendev) : state * list sendev :=
  match events with
  | [] => (s, tr)
  | (now, ev) :: rest =>
      match ev with
      | Datagram data source =>
          let '(s1, tr1) := handle_datagram data source now s tr in
          _receive_and_broadcast rest s1 tr1
      | SocketOSError => (s, tr)
      | SocketTimeout | SocketOtherError => _receive_and_broadcast rest s tr
      end
  end.
End Net.

(** One sweep of [_cleanup_loop]. *)
Definition cleanup (now : Z) (s : state) : state :=
  fold_left forget
    (map fst (filter (fun al => now - al.2 > CLIENT_TIMEOUT) (last_seen s))) s.

End AudioServer.

(** ** Chat relay: [server_modules/chat_module.py] *)

Module ChatServer.

Definition sock := nat.

(** A JSON object, as the dictionary from its keys to the text of their
    values. *)
Definition object : Type := list (string * string).

Definition sendev : Type := sock * object * bool.

Record state := {
  clients : list (sock * string)
}.

(** What one [recv] of the message loop gives: data with its decoding
    ([None] when [decode] or [json.loads] raises, or the value takes no
    item assignment), the empty read of a closed connection, or an
    exception. *)
Inductive inbound :=
| Data (message_data : option object)
| Closed
| RecvError.

(** How a handler thread stands after some input. *)
Inductive outcome :=
| Serving (s : state) (tr : list sendev)
| Finished (s : state) (tr : list sendev).

(** The system notice built for a join or a leave. *)
Definition notice (text timestamp : string) : object :=
  [("type", "system"); ("username", "System"); ("message", text);
   ("timestamp", timestamp)]%string.

Section Net.
Variable send_ok : nat -> sock -> bool.

(** The sending loop of [_broadcast]; returns [disconnected]. *)
Fixpoint send_each (targets : list sock) (exclude_socket : option sock)
    (message : object) (tr : list sendev) : list sock * list sendev :=
  match targets with
  | [] => ([], tr)
  | c :: rest =>
      if decide (Some c = exclude_socket)
      then send_each rest exclude_socket message tr
      else
        let ok := send_ok (length tr) c in
        let '(dis, tr2) :=
          send_each rest exclude_socket message (tr ++ [(c, message, ok)]) in
        (if ok then dis else c :: dis, tr2)
  end.

(** The clean-up of one failed send. *)
Definition drop_client (s : state) (dead : sock) : state :=
  {| clients := if dict_mem dead (clients s)
                then dict_del dead (clients s) else clients s |}.

Definition _broadcast (message : object) (exclude_socket : option sock)
    (s : state) (tr : list sendev) : state * list sendev :=
  let '(dis, tr1) :=
    send_each (dict_keys (clients s)) exclude_socket message tr in
  (fold_left drop_client dis s, tr1).

(** The [finally] clause of [_handle_client]; [now] is
    [datetime.now().strftime('%H:%M:%S')]. *)
Definition leave (c : sock) (now : string) (s : state) (tr : list sendev)
  : state * list sendev :=
  match dict_get c (clients s) with
  | Some username =>
      _broadcast (notice (username ++ " left the chat") now) None
        {| clients := dict_del c (clients s) |} tr
  | None => (s, tr)
  end.

(** The message loop of [_handle_client]; every turn comes with the clock
    reading that stamps what the turn sends. *)
Fixpoint serve (c : sock) (input : list (string * inbound))
    (s : state) (tr : list sendev) : outcome :=
  match input with
  | [] => Serving s tr
  | (now, Data (Some message_data)) :: rest =>
      let '(s1, tr1) :=
        _broadcast (dict_set "timestamp"%string now message_data) (Some c)
          s tr in
      serve c rest s1 tr1
  | (now, _) :: _ =>
      let '(s1, tr1) := leave c now s tr in Finished s1 tr1
  end.

(** [_handle_client]: [first] is the first read, the username ([None] when
    the read or its decoding raises), with its clock reading. *)
Definition _handle_client (c : sock) (first : string * option string)
    (input : list (string * inbound)) (s : state) (tr : list sendev)
  : outcome :=
  match first with
  | (now, None) => let '(s1, tr1) := leave c now s tr in Finished s1 tr1
  | (now, Some username) =>
      let s1 := {| clients := dict_set c username (clients s) |} in
      let '(s2, tr2) :=
        _broadcast (notice (username ++ " joined the chat") now) None s1 tr in
      serve c input s2 tr2
  end.
End Net.

End ChatServer.

(** ** Participant client: [client_modules/participant_module.py] *)

Module ParticipantClient.

(** The newline that ends a message; text is kept as its UTF-8 bytes. *)
Definition NEWLINE : byte := x0a.

(** What one [recv] of [_receive_updates] gives: a fragment that decodes,
    an empty read, a time-out, or an exception (of [recv] or of
    [decode]). *)
Inductive inbound :=
| Data (text : bytes)
| Closed
| TimedOut
| RecvError.

Section Receiver.
(** The roster type, and what the body of the inner loop extracts from one
    line: the value of ['participants'] when the line is not blank, decodes
    as JSON and has the type ['participant_list'], [None] otherwise. *)
Variable roster : Type.
Variable participant_list_of : bytes -> option roster.

(** The loop [while '\n' in self.buffer]: the rosters handed to the
    callback, in order, and the rest of the buffer.  Every turn removes a
    newline, so [length buffer] turns suffice. *)
Fixpoint drain (fuel : nat) (buffer : bytes) : list roster * bytes :=
  match fuel with
  | O => ([], buffer)
  | S fuel' =>
      match VideoClient.cut NEWLINE buffer with
      | None => ([], buffer)
      | Some (message_str, buffer') =>
          let '(calls, rest) := drain fuel' buffer' in
          (match participant_list_of message_str with
           | Some participants => participants :: calls
           | None => calls
           end, rest)
      end
  end.

(** [_receive_updates] with a callback set: the calls of the callback, the
    buffer, and whether the client is still connected. *)
Fixpoint _receive_updates (input : list inbound) (buffer : bytes)
  : list roster * bytes * bool :=
  match input with
  | [] => ([], buffer, true)
  | Data [] :: _ | Closed :: _ | RecvError :: _ => ([], buffer, false)
  | TimedOut :: rest => _receive_updates rest buffer
  | Data text :: rest =>
      let '(calls, buffer1) :=
        drain (length (buffer ++ text)) (buffer ++ text) in
      let '(calls', buffer2, connected) := _receive_updates rest buffer1 in
      (calls ++ calls', buffer2, connected)
  end.
End Receiver.

End ParticipantClient.

(* ================================================================== *)
(** * Properties *)
(* ================================================================== *)

(** ** Dictionaries *)

Section DictFacts.
Context {K V : Type} `{EqDecision K}.
Implicit Types (d : list (K * V)) (k : K) (v : V).

Lemma dict_get_set_eq k v d : dict_get k (dict_set k v d) = Some v.
Proof.
  induction d as [|[k' v'] d IH]; simpl.
  - by rewrite decide_True.
  - destruct (decide (k = k')) as [->|Hne]; simpl.
    + by rewrite decide_True.
    + by rewrite decide_False.
Qed.

Lemma dict_get_set_ne k k' v d :
  k ≠ k' → dict_get k (dict_set k' v d) = dict_get k d.
Proof.
  intros Hne. induction d as [|[k2 v2] d IH]; simpl.
  - by rewrite decide_False.
  - destruct (decide (k' = k2)) as [->|Hne2]; simpl.
    + by rewrite !decide_False.
    + destruct (decide (k = k2)); [done | apply IH].
Qed.

Lemma dict_get_del_ne k k' d :
  k ≠ k' → dict_get k (dict_del k' d) = dict_get k d.
Proof.
  intros Hne. induction d as [|[k2 v2] d IH]; simpl; [done|].
  destruct (decide (k' = k2)) as [->|Hne2]; simpl.
  - by rewrite decide_False.
  - destruct (decide (k = k2)); [done | apply IH].
Qed.

Lemma dict_get_elem k v d : dict_get k d = Some v → (k, v) ∈ d.
Proof.
  induction d as [|[k2 v2] d IH]; simpl; [done|].
  destruct (decide (k = k2)) as [->|Hne].
  - intros [= ->]. left.
  - intros Hg. right. by apply IH.
Qed.

Lemma dict_get_None k d : dict_get k d = None → k ∉ dict_keys d.
Proof.
  induction d as [|[k2 v2] d IH]; simpl.
  - intros _ Hin. inversion Hin.
  - destruct (decide (k = k2)) as [->|Hne]; [done|].
    intros Hg Hin. apply (IH Hg).
    apply elem_of_cons in Hin as [Heq|Hin]; [done | exact Hin].
Qed.

(** In a well-formed dictionary a key has one value. *)
Lemma dict_elem_get k v d :
  NoDup (dict_keys d) → (k, v) ∈ d → dict_get k d = Some v.
Proof.
  induction d as [|[k2 v2] d IH]; simpl.
  - intros _ Hin. inversion Hin.
  - intros Hnd Hin. apply NoDup_cons in Hnd as [Hfresh Hnd].
    apply elem_of_cons in Hin as [[= -> ->]|Hin].
    + by rewrite decide_True.
    + destruct (decide (k = k2)) as [->|Hne]; [|by apply IH].
      exfalso. apply Hfresh. unfold dict_keys.
      apply list_elem_of_fmap. by exists (k2, v).
Qed.

Lemma dict_get_del_eq k d :
  NoDup (dict_keys d) → dict_get k (dict_del k d) = None.
Proof.
  induction d as [|[k2 v2] d IH]; simpl; [done|].
  intros Hnd. apply NoDup_cons in Hnd as [Hfresh Hnd].
  destruct (decide (k = k2)) as [->|Hne]; simpl.
  - destruct (dict_get k2 d) as [v|] eqn:Hg; [|done].
    exfalso. apply Hfresh. apply dict_get_elem in Hg.
    unfold dict_keys. apply list_elem_of_fmap. by exists (k2, v).
  - rewrite decide_False by done. by apply IH.
Qed.
End DictFacts.

Section DictRemoval.
Context {K V : Type} `{EqDecision K}.
Implicit Types (d : list (K * V)) (k : K) (v : V).

Lemma dict_del_subseteq k d : dict_del k d ⊆ d.
Proof.
  induction d as [|[k2 v2] d IH]; simpl; [done|].
  destruct (decide (k = k2)).
  - intros x Hx. by right.
  - intros x Hx. apply elem_of_cons in Hx as [->|Hx]; [left | right; by apply IH].
Qed.

Lemma dict_mem_true k d : dict_mem k d = true ↔ is_Some (dict_get k d).
Proof.
  unfold dict_mem. destruct (dict_get k d) as [v|]; simpl.
  - split; [intros _; by exists v | done].
  - split; [done | intros [x Hx]; done].
Qed.

Lemma dict_mem_del k d :
  NoDup (dict_keys d) → dict_mem k (dict_del k d) = false.
Proof. intros Hnd. unfold dict_mem. by rewrite dict_get_del_eq. Qed.
End DictRemoval.

(** ** Screen relay *)

Section ScreenFacts.
Import ScreenServer.
Variable send_ok : nat → sock → bool.
Implicit Types (s : state) (tr : list sendev) (m : message).

Lemma send_each_attempts targets m tr :
  attempts (send_each send_ok targets m tr).2
  = attempts tr ++ map (λ uc, (uc.2, m)) targets.
Proof.
  revert tr. induction targets as [|[u c] rest IH]; intros tr; simpl.
  - by rewrite app_nil_r.
  - specialize (IH (tr ++ [(c, m, send_ok (length tr) c)])).
    destruct (send_each send_ok rest m _) as [dis tr2]; simpl in *.
    rewrite IH. unfold attempts. rewrite map_app. simpl.
    by rewrite <- app_assoc.
Qed.

Lemma send_each_disconnected targets m tr u :
  u ∈ (send_each send_ok targets m tr).1 →
  ∃ c n, (u, c) ∈ targets ∧ send_ok n c = false.
Proof.
  revert tr. induction targets as [|[u' c] rest IH]; intros tr; simpl.
  - intros Hin. inversion Hin.
  - specialize (IH (tr ++ [(c, m, send_ok (length tr) c)])).
    destruct (send_each send_ok rest m _) as [dis tr2]; simpl in *.
    destruct (send_ok (length tr) c) eqn:Hok; simpl.
    + intros Hin. destruct (IH Hin) as (c' & n & Hc & Hn).
      exists c', n. split; [by right | done].
    + intros Hin. apply elem_of_cons in Hin as [->|Hin].
      * exists c, (length tr). split; [left | done].
      * destruct (IH Hin) as (c' & n & Hc & Hn).
        exists c', n. split; [by right | done].
Qed.

Lemma remove_client_presenter u s :
  current_presenter (_remove_client u s) = current_presenter s.
Proof. done. Qed.

Lemma remove_all_presenter dis s :
  current_presenter (remove_all dis s) = current_presenter s.
Proof.
  revert s. induction dis as [|u dis IH]; intros s; [done|].
  unfold remove_all in *. simpl. by rewrite IH.
Qed.

Lemma remove_client_get u u' s :
  u ≠ u' →
  dict_get u (clients (_remove_client u' s)) = dict_get u (clients s).
Proof.
  intros Hne. simpl. destruct (dict_mem u' (clients s)); [|done].
  by apply dict_get_del_ne.
Qed.

Lemma remove_all_get u dis s :
  u ∉ dis →
  dict_get u (clients (remove_all dis s)) = dict_get u (clients s).
Proof.
  revert s. induction dis as [|u' dis IH]; intros s Hnin; [done|].
  apply not_elem_of_cons in Hnin as [Hne Hnin].
  unfold remove_all in *. simpl. rewrite IH by done.
  by apply remove_client_get.
Qed.

Lemma remove_client_subseteq u s : clients (_remove_client u s) ⊆ clients s.
Proof.
  simpl. destruct (dict_mem u (clients s)); [apply dict_del_subseteq | done].
Qed.

Lemma remove_all_subseteq dis s : clients (remove_all dis s) ⊆ clients s.
Proof.
  revert s. induction dis as [|u dis IH]; intros s; [done|].
  unfold remove_all in *. simpl.
  etrans; [apply IH | apply remove_client_subseteq].
Qed.

(** A client whose socket never fails survives every broadcast. *)
Lemma broadcast_keeps_healthy m s tr u c :
  (∀ c', (u, c') ∈ clients s → ∀ n, send_ok n c' = true) →
  dict_get u (clients s) = Some c →
  dict_get u (clients (_broadcast_to_all send_ok m s tr).1) = Some c.
Proof.
  intros Hok Hget. unfold _broadcast_to_all.
  destruct (send_each send_ok (clients s) m tr) as [dis tr1] eqn:Hse; simpl.
  rewrite remove_all_get; [done|].
  intros Hin.
  assert (Hin' : u ∈ (send_each send_ok (clients s) m tr).1) by by rewrite Hse.
  apply send_each_disconnected in Hin' as (c' & n & Hc & Hn).
  by rewrite (Hok c' Hc n) in Hn.
Qed.

Lemma broadcast_presenter m s tr :
  current_presenter (_broadcast_to_all send_ok m s tr).1 = current_presenter s.
Proof.
  unfold _broadcast_to_all.
  destruct (send_each send_ok (clients s) m tr) as [dis tr1]; simpl.
  apply remove_all_presenter.
Qed.

Lemma broadcast_attempts m s tr :
  attempts (_broadcast_to_all send_ok m s tr).2
  = attempts tr ++ map (λ uc, (uc.2, m)) (clients s).
Proof.
  unfold _broadcast_to_all.
  pose proof (send_each_attempts (clients s) m tr) as H.
  by destruct (send_each send_ok (clients s) m tr) as [dis tr1].
Qed.

Lemma broadcast_subseteq m s tr :
  clients (_broadcast_to_all send_ok m s tr).1 ⊆ clients s.
Proof.
  unfold _broadcast_to_all.
  destruct (send_each send_ok (clients s) m tr) as [dis tr1]; simpl.
  apply remove_all_subseteq.
Qed.

(** When no send fails, nothing is pruned. *)
Lemma send_each_all_delivered targets m tr :
  (∀ n c, send_ok n c = true) → (send_each send_ok targets m tr).1 = [].
Proof.
  intros Hok. revert tr.
  induction targets as [|[u c] rest IH]; intros tr; simpl; [done|].
  specialize (IH (tr ++ [(c, m, send_ok (length tr) c)])).
  destruct (send_each send_ok rest m _) as [dis tr2]; simpl in *.
  by rewrite Hok.
Qed.

Lemma broadcast_all_delivered m s tr :
  (∀ n c, send_ok n c = true) → (_broadcast_to_all send_ok m s tr).1 = s.
Proof.
  intros Hok. unfold _broadcast_to_all.
  pose proof (send_each_all_delivered (clients s) m tr Hok) as H.
  destruct (send_each send_ok (clients s) m tr) as [dis tr1].
  simpl in *. by subst dis.
Qed.

Lemma broadcast_except_all_delivered u m s tr :
  (∀ n c, send_ok n c = true) →
  (_broadcast_to_all_except send_ok u m s tr).1 = s.
Proof.
  intros Hok. unfold _broadcast_to_all_except.
  pose proof (send_each_all_delivered
                (filter (λ uc, uc.1 ≠ u) (clients s)) m tr Hok) as H.
  destruct (send_each send_ok _ m tr) as [dis tr1].
  simpl in *. by subst dis.
Qed.

Lemma send_to_client_all_delivered u m s tr :
  (∀ n c, send_ok n c = true) → (_send_to_client send_ok u m s tr).1 = s.
Proof.
  intros Hok. unfold _send_to_client.
  destruct (dict_get u (clients s)); [|done].
  unfold sendall. by rewrite Hok.
Qed.

(** X3.  The invariant of the data model (the presenter is empty or a
    registered client) is kept by every operation as long as no send fails:
    a connection, a message of a registered client, a disconnection. *)
Lemma presenter_registered_when_sends_succeed s tr u :
  (∀ n c, send_ok n c = true) →
  presenter_registered s = true →
  (∀ c, presenter_registered (_accept_client send_ok u c s tr).1 = true) ∧
  (dict_mem u (clients s) = true →
   ∀ r s' tr', handle_message send_ok u r s tr = Some (s', tr') →
               presenter_registered s' = true) ∧
  presenter_registered (disconnect send_ok u s tr).1 = true.
Proof.
  intros Hok Hinv. unfold presenter_registered in Hinv. split; [|split].
  - intros c. unfold _accept_client. cbn [current_presenter].
    destruct (current_presenter s) as [p|] eqn:Hp; [|done].
    assert (Hmem : dict_mem p (dict_set u c (clients s)) = true).
    { unfold dict_mem in *. destruct (decide (p = u)) as [->|Hne].
      - by rewrite dict_get_set_eq.
      - by rewrite dict_get_set_ne. }
    destruct (decide (p = "")%string).
    + unfold presenter_registered. simpl. exact Hmem.
    + match goal with
      | |- context [_send_to_client send_ok u ?m ?s0 tr] =>
          pose proof (send_to_client_all_delivered u m s0 tr Hok) as Hsend;
          destruct (_send_to_client send_ok u m s0 tr) as [s2 tr2]
      end.
      simpl in Hsend. subst s2. exact Hmem.
  - intros Hu r s' tr' Hr. destruct r as [| |frame|ty]; simpl in Hr.
    + injection Hr as Hr. unfold _handle_start_presenting in Hr.
      destruct (current_presenter s) as [p|] eqn:Hp.
      * pose proof (send_to_client_all_delivered u
                      (presenting_allowed false (Some p)) s tr Hok) as Hs.
        rewrite Hr in Hs. simpl in Hs. subst s'.
        unfold presenter_registered. by rewrite Hp.
      * pose proof (broadcast_all_delivered (presenter_started u)
                      (set_presenter (Some u) s) tr Hok) as Hb.
        destruct (_broadcast_to_all send_ok _ _ tr) as [s2 tr2].
        simpl in Hb. subst s2.
        pose proof (send_to_client_all_delivered u
                      (presenting_allowed true None)
                      (set_presenter (Some u) s) tr2 Hok) as Hs.
        rewrite Hr in Hs. simpl in Hs. subst s'. exact Hu.
    + injection Hr as Hr. unfold _handle_stop_presenting in Hr.
      destruct (decide (current_presenter s = Some u)) as [Hp|Hp].
      * pose proof (broadcast_all_delivered (presenter_stopped u)
                      (set_presenter None s) tr Hok) as Hb.
        rewrite Hr in Hb. simpl in Hb. by subst s'.
      * injection Hr as <- <-. exact Hinv.
    + destruct (decide (current_presenter s = Some u)) as [Hp|Hp].
      * destruct frame as [f|]; [|done]. injection Hr as Hr.
        pose proof (broadcast_except_all_delivered u (screen_frame u f)
                      s tr Hok) as Hb.
        rewrite Hr in Hb. simpl in Hb. subst s'. exact Hinv.
      * injection Hr as <- <-. exact Hinv.
    + injection Hr as <- <-. exact Hinv.
  - unfold disconnect, _handle_stop_presenting.
    destruct (decide (current_presenter s = Some u)) as [Hp|Hp].
    + pose proof (broadcast_all_delivered (presenter_stopped u)
                    (set_presenter None s) tr Hok) as Hb.
      destruct (_broadcast_to_all send_ok _ _ tr) as [s2 tr2].
      simpl in Hb. by subst s2.
    + unfold presenter_registered. simpl.
      destruct (current_presenter s) as [p|]; [|done].
      assert (Hne : p ≠ u) by congruence.
      destruct (dict_mem u (clients s)); [|done].
      unfold dict_mem in *. by rewrite dict_get_del_ne.
Qed.
End ScreenFacts.

Section ScreenClaims.
Import ScreenServer.

(** C1 (evaluated on the code).  The claim: after every operation, sends
    that fail included, the presenter is empty or a registered client.
    Here alice is the only client and nobody presents; she asks to present
    and the sends to her socket fail.  The broadcast of [presenter_started]
    removes her from the registry, yet [current_presenter] keeps her name:
    [_remove_client] does not release the presenter slot, unlike the
    disconnect path of [_handle_client]. *)
Theorem screen_presenter_outlives_registration :
  let s0 := {| clients := [("alice"%string, 1%nat)];
               client_threads := [("alice"%string, 1%nat)];
               current_presenter := None |} in
  let r := handle_message (λ _ _, false) "alice" start_presenting s0 [] in
  let s1 := {| clients := []; client_threads := [];
               current_presenter := Some "alice"%string |} in
  presenter_registered s0 = true ∧
  r = Some (s1, [(1%nat, presenter_started "alice", false)]) ∧
  presenter_registered s1 = false.
Proof. repeat split. Qed.

(** C4.  While A presents, a [start_presenting] from another registered
    client B leaves the relay state unchanged and sends exactly one message,
    the refusal naming A, to B.  When A then stops, the presenter becomes
    empty and [presenter_stopped A] is sent to every registered client.
    When B asks again, B becomes the presenter, [presenter_started B] is
    sent to every registered client, and B then receives
    [presenting_allowed] with [allowed = true]. *)
Theorem screen_presenter_handover (send_ok : nat → sock → bool)
    (s : state) (tr : list sendev) (A B : string) (cB : sock) :
  current_presenter s = Some A →
  B ≠ A →
  NoDup (dict_keys (clients s)) →
  dict_get B (clients s) = Some cB →
  (∀ n, send_ok n cB = true) →
  let r1 := _handle_start_presenting send_ok B s tr in
  let r2 := _handle_stop_presenting send_ok A r1.1 r1.2 in
  let r3 := _handle_start_presenting send_ok B r2.1 r2.2 in
  r1 = (s, tr ++ [(cB, presenting_allowed false (Some A), true)]) ∧
  current_presenter r2.1 = None ∧
  attempts r2.2
    = attempts r1.2 ++ map (λ uc, (uc.2, presenter_stopped A)) (clients s) ∧
  current_presenter r3.1 = Some B ∧
  ∃ trb, r3.2 = trb ++ [(cB, presenting_allowed true None, true)] ∧
         attempts trb
         = attempts r2.2
             ++ map (λ uc, (uc.2, presenter_started B)) (clients r2.1).
Proof.
  intros Hpres Hne Hnd Hget Hok r1.
  assert (Hr1 : r1 = (s, tr ++ [(cB, presenting_allowed false (Some A), true)])).
  { subst r1. unfold _handle_start_presenting. rewrite Hpres.
    unfold _send_to_client. rewrite Hget. unfold sendall. by rewrite Hok. }
  rewrite Hr1. simpl. clear r1 Hr1.
  set (tr1 := tr ++ [(cB, presenting_allowed false (Some A), true)]).
  assert (Hall : ∀ s', clients s' ⊆ clients s →
                   ∀ c', (B, c') ∈ clients s' → ∀ n, send_ok n c' = true).
  { intros s' Hsub c' Hin n. apply Hsub in Hin.
    apply (dict_elem_get _ _ _ Hnd) in Hin.
    rewrite Hget in Hin. injection Hin as <-. apply Hok. }
  assert (Hr2 : _handle_stop_presenting send_ok A s tr1
                = _broadcast_to_all send_ok (presenter_stopped A)
                    (set_presenter None s) tr1).
  { unfold _handle_stop_presenting. by rewrite decide_True. }
  rewrite Hr2. clear Hr2.
  pose proof (broadcast_presenter send_ok (presenter_stopped A)
                (set_presenter None s) tr1) as Hp2.
  pose proof (broadcast_subseteq send_ok (presenter_stopped A)
                (set_presenter None s) tr1) as Hsub2.
  pose proof (broadcast_attempts send_ok (presenter_stopped A)
                (set_presenter None s) tr1) as Hat2.
  pose proof (broadcast_keeps_healthy send_ok (presenter_stopped A)
                (set_presenter None s) tr1 B cB
                (Hall (set_presenter None s) (reflexivity _)) Hget) as Hget2.
  destruct (_broadcast_to_all send_ok (presenter_stopped A)
              (set_presenter None s) tr1) as [s2 tr2].
  simpl in Hp2, Hsub2, Hat2, Hget2. simpl.
  split; [done|]. split; [done|]. split; [done|].
  unfold _handle_start_presenting. rewrite Hp2.
  pose proof (broadcast_presenter send_ok (presenter_started B)
                (set_presenter (Some B) s2) tr2) as Hp3.
  pose proof (broadcast_attempts send_ok (presenter_started B)
                (set_presenter (Some B) s2) tr2) as Hat3.
  pose proof (broadcast_keeps_healthy send_ok (presenter_started B)
                (set_presenter (Some B) s2) tr2 B cB
                (Hall (set_presenter (Some B) s2) Hsub2) Hget2) as Hget3.
  destruct (_broadcast_to_all send_ok (presenter_started B)
              (set_presenter (Some B) s2) tr2) as [s3 tr3].
  simpl in Hp3, Hat3, Hget3.
  unfold _send_to_client. rewrite Hget3. unfold sendall. rewrite Hok. simpl.
  split; [done|]. by exists tr3.
Qed.

Lemma screen_presenter_handover_witness :
  let ok : nat → sock → bool := λ _ _, true in
  let s := {| clients := [("ann"%string, 1%nat); ("bob"%string, 2%nat)];
              client_threads := [];
              current_presenter := Some "ann"%string |} in
  current_presenter (_handle_start_presenting ok "bob"
    (_handle_stop_presenting ok "ann"
       (_handle_start_presenting ok "bob" s []).1
       (_handle_start_presenting ok "bob" s []).2).1
    (_handle_stop_presenting ok "ann"
       (_handle_start_presenting ok "bob" s []).1
       (_handle_start_presenting ok "bob" s []).2).2).1 = Some "bob"%string.
Proof.
  intros ok s.
  refine (proj1 (proj2 (proj2 (proj2
    (screen_presenter_handover ok s [] "ann" "bob" 2%nat _ _ _ _ _))))).
  - reflexivity.
  - discriminate.
  - apply (bool_decide_unpack _). vm_compute. exact I.
  - reflexivity.
  - reflexivity.
Defined.
End ScreenClaims.

(** ** File catalogue *)

Section FileClaims.
Import FileServer.

(** C2 (evaluated on the code).  The claim: an upload answered [ready]
    whose client closes before all declared bytes arrived leaves the
    catalogue unchanged.  Here ann declares 10 bytes for [a.bin], sends 4
    and closes.  The receive loop leaves on the empty chunk and the code
    goes on as for a complete upload: the entry is created with the
    declared size, [success] is sent and the catalogue is broadcast; a
    later [LIST] shows the file. *)
Theorem upload_partial_is_catalogued :
  let s0 := {| clients := [7%nat]; available_files := ∅; disk := ∅ |} in
  let req := {| command := Some "UPLOAD"%string;
                filename := Some "a.bin"%string;
                filesize := Some 10;
                username := Some "ann"%string |} in
  let entry := {| size := 10; uploader := "ann" |} in
  let r := _handle_upload (λ _ _, true) "closed" 7%nat req s0
             [Some [x01; x02; x03; x04]] [] in
  receive_file 10 10 0 [] [Some [x01; x02; x03; x04]]
    = (LoopDone 4, [x01; x02; x03; x04], []) ∧
  disk r.1.1 !! "a.bin"%string = Some [x01; x02; x03; x04] ∧
  available_files s0 !! "a.bin"%string = None ∧
  available_files r.1.1 !! "a.bin"%string = Some entry ∧
  r.2 = [ (7%nat, status_ready, true);
          (7%nat, status_success "File uploaded successfully", true);
          (7%nat, file_list_update (<["a.bin"%string := entry]> ∅), true) ] ∧
  _send_file_list (λ _ _, true) 9%nat r.1.1 []
    = [ (9%nat, file_list (<["a.bin"%string := entry]> ∅), true) ].
Proof. vm_compute. repeat split. Qed.

(** The fuel given to the receive loop by [_handle_upload] is enough:
    more fuel does not change the result. *)
Lemma receive_file_fuel fuel fs count content input :
  (Z.to_nat (fs - count) ≤ fuel)%nat →
  receive_file (S fuel) fs count content input
  = receive_file fuel fs count content input.
Proof.
  revert count content input.
  induction fuel as [|fuel IH]; intros count content input Hfuel.
  - simpl. rewrite decide_False by lia. done.
  - change (receive_file (S (S fuel)) fs count content input)
      with (if decide (count < fs) then
              match recv (Z.min CHUNK_SIZE (fs - count)) input with
              | (None, input') => (RecvRaised, content, input')
              | (Some [], input') => (LoopDone count, content, input')
              | (Some chunk, input') =>
                  receive_file (S fuel) fs (count + Z.of_nat (length chunk))
                    (content ++ chunk) input'
              end
            else (LoopDone count, content, input)).
    simpl. destruct (decide (count < fs)); [|done].
    destruct (recv _ input) as [[[|b chunk]|] input']; try done.
    apply IH. simpl length. lia.
Qed.

Lemma recv_whole (data : bytes) (rest : stream) :
  data ≠ [] → (length data ≤ 1024)%nat →
  recv 1024 (Some data :: rest) = (Some data, rest).
Proof.
  intros Hne Hlen. destruct data as [|b data]; [done|].
  unfold recv. rewrite take_ge, drop_ge by (simpl in *; lia). done.
Qed.



(** C7 (as amended).  An [UPLOAD] whose declared size exceeds
    [MAX_FILE_SIZE] is answered with the error reply and nothing else: the
    catalogue, the stored files, the registry and the unread input are
    left as they were (a second error reply is attempted only when the
    first send raised).  A name that was not catalogued is therefore absent
    from the [LIST] response served next, and the handler loop goes on
    with the next command of the same connection. *)
Theorem upload_oversized_rejected (send_ok : nat → sock → bool)
    (json_loads : bytes → option request) (os_error : string)
    (c : sock) (fn un : string) (fs : Z)
    (s : state) (input : stream) (tr : list sendev) :
  fs > MAX_FILE_SIZE →
  let req := {| command := Some "UPLOAD"%string; filename := Some fn;
                filesize := Some fs; username := Some un |} in
  let first := send_ok (length tr) c in
  let tr' :=
    tr ++ (c, status_error "File too large", first)
           :: (if first then []
               else [(c, status_error os_error, send_ok (S (length tr)) c)]) in
  _handle_upload send_ok os_error c req s input tr = (s, input, tr') ∧
  (available_files s !! fn = None →
   ∀ c' tr0, ∃ files ok,
     _send_file_list send_ok c' s tr0 = tr0 ++ [(c', file_list files, ok)] ∧
     files !! fn = None) ∧
  (∀ fuel data rest,
     data ≠ [] → (length data ≤ 1024)%nat → json_loads data = Some req →
     _handle_client send_ok json_loads os_error (S fuel) c s
       (Some data :: rest) tr
     = _handle_client send_ok json_loads os_error fuel c s rest tr').
Proof.
  intros Hbig req first tr'.
  assert (Hup : _handle_upload send_ok os_error c req s input tr
                = (s, input, tr')).
  { unfold _handle_upload, req. simpl. rewrite decide_True by done.
    subst tr' first. destruct (send_ok (length tr) c) eqn:Hok; [done|].
    unfold upload_failed, send. simpl. rewrite length_app. simpl.
    rewrite Nat.add_1_r, <- app_assoc. done. }
  split; [done|]. split.
  - intros Habsent c' tr0. exists (available_files s), (send_ok (length tr0) c').
    done.
  - intros fuel data rest Hne Hlen Hjson.
    assert (Hup' : _handle_upload send_ok os_error c req s rest tr
                   = (s, rest, tr')).
    { unfold _handle_upload, req. simpl. rewrite decide_True by done.
      subst tr' first. destruct (send_ok (length tr) c) eqn:Hok; [done|].
      unfold upload_failed, send. simpl. rewrite length_app. simpl.
      rewrite Nat.add_1_r, <- app_assoc. done. }
    change (_handle_client send_ok json_loads os_error (S fuel) c s
              (Some data :: rest) tr)
      with (match recv 1024 (Some data :: rest) with
            | (None, input1) | (Some [], input1) =>
                (close_client c s, input1, tr, true)
            | (Some data, input1) =>
                match json_loads data with
                | None => (close_client c s, input1, tr, true)
                | Some req =>
                    if decide (command req = Some "UPLOAD"%string) then
                      let '(s2, input2, tr2) :=
                        _handle_upload send_ok os_error c req s input1 tr in
                      _handle_client send_ok json_loads os_error fuel c
                        s2 input2 tr2
                    else if decide (command req = Some "DOWNLOAD"%string) then
                      let '(input2, tr2) :=
                        _handle_download send_ok c req s input1 tr in
                      _handle_client send_ok json_loads os_error fuel c
                        s input2 tr2
                    else if decide (command req = Some "LIST"%string) then
                      _handle_client send_ok json_loads os_error fuel c
                        s input1 (_send_file_list send_ok c s tr)
                    else _handle_client send_ok json_loads os_error fuel c
                           s input1 tr
                end
            end).
    rewrite recv_whole by done.
    destruct data as [|b data]; [done|].
    rewrite Hjson. rewrite decide_True by done. by rewrite Hup'.
Qed.

Lemma upload_oversized_rejected_witness :
  _handle_upload (λ _ _, true) "closed" 7%nat
    {| command := Some "UPLOAD"%string; filename := Some "big.iso"%string;
       filesize := Some (MAX_FILE_SIZE + 1); username := Some "ann"%string |}
    {| clients := [7%nat]; available_files := ∅; disk := ∅ |}
    [Some [x01]] []
  = ({| clients := [7%nat]; available_files := ∅; disk := ∅ |},
     [Some [x01]],
     [(7%nat, status_error "File too large", true)]).
Proof.
  refine (proj1 (upload_oversized_rejected (λ _ _, true) (λ _, None) "closed"
                   7%nat "big.iso" "ann" (MAX_FILE_SIZE + 1)
                   {| clients := [7%nat]; available_files := ∅; disk := ∅ |}
                   [Some [x01]] [] _)).
  reflexivity.
Defined.

(** C7 as stated fails: the refusal leaves the catalogue alone, so a name
    that is already catalogued (here by the start-up scan) is still in the
    catalogue, and in the next [LIST] response, after an oversized upload
    under that name was refused. *)
Lemma upload_oversized_name_still_listed :
  let old := {| size := 3; uploader := "Server" |} in
  let s0 := {| clients := [7%nat];
               available_files := <["a.bin"%string := old]> ∅;
               disk := <["a.bin"%string := [x01; x02; x03]]> ∅ |} in
  let req := {| command := Some "UPLOAD"%string;
                filename := Some "a.bin"%string;
                filesize := Some (MAX_FILE_SIZE + 1);
                username := Some "ann"%string |} in
  let r := _handle_upload (λ _ _, true) "closed" 7%nat req s0 [] [] in
  r.2 = [(7%nat, status_error "File too large", true)] ∧
  available_files r.1.1 !! "a.bin"%string = Some old ∧
  _send_file_list (λ _ _, true) 7%nat r.1.1 []
    = [(7%nat, file_list (<["a.bin"%string := old]> ∅), true)].
Proof. vm_compute. repeat split. Qed.
End FileClaims.

(** ** Video client: cutting a frame *)

Section VideoChunks.
Import VideoClient.
Implicit Types (frame_bytes : bytes).

Lemma total_chunks_of_pos frame_bytes : 1 ≤ total_chunks_of frame_bytes.
Proof. unfold total_chunks_of. lia. Qed.

(** The chunk count covers the frame. *)
Lemma total_chunks_of_covers frame_bytes :
  Z.of_nat (length frame_bytes)
  ≤ total_chunks_of frame_bytes * MAX_DATAGRAM_SIZE.
Proof.
  unfold total_chunks_of, MAX_DATAGRAM_SIZE.
  pose proof (Z.div_mod (Z.of_nat (length frame_bytes) + 8192 - 1) 8192).
  pose proof (Z.mod_pos_bound (Z.of_nat (length frame_bytes) + 8192 - 1) 8192).
  lia.
Qed.

Lemma chunk_of_nat frame_bytes (i : nat) :
  chunk_of frame_bytes (Z.of_nat i)
  = take (Z.to_nat MAX_DATAGRAM_SIZE)
      (drop (i * Z.to_nat MAX_DATAGRAM_SIZE) frame_bytes).
Proof.
  unfold chunk_of, slice, MAX_DATAGRAM_SIZE. f_equal.
  - lia.
  - f_equal. lia.
Qed.

Lemma chunks_prefix frame_bytes (n : nat) :
  concat (map (chunk_of frame_bytes) (seqZ 0 (Z.of_nat n)))
  = take (n * Z.to_nat MAX_DATAGRAM_SIZE) frame_bytes.
Proof.
  induction n as [|n IH].
  - by rewrite take_0.
  - rewrite seqZ_S, map_app, concat_app, IH.
    change (concat (map (chunk_of frame_bytes) [0 + Z.of_nat n]))
      with (chunk_of frame_bytes (Z.of_nat n) ++ []).
    rewrite app_nil_r, chunk_of_nat, take_take_drop. f_equal. lia.
Qed.

Lemma frame_chunks_concat frame_bytes :
  concat (frame_chunks frame_bytes) = frame_bytes.
Proof.
  unfold frame_chunks.
  pose proof (total_chunks_of_pos frame_bytes) as Hpos.
  pose proof (total_chunks_of_covers frame_bytes) as Hcov.
  rewrite <- (Z2Nat.id (total_chunks_of frame_bytes)) by lia.
  rewrite chunks_prefix. apply take_ge.
  unfold MAX_DATAGRAM_SIZE in *. lia.
Qed.

Lemma frame_chunks_length frame_bytes :
  length (frame_chunks frame_bytes) = Z.to_nat (total_chunks_of frame_bytes).
Proof. unfold frame_chunks. by rewrite length_map, length_seqZ. Qed.

Lemma frame_chunks_bounded frame_bytes :
  Forall (λ chunk, Z.of_nat (length chunk) ≤ MAX_DATAGRAM_SIZE)
    (frame_chunks frame_bytes).
Proof.
  unfold frame_chunks. apply Forall_fmap, Forall_forall. intros i _.
  unfold compose, chunk_of, slice, MAX_DATAGRAM_SIZE. rewrite length_take. lia.
Qed.
End VideoChunks.

(** ** Video client: reading a datagram back *)

Section VideoParsing.
Import VideoClient.

Lemma cut_app (pre post : bytes) :
  BAR ∉ pre → cut BAR (pre ++ BAR :: post) = Some (pre, post).
Proof.
  induction pre as [|b pre IH]; intros Hnin; simpl.
  - done.
  - apply not_elem_of_cons in Hnin as [Hne Hnin].
    rewrite decide_False by done. by rewrite IH.
Qed.

Lemma digits_no_bar d :
  BAR ∉ String.list_byte_of_string (NilEmpty.string_of_uint d).
Proof.
  induction d; simpl; try (apply not_elem_of_nil);
    apply not_elem_of_cons; (split; [discriminate | assumption]).
Qed.

Lemma uint_no_bar d :
  BAR ∉ String.list_byte_of_string (NilZero.string_of_uint d).
Proof.
  destruct d; try exact (digits_no_bar _).
  simpl. apply not_elem_of_cons. split; [discriminate | apply not_elem_of_nil].
Qed.

Lemma str_no_bar n : BAR ∉ str n.
Proof.
  unfold str. destruct (Z.to_int n) as [d|d]; simpl.
  - apply uint_no_bar.
  - change (BAR ∉ x2d :: String.list_byte_of_string (NilZero.string_of_uint d)).
    apply not_elem_of_cons. split; [discriminate | apply uint_no_bar].
Qed.

Lemma frame_header_no_bar : BAR ∉ FRAME_HEADER.
Proof. apply (bool_decide_unpack _). vm_compute. exact I. Qed.

Lemma split_header (u : string) (frame_id chunk_index total_chunks : Z)
    (payload : bytes) :
  BAR ∉ String.list_byte_of_string u →
  split 5 BAR (header u frame_id chunk_index total_chunks ++ payload)
  = [FRAME_HEADER; String.list_byte_of_string u; str frame_id;
     str chunk_index; str total_chunks; payload].
Proof.
  intros Hu. unfold header.
  repeat (rewrite <- app_assoc || rewrite <- app_comm_cons).
  change ([] ++ payload) with payload.
  unfold split.
  rewrite (cut_app _ _ frame_header_no_bar), (cut_app _ _ Hu).
  by rewrite !(cut_app _ _ (str_no_bar _)).
Qed.

Lemma int_decimal_str n : int_decimal (str n) = Some n.
Proof.
  unfold int_decimal, str. rewrite String.string_of_list_byte_of_string.
  rewrite NilZero.isi.
  - simpl. by rewrite DecimalZ.of_to.
  - destruct n; simpl; [discriminate | | discriminate].
    intros [= H]. by apply DecimalPos.Unsigned.to_uint_nonnil in H.
  - destruct n; simpl; [discriminate | discriminate |].
    intros [= H]. by apply DecimalPos.Unsigned.to_uint_nonnil in H.
Qed.

Lemma map_seqZ_size (start : Z) (xs : list bytes) :
  size (map_seqZ (M := gmap Z bytes) start xs) = length xs.
Proof.
  revert start. induction xs as [|x xs IH]; intros start; simpl.
  - apply map_size_empty.
  - rewrite map_size_insert_None by apply map_seqZ_cons_disjoint.
    by rewrite IH.
Qed.

Lemma ordered_chunks_complete (xs : list bytes) :
  ordered_chunks (map_seqZ 0 xs) (Z.of_nat (length xs)) = Some xs.
Proof.
  unfold ordered_chunks. apply mapM_Some.
  apply Forall2_same_length_lookup. split.
  - rewrite length_seqZ. lia.
  - intros i z x Hz Hx. apply lookup_seqZ in Hz as [-> Hlt].
    rewrite lookup_map_seqZ_0 by lia. by rewrite Z.add_0_l, Nat2Z.id.
Qed.
End VideoParsing.

(** ** Video client: reassembly *)

Section VideoReassembly.
Import VideoClient.
Variable frame : Type.
Variable imdecode : bytes → option frame.
Variable int : bytes → option Z.
Variable utf8_ok : bytes → bool.
Variable username : string.
Variable has_callback : bool.

#[local] Abbreviation handle :=
  (_handle_frame_chunk frame imdecode int utf8_ok username has_callback).
#[local] Abbreviation receive :=
  (receive_chunks frame imdecode int utf8_ok username has_callback).

(** A call of the callback means that every index below [total_chunks] is in
    the buffer of the frame, this chunk included, and that the image is
    decoded from the chunks in index order. *)
Lemma handle_delivers_complete (packet : bytes) (now : Z) (st : state)
    (sender : string) (f : frame) :
  (handle packet now st).2 = Some (sender, f) →
  ∃ frame_id chunk_index total_chunks payload chunks,
    let buffer :=
      <[chunk_index := payload]>
        (default ∅ (_incoming_frames st !! (sender, frame_id))) in
    parse_chunk int utf8_ok packet
      = Some (sender, frame_id, chunk_index, total_chunks, payload) ∧
    (∀ i, 0 ≤ i < total_chunks → is_Some (buffer !! i)) ∧
    ordered_chunks buffer total_chunks = Some chunks ∧
    imdecode (concat chunks) = Some f.
Proof.
  unfold _handle_frame_chunk, parse_chunk.
  destruct (split 5 BAR packet) as [|p0 [|p1 [|p2 [|p3 [|p4 [|p5 [|p6 l]]]]]]];
    try done.
  destruct (utf8_ok p1); simpl; [|done].
  destruct (int p2) as [frame_id|]; [|done].
  destruct (int p3) as [chunk_index|]; [|done].
  destruct (int p4) as [total_chunks|]; [|done].
  destruct (decide (String.string_of_list_byte p1 = username)); [done|].
  destruct (decide _) as [Hsize|]; [|done].
  destruct (ordered_chunks _ total_chunks) as [chunks|] eqn:Hord; [|done].
  simpl. destruct (imdecode (concat chunks)) as [f'|] eqn:Hdec; [|done].
  destruct has_callback; [|done].
  intros [= <- <-].
  exists frame_id, chunk_index, total_chunks, p5, chunks.
  split; [done|]. split; [|done].
  intros i Hi. unfold ordered_chunks in Hord.
  assert (His : is_Some (mapM (λ i, (<[chunk_index:=p5]>
            (default ∅ (_incoming_frames st
               !! (String.string_of_list_byte p1, frame_id)))) !! i)
            (seqZ 0 total_chunks))) by (rewrite Hord; by eexists).
  apply mapM_is_Some in His. rewrite Forall_forall in His.
  apply (His i). apply elem_of_seqZ. lia.
Qed.

(** Every chunk stored for a frame resets the time recorded for it; the
    chunk that completes the frame removes the record and the buffer. *)
Lemma handle_refreshes_created (packet : bytes) (now : Z) (st : state)
    (sender : string) (frame_id chunk_index total_chunks : Z)
    (payload : bytes) :
  parse_chunk int utf8_ok packet
    = Some (sender, frame_id, chunk_index, total_chunks, payload) →
  sender ≠ username →
  let st' := (handle packet now st).1 in
  (_frame_meta st' !! (sender, frame_id) = Some (total_chunks, now) ∧
   is_Some (_incoming_frames st' !! (sender, frame_id))) ∨
  (_frame_meta st' !! (sender, frame_id) = None ∧
   _incoming_frames st' !! (sender, frame_id) = None).
Proof.
  unfold _handle_frame_chunk, parse_chunk.
  destruct (split 5 BAR packet) as [|p0 [|p1 [|p2 [|p3 [|p4 [|p5 [|p6 l]]]]]]];
    try done.
  destruct (utf8_ok p1); simpl; [|done].
  destruct (int p2) as [fid|]; [|done].
  destruct (int p3) as [idx|]; [|done].
  destruct (int p4) as [tot|]; [|done].
  intros [= <- <- <- <- <-] Hother.
  rewrite decide_False by done.
  destruct (decide _) as [Hsize|].
  - destruct (ordered_chunks _ tot) as [chunks|]; simpl.
    + right. by rewrite !lookup_delete_eq.
    + left. rewrite !lookup_insert_eq. split; [done | by eexists].
  - simpl. left. rewrite !lookup_insert_eq. split; [done | by eexists].
Qed.

Section InOrder.
Variable sender : string.
Variable frame_id : Z.
Variable total : Z.
Variable chunk : Z → bytes.
Hypothesis int_str : ∀ n, 0 ≤ n → int (str n) = Some n.
Hypothesis sender_utf8 : utf8_ok (String.list_byte_of_string sender) = true.
Hypothesis sender_no_bar : BAR ∉ String.list_byte_of_string sender.
Hypothesis sender_other : sender ≠ username.
Hypothesis frame_id_nonneg : 0 ≤ frame_id.

#[local] Abbreviation packet := (packet sender frame_id total chunk).
#[local] Abbreviation stored := (stored chunk).
#[local] Abbreviation delivered := (delivered frame imdecode has_callback).

Lemma stored_S k : stored (S k) = <[Z.of_nat k := chunk (Z.of_nat k)]> (stored k).
Proof.
  unfold VideoClient.stored. rewrite seqZ_S, map_app. simpl.
  rewrite map_seqZ_snoc, length_map, length_seqZ. f_equal. lia.
Qed.

Lemma stored_size k : size (stored k) = k.
Proof.
  unfold VideoClient.stored. rewrite map_seqZ_size, length_map, length_seqZ. lia.
Qed.

(** A chunk that does not complete the frame is stored. *)
Lemma handle_stores (k : nat) (now : Z) (st : state) :
  Z.of_nat (S k) < total →
  default ∅ (_incoming_frames st !! (sender, frame_id)) = stored k →
  handle (packet (Z.of_nat k)) now st
  = ({| _incoming_frames :=
          <[(sender, frame_id) := stored (S k)]> (_incoming_frames st);
        _frame_meta := <[(sender, frame_id) := (total, now)]> (_frame_meta st) |},
     None).
Proof.
  intros Hlt Hbuf. unfold _handle_frame_chunk, VideoClient.packet.
  rewrite split_header by done. rewrite sender_utf8. simpl.
  rewrite !int_str by lia.
  rewrite String.string_of_list_byte_of_string.
  rewrite decide_False by done.
  rewrite Hbuf, <- stored_S, stored_size.
  rewrite decide_False by lia. done.
Qed.

(** The chunk that completes the frame releases it. *)
Lemma handle_completes (k : nat) (now : Z) (st : state) :
  Z.of_nat (S k) = total →
  default ∅ (_incoming_frames st !! (sender, frame_id)) = stored k →
  handle (packet (Z.of_nat k)) now st
  = ({| _incoming_frames := delete (sender, frame_id) (_incoming_frames st);
        _frame_meta := delete (sender, frame_id) (_frame_meta st) |},
     delivered sender (concat (map chunk (seqZ 0 total)))).
Proof.
  intros Heq Hbuf. unfold _handle_frame_chunk, VideoClient.packet.
  rewrite split_header by done. rewrite sender_utf8. simpl.
  rewrite !int_str by lia.
  rewrite String.string_of_list_byte_of_string.
  rewrite decide_False by done.
  rewrite Hbuf, <- stored_S, stored_size.
  rewrite decide_True by done.
  assert (Hord : ordered_chunks (stored (S k)) total
                 = Some (map chunk (seqZ 0 total))).
  { pose proof (ordered_chunks_complete (map chunk (seqZ 0 total))) as H.
    rewrite length_map, length_seqZ, Z2Nat.id in H by lia.
    unfold VideoClient.stored. by rewrite Heq. }
  rewrite Hord. by rewrite !delete_insert_eq.
Qed.

(** The datagrams [k, k+1, ..., total-1], received in that order after the
    first [k], give one call of the callback, with the whole frame. *)
Lemma receive_remaining (m k : nat) (now : Z) (st : state) :
  Z.of_nat (k + S m) = total →
  default ∅ (_incoming_frames st !! (sender, frame_id)) = stored k →
  receive (map packet (seqZ (Z.of_nat k) (Z.of_nat (S m)))) now st
  = ({| _incoming_frames := delete (sender, frame_id) (_incoming_frames st);
        _frame_meta := delete (sender, frame_id) (_frame_meta st) |},
     option_list (delivered sender (concat (map chunk (seqZ 0 total))))).
Proof.
  revert k st. induction m as [|m IH]; intros k st Htot Hbuf.
  - rewrite seqZ_cons, seqZ_nil by lia.
    cbn [map receive_chunks].
    rewrite handle_completes by (done || lia).
    by destruct (delivered _ _).
  - rewrite seqZ_cons by lia.
    cbn [map receive_chunks].
    rewrite handle_stores by (done || lia).
    replace (Z.succ (Z.of_nat k)) with (Z.of_nat (S k)) by lia.
    replace (Z.pred (Z.of_nat (S (S m)))) with (Z.of_nat (S m)) by lia.
    rewrite IH; [| lia | simpl; by rewrite lookup_insert_eq].
    simpl. by rewrite !delete_insert_eq.
Qed.
End InOrder.
End VideoReassembly.

Section VideoClaims.
Import VideoClient.

(** C3.  A frame is cut into [max(1, ceil(len / 8192))] chunks of at most
    8192 bytes, datagram [i] being the header
    [FRAME|sender|frame_id|i|total|] followed by chunk [i], and the chunks in
    index order concatenate to the frame.  A receiver that holds no buffer
    for [(sender, frame_id)] and is handed these datagrams calls its
    callback once, with the image decoded from exactly the original bytes,
    and keeps no buffer.  Whatever datagram arrives in whatever state, a call
    of the callback implies that every chunk index below the datagram's
    [total_chunks] is in the buffer of its frame: a frame with a missing
    chunk is never delivered. *)
Theorem frame_chunking_roundtrip (frame_bytes : bytes) :
  let total := total_chunks_of frame_bytes in
  total = Z.max 1 ((Z.of_nat (length frame_bytes) + 8192 - 1) / 8192) ∧
  length (frame_chunks frame_bytes) = Z.to_nat total ∧
  Forall (λ c, Z.of_nat (length c) ≤ 8192) (frame_chunks frame_bytes) ∧
  (∀ sender frame_id,
     frame_packets sender frame_id frame_bytes
     = zip_with (λ i c, header sender frame_id i total ++ c)
         (seqZ 0 total) (frame_chunks frame_bytes)) ∧
  concat (frame_chunks frame_bytes) = frame_bytes ∧
  (∀ (frame : Type) (imdecode : bytes → option frame)
     (int : bytes → option Z) (utf8_ok : bytes → bool)
     (username : string) (has_callback : bool)
     (sender : string) (frame_id now : Z) (st : state),
     (∀ n, 0 ≤ n → int (str n) = Some n) →
     utf8_ok (String.list_byte_of_string sender) = true →
     BAR ∉ String.list_byte_of_string sender →
     sender ≠ username →
     0 ≤ frame_id →
     _incoming_frames st !! (sender, frame_id) = None →
     let r := receive_chunks frame imdecode int utf8_ok username has_callback
                (frame_packets sender frame_id frame_bytes) now st in
     r.2 = option_list (delivered frame imdecode has_callback sender
                          frame_bytes) ∧
     _incoming_frames r.1 = _incoming_frames st) ∧
  (∀ (frame : Type) (imdecode : bytes → option frame)
     (int : bytes → option Z) (utf8_ok : bytes → bool)
     (username : string) (has_callback : bool)
     (packet : bytes) (now : Z) (st : state) (sender : string) (f : frame),
     (_handle_frame_chunk frame imdecode int utf8_ok username has_callback
        packet now st).2 = Some (sender, f) →
     ∃ frame_id chunk_index total_chunks payload chunks,
       let buffer :=
         <[chunk_index := payload]>
           (default ∅ (_incoming_frames st !! (sender, frame_id))) in
       parse_chunk int utf8_ok packet
         = Some (sender, frame_id, chunk_index, total_chunks, payload) ∧
       (∀ i, 0 ≤ i < total_chunks → is_Some (buffer !! i)) ∧
       ordered_chunks buffer total_chunks = Some chunks ∧
       imdecode (concat chunks) = Some f).
Proof.
  cbv zeta.
  pose proof (total_chunks_of_pos frame_bytes) as Hpos.
  split; [done|]. split; [apply frame_chunks_length|].
  split; [apply frame_chunks_bounded|].
  split.
  { intros sender frame_id. unfold frame_packets, frame_chunks.
    generalize (seqZ 0 (total_chunks_of frame_bytes)). intros l.
    induction l as [|i l IH]; [done|]. simpl. f_equal. exact IH. }
  split; [apply frame_chunks_concat|].
  split; [|intros; by eapply handle_delivers_complete].
  intros frame imdecode int utf8_ok username has_callback sender frame_id
    now st Hint Hutf Hbar Hother Hfid Hfresh.
  pose proof (receive_remaining frame imdecode int utf8_ok username
                has_callback sender frame_id (total_chunks_of frame_bytes)
                (chunk_of frame_bytes)
Hint Hutf Hbar Hother Hfid
(Z.to_nat (total_chunks_of frame_bytes) - 1) 0 now st)
as Hrec.
replace (Z.of_nat (S (Z.to_nat (total_chunks_of frame_bytes) - 1)))
with (total_chunks_of frame_bytes) in Hrec by lia.
change (Z.of_nat 0) with 0 in Hrec.
change (map (chunk_of frame_bytes) (seqZ 0 (total_chunks_of frame_bytes)))
with (frame_chunks frame_bytes) in Hrec.
rewrite frame_chunks_concat in Hrec.
change (map (VideoClient.packet sender frame_id
 (total_chunks_of frame_bytes) (chunk_of frame_bytes))
(seqZ 0 (total_chunks_of frame_bytes)))
with (frame_packets sender frame_id frame_bytes) in Hrec.
rewrite Hrec; [| lia | by rewrite Hfresh].
simpl. split; [done | by apply delete_id].
Qed.

Lemma frame_chunking_roundtrip_witness :
  (receive_chunks bytes Some int_decimal (λ _, true) "me" true
     (frame_packets "bob" 7 [x01; x02; x03]) 0
     {| _incoming_frames := ∅; _frame_meta := ∅ |}).2
  = [("bob"%string, [x01; x02; x03])].
Proof.
  refine (proj1 (proj1 (proj2 (proj2 (proj2 (proj2 (proj2
    (frame_chunking_roundtrip [x01; x02; x03]))))))
    bytes Some int_decimal (λ _, true) "me"%string true "bob"%string 7 0
    {| _incoming_frames := ∅; _frame_meta := ∅ |} _ _ _ _ _ _)).
  - intros n _. apply int_decimal_str.
  - reflexivity.
  - apply (bool_decide_unpack _). vm_compute. exact I.
  - discriminate.
  - lia.
  - reflexivity.
Defined.

Lemma cleanup_fold_lookup (keys : list (string * Z)) (st : state)
    (key : string * Z) :
  let st' :=
    fold_left
      (λ st key, {| _incoming_frames := delete key (_incoming_frames st);
                    _frame_meta := delete key (_frame_meta st) |})
      keys st in
  _incoming_frames st' !! key
    = (if decide (key ∈ keys) then None else _incoming_frames st !! key) ∧
  _frame_meta st' !! key
    = (if decide (key ∈ keys) then None else _frame_meta st !! key).
Proof.
  revert st. induction keys as [|a keys IH]; intros st; cbn [fold_left].
  - rewrite !decide_False by apply not_elem_of_nil. done.
  - destruct (IH {| _incoming_frames := delete a (_incoming_frames st);
                    _frame_meta := delete a (_frame_meta st) |})
      as [Hi Hm].
    rewrite Hi, Hm. cbn [_incoming_frames _frame_meta].
    destruct (decide (key ∈ keys)) as [Hin|Hnin].
    + rewrite !decide_True by (by right). done.
    + destruct (decide (key = a)) as [->|Hne].
      * rewrite !decide_True by left. by rewrite !lookup_delete_eq.
      * rewrite !decide_False by (by intros [?|?]%elem_of_cons).
        by rewrite !lookup_delete_ne.
Qed.

Lemma stale_keys_spec (now : Z) (st : state) (key : string * Z) :
  key ∈ stale_keys now st
  ↔ ∃ total created, _frame_meta st !! key = Some (total, created)
                     ∧ now - created > FRAME_EXPIRY_SECONDS.
Proof.
  unfold stale_keys. rewrite list_elem_of_fmap. split.
  - intros [[k [total created]] [-> Hin]].
    apply elem_of_map_to_list, map_lookup_filter_Some in Hin as [Hl HP].
    by exists total, created.
  - intros (total & created & Hl & HP).
    exists (key, (total, created)). split; [done|].
    by apply elem_of_map_to_list, map_lookup_filter_Some.
Qed.

(** C6 (as amended).  When [recvfrom] times out at clock reading [now], the
    sweep drops every frame whose record in [_frame_meta] is more than one
    second old, from the assembly map and from the records, and keeps every
    other frame as it is.  The sweep runs on those time-outs only, and the
    time recorded for a frame is that of its latest stored chunk. *)
Theorem stale_frames_dropped_on_timeout (frame : Type)
    (imdecode : bytes → option frame) (int : bytes → option Z)
    (utf8_ok : bytes → bool) (username : string) (has_callback : bool)
    (now : Z) (st : state) (key : string * Z) (total created : Z)
    (rest : list (Z * received)) :
  _frame_meta st !! key = Some (total, created) →
  let st' := _cleanup_stale_frames now st in
  _receive_video frame imdecode int utf8_ok username has_callback
    ((now, SocketTimeout) :: rest) st
  = _receive_video frame imdecode int utf8_ok username has_callback rest st' ∧
  (now - created > FRAME_EXPIRY_SECONDS →
   _incoming_frames st' !! key = None ∧ _frame_meta st' !! key = None) ∧
  (now - created ≤ FRAME_EXPIRY_SECONDS →
   _incoming_frames st' !! key = _incoming_frames st !! key ∧
   _frame_meta st' !! key = Some (total, created)) ∧
  (∀ packet chunk_index total_chunks payload,
     parse_chunk int utf8_ok packet
       = Some (key.1, key.2, chunk_index, total_chunks, payload) →
     key.1 ≠ username →
     let st1 := (_handle_frame_chunk frame imdecode int utf8_ok username
                   has_callback packet now st).1 in
     (_frame_meta st1 !! key = Some (total_chunks, now) ∧
      is_Some (_incoming_frames st1 !! key)) ∨
     (_frame_meta st1 !! key = None ∧ _incoming_frames st1 !! key = None)).
Proof.
  intros Hmeta st'. split; [done|].
  destruct (cleanup_fold_lookup (stale_keys now st) st key) as [Hi Hm].
  fold (_cleanup_stale_frames now st) in Hi, Hm. fold st' in Hi, Hm.
  split; [|split].
  - intros Hold. rewrite Hi, Hm.
    assert (Hin : key ∈ stale_keys now st)
      by (apply stale_keys_spec; by exists total, created).
    by rewrite !decide_True.
  - intros Hyoung. rewrite Hi, Hm.
    assert (Hnin : key ∉ stale_keys now st).
    { intros (t & c & Hl & HP)%stale_keys_spec.
      rewrite Hmeta in Hl. injection Hl as <- <-. lia. }
    by rewrite !decide_False.
  - intros packet chunk_index total_chunks payload Hparse Hother.
    destruct key as [sender frame_id].
    by eapply handle_refreshes_created.
Qed.

Lemma stale_frames_dropped_on_timeout_witness :
  let st := {| _incoming_frames := <[("bob"%string, 7) := {[0 := [x01]]}]> ∅;
               _frame_meta := <[("bob"%string, 7) := (2, 0)]> ∅ |} in
  _incoming_frames (_cleanup_stale_frames 1001 st) !! ("bob"%string, 7) = None.
Proof.
  intros st.
  refine (proj1 (proj1 (proj2
    (stale_frames_dropped_on_timeout bytes Some int_decimal (λ _, true)
       "me" true 1001 st ("bob"%string, 7) 2 0 [] _)) _)).
  - reflexivity.
  - reflexivity.
Defined.

(** C6 as stated fails.  The first of two chunks of bob's frame 7 arrives at
    0 ms and a registration datagram at 600 ms.  No [recvfrom] has waited a
    full second, so no sweep has run: at 1100 ms the loop is still in the
    [recvfrom] entered at 600 ms and the incomplete buffer is in the
    assembly map. *)
Lemma stale_frame_kept_under_traffic :
  let first := VideoClient.packet "bob" 7 2 (λ _, [x01]) 0 in
  let register := REGISTER_HEADER ++ BAR :: String.list_byte_of_string "bob" in
  let r := _receive_video bytes Some int_decimal (λ _, true) "me" true
             [(0, Datagram first); (600, Datagram register)]
             {| _incoming_frames := ∅; _frame_meta := ∅ |} in
  _incoming_frames r.1 !! ("bob"%string, 7) = Some {[0 := [x01]]} ∧
  _frame_meta r.1 !! ("bob"%string, 7) = Some (2, 0) ∧
  r.2 = [].
Proof. vm_compute. repeat split. Qed.
End VideoClaims.

(** ** Orchestrator *)

Section OrchestratorFacts.
Import MainServer.
Implicit Types (s : state) (tr : list event) (live : list string).
Implicit Types (ms : list (string * server_module)).

Lemma start_calls_app tr tr' :
  start_calls (tr ++ tr') = start_calls tr ++ start_calls tr'.
Proof. apply omap_app. Qed.

Lemma stop_calls_app tr tr' :
  stop_calls (tr ++ tr') = stop_calls tr ++ stop_calls tr'.
Proof. apply omap_app. Qed.

Lemma left_running_app tr tr' live :
  left_running (tr ++ tr') live = left_running tr' (left_running tr live).
Proof.
  revert live. induction tr as [|e tr IH]; intros live; [done|].
  destruct e as [l|n st|n [| |w]|n o]; simpl; apply IH.
Qed.

Lemma first_failure ms :
  Forall start_ok ms ∨
  ∃ pre failing post,
    ms = pre ++ failing :: post ∧ Forall start_ok pre ∧ start_fails failing.
Proof.
  induction ms as [|m ms IH]; [by left|].
  destruct (decide (start m.2 = StartOk)) as [Hok|Hfail].
  - destruct IH as [Hall|(pre & f & post & -> & Hpre & Hf)].
    + left. by constructor.
    + right. exists (m :: pre), f, post. split; [done|]. split; [|done].
      by constructor.
  - right. exists [], m, ms. split; [done|]. split; [constructor | done].
Qed.

(** The starts that succeed, one after the other. *)
Lemma start_each_prefix pre rest index total started s tr :
  Forall start_ok pre →
  ∃ s1 delta,
    start_each index total (pre ++ rest) started s tr
    = start_each (index + length pre) total rest (started ++ pre) s1
        (tr ++ delta) ∧
    running s1 = running s ∧
    start_calls delta = map fst pre ∧
    stop_calls delta = [] ∧
    Forall clean delta ∧
    ∀ live, left_running delta live = rev (map fst pre) ++ live.
Proof.
  revert index started s tr.
  induction pre as [|[name m] pre IH]; intros index started s tr Hok.
  - exists s, []. rewrite !app_nil_r, Nat.add_0_r. by repeat split.
  - apply Forall_cons in Hok as [Hm Hok]. unfold start_ok in Hm. simpl in Hm.
    simpl. rewrite Hm.
    unfold _log. rewrite <- !app_assoc. simpl.
    destruct (IH (S index) (started ++ [(name, m)])
                {| module_states :=
                     dict_set name "running"
                       (dict_set name "starting" (module_states s));
                   active_modules := active_modules s;
                   running := running s |}
                (tr ++ [EvStatus name "starting";
                        EvLog (LogStarting index total name);
                        EvStart name StartOk; EvStatus name "running";
                        EvLog (LogOnline name)]) Hok)
      as (s1 & delta & Heq & Hrun & Hst & Hsp & Hcl & Hlive).
    exists s1, ([EvStatus name "starting";
                 EvLog (LogStarting index total name);
                 EvStart name StartOk; EvStatus name "running";
                 EvLog (LogOnline name)] ++ delta).
    split.
    { rewrite Heq. rewrite <- !app_assoc. simpl.
      by replace (index + S (length pre))%nat with (S index + length pre)%nat
        by lia. }
    split; [done|].
    split; [by rewrite start_calls_app, Hst|].
    split; [by rewrite stop_calls_app, Hsp|].
    split; [apply Forall_app; split; [by repeat constructor | done]|].
    intros live. rewrite left_running_app. simpl.
    rewrite Hlive. by rewrite <- app_assoc.
Qed.

Lemma start_each_failure failing post index total started s tr :
  start_fails failing →
  ∃ s1 delta,
    start_each index total (failing :: post) started s tr
    = (inr (failing.1, failure_of failing, started), s1, tr ++ delta) ∧
    running s1 = running s ∧
    start_calls delta = [failing.1] ∧
    stop_calls delta = [] ∧
    Exists (λ e, ¬ clean e) delta ∧
    ∀ live, left_running delta live = live.
Proof.
  destruct failing as [name m]. unfold start_fails, failure_of. simpl.
  intros Hfail.
  exists {| module_states := dict_set name "starting" (module_states s);
            active_modules := active_modules s; running := running s |},
         [EvStatus name "starting"; EvLog (LogStarting index total name);
          EvStart name (start m)].
  unfold _log. rewrite <- !app_assoc. simpl.
  destruct (start m) as [| |what] eqn:Hs; [done| |];
    (repeat split; [by repeat constructor]).
Qed.

(** Stopping a list: every module is stopped, in list order. *)
Lemma stop_each_calls ms s tr :
  ∃ s1 delta,
    stop_each ms s tr = (s1, tr ++ delta) ∧
    running s1 = running s ∧
    start_calls delta = [] ∧
    stop_calls delta = map fst ms ∧
    Forall clean delta ∧
    ∀ live, left_running delta (map fst ms ++ live) = live.
Proof.
  revert s tr. induction ms as [|[name m] ms IH]; intros s tr.
  - exists s, []. rewrite app_nil_r. by repeat split.
  - simpl. unfold _log.
    set (tail := match stop m with
                 | Some what => [EvLog (LogStopError name what)]
                 | None => []
                 end).
    set (here := [EvStatus name "stopping"; EvLog (LogStopping name);
                  EvStop name (stop m)] ++ tail ++ [EvStatus name "stopped"]).
    destruct (IH {| module_states :=
                      dict_set name "stopped"
                        (dict_set name "stopping" (module_states s));
                    active_modules := active_modules s;
                    running := running s |} (tr ++ here))
      as (s1 & delta & Heq & Hrun & Hst & Hsp & Hcl & Hlive).
    exists s1, (here ++ delta).
    assert (Htr : match stop m with
                  | Some what =>
                      (((tr ++ [EvStatus name "stopping"])
                          ++ [EvLog (LogStopping name)])
                         ++ [EvStop name (stop m)])
                        ++ [EvLog (LogStopError name what)]
                  | None =>
                      ((tr ++ [EvStatus name "stopping"])
                         ++ [EvLog (LogStopping name)])
                        ++ [EvStop name (stop m)]
                  end ++ [EvStatus name "stopped"] = tr ++ here).
    { subst here tail. destruct (stop m); rewrite <- !app_assoc; done. }
    rewrite Htr, Heq. rewrite app_assoc.
    split; [done|]. split; [done|].
    assert (Hhere_start : start_calls here = []).
    { subst here tail. by destruct (stop m). }
    assert (Hhere_stop : stop_calls here = [name]).
    { subst here tail. by destruct (stop m). }
    split; [by rewrite start_calls_app, Hhere_start, Hst|].
    split; [by rewrite stop_calls_app, Hhere_stop, Hsp|].
    split.
    { apply Forall_app. split; [|done]. subst here tail.
      destruct (stop m); by repeat constructor. }
    intros live. rewrite left_running_app.
    assert (Hhere_live : left_running here (name :: map fst ms ++ live)
                         = map fst ms ++ live).
    { subst here tail. destruct (stop m); simpl; by rewrite decide_True. }
    change (map fst ((name, m) :: ms) ++ live)
      with (name :: map fst ms ++ live).
    rewrite Hhere_live. apply Hlive.
Qed.
End OrchestratorFacts.

Section OrchestratorClaims.
Import MainServer.

(** The run of [start_modules] when the first failing start is that of
    [failing]. *)
Lemma start_modules_failure (pre : list (string * server_module))
    (failing : string * server_module) (post : list (string * server_module))
    (s : state) :
  running s = false →
  Forall start_ok pre → start_fails failing →
  ∃ s' tr,
    start_modules (pre ++ failing :: post) s []
    = (Raised (failure_of failing), set_active [] false s', tr) ∧
    start_calls tr = map fst pre ++ [failing.1] ∧
    stop_calls tr = rev (map fst pre) ∧
    left_running tr [] = [].
Proof.
  intros Hrun Hpre Hf. unfold start_modules. rewrite Hrun.
  destruct (start_each_prefix pre (failing :: post) 1
              (length (pre ++ failing :: post)) []
              s (_log LogBanner []) Hpre)
    as (s1 & d1 & Heq1 & Hrun1 & Hst1 & Hsp1 & _ & Hlive1).
  change ([] ++ pre) with pre in Heq1.
  destruct (start_each_failure failing post (1 + length pre)
              (length (pre ++ failing :: post)) pre s1
              (_log LogBanner [] ++ d1) Hf)
    as (s2 & d2 & Heq2 & Hrun2 & Hst2 & Hsp2 & _ & Hlive2).
  rewrite Heq1, Heq2. clear Heq1 Heq2.
  unfold _update_status, _log.
  destruct pre as [|p pre'].
  - eexists _, _. split; [reflexivity|].
    rewrite !start_calls_app, !stop_calls_app, !left_running_app.
    rewrite Hst1, Hst2, Hsp1, Hsp2, Hlive1, Hlive2. done.
  - unfold _stop_modules_list.
    match goal with
    | |- context [stop_each ?l ?s0 ?t] =>
        destruct (stop_each_calls l s0 t)
          as (s4 & d4 & Heq4 & Hrun4 & Hst4 & Hsp4 & _ & Hlive4);
        rewrite Heq4
    end.
    eexists _, _. split; [reflexivity|].
    rewrite !start_calls_app, !stop_calls_app, !left_running_app.
    rewrite Hst1, Hst2, Hsp1, Hsp2, Hst4, Hsp4, Hlive1, Hlive2.
    rewrite map_rev. cbn [start_calls stop_calls omap left_running app].
    rewrite !app_nil_r. split; [done|]. split; [done|].
    specialize (Hlive4 []). by rewrite app_nil_r, map_rev in Hlive4.
Qed.

(** C8.  In a run of [start_modules] in which the start of some component
    fails, by raising or by returning [False]: the components before the
    failing one were started in list order and no other start was
    attempted, every one of them is then stopped and the stops are in
    reverse start order, the orchestrator ends not running with no active
    module, the failure is raised to the caller, and no component is left
    running. *)
Theorem startup_failure_rolls_back
    (modules : list (string * server_module)) (s : state) :
  Exists (λ e, ¬ clean e) (start_modules modules s []).2 →
  ∃ pre failing post,
    modules = pre ++ failing :: post ∧
    Forall start_ok pre ∧ start_fails failing ∧
    let r := start_modules modules s [] in
    r.1.1 = Raised (failure_of failing) ∧
    running r.1.2 = false ∧
    active_modules r.1.2 = [] ∧
    start_calls r.2 = map fst pre ++ [failing.1] ∧
    stop_calls r.2 = rev (map fst pre) ∧
    left_running r.2 [] = [].
Proof.
  unfold start_modules. destruct (running s) eqn:Hrun.
  { simpl. intros H. apply Exists_cons in H as [H|H]; [by destruct H|].
    by apply Exists_nil in H. }
  destruct (first_failure modules) as [Hall|(pre & f & post & -> & Hpre & Hf)].
  { destruct (start_each_prefix modules [] 1 (length modules) [] s
                (_log LogBanner []) Hall)
      as (s1 & delta & Heq & _ & _ & _ & Hcl & _).
    rewrite app_nil_r in Heq. rewrite Heq. simpl.
    intros H. exfalso. apply Exists_exists in H as (e & Hin & Hne).
    apply Hne. unfold _log in Hin.
    apply elem_of_app in Hin as [Hin|Hin].
    - apply elem_of_cons in Hin as [->|Hin]; [done|].
      rewrite Forall_forall in Hcl. by apply Hcl.
    - apply list_elem_of_singleton in Hin as ->. done. }
  intros _. exists pre, f, post. split; [done|]. split; [done|]. split; [done|].
  cbv zeta.
  destruct (start_modules_failure pre f post s Hrun Hpre Hf)
    as (s' & tr & Heq & Hst & Hsp & Hlive).
  unfold start_modules in Heq. rewrite Hrun in Heq. rewrite Heq. done.
Qed.

Lemma startup_failure_rolls_back_witness :
  let up := {| start := StartOk; stop := None |} in
  let down := {| start := StartFalse; stop := None |} in
  let modules := [("Chat Service"%string, up);
                  ("File Transfer Service"%string, up);
                  ("Video Service"%string, down);
                  ("Audio Service"%string, up)] in
  let s := {| module_states := []; active_modules := []; running := false |} in
  ∃ pre failing post,
    modules = pre ++ failing :: post ∧
    Forall start_ok pre ∧ start_fails failing ∧
    let r := start_modules modules s [] in
    r.1.1 = Raised (failure_of failing) ∧
    running r.1.2 = false ∧
    active_modules r.1.2 = [] ∧
    start_calls r.2 = map fst pre ++ [failing.1] ∧
    stop_calls r.2 = rev (map fst pre) ∧
    left_running r.2 [] = [].
Proof.
  intros up down modules s.
  apply (startup_failure_rolls_back modules s).
  vm_compute.
  repeat first [ apply Exists_cons_hd; discriminate | apply Exists_cons_tl ].
Defined.
End OrchestratorClaims.

(** ** Participant registry *)

Section ParticipantFacts.
Import ParticipantServer.
Variable send_ok : nat → sock → bool.
Implicit Types (s : state) (tr : list sendev) (m : message).



Lemma dict_get_del_None {K V} `{EqDecision K} (k k' : K) (d : list (K * V)) :
  dict_get k d = None → dict_get k (dict_del k' d) = None.
Proof.
  induction d as [|[k2 v2] d IH]; simpl; [done|].
  destruct (decide (k = k2)) as [->|Hne]; [done|].
  intros Hg. destruct (decide (k' = k2)); simpl; [done|].
  rewrite decide_False by done. by apply IH.
Qed.

Lemma prune_absent s cu u :
  dict_get u (participants s) = None →
  dict_get u (participants (prune s cu)) = None.
Proof.
  intros Hg. simpl. destruct (dict_mem cu.2 (participants s)); [|done].
  by apply dict_get_del_None.
Qed.

Lemma prune_all_absent dis s u :
  dict_get u (participants s) = None →
  dict_get u (participants (fold_left prune dis s)) = None.
Proof.
  revert s. induction dis as [|cu dis IH]; intros s Hg; [done|].
  simpl. apply IH. by apply prune_absent.
Qed.

Lemma broadcast_absent s tr u :
  dict_get u (participants s) = None →
  dict_get u (participants (_broadcast_participant_update send_ok s tr).1)
  = None.
Proof.
  intros Hg. unfold _broadcast_participant_update.
  destruct (send_each send_ok (clients s) _ tr) as [dis tr1]. simpl.
  by apply prune_all_absent.
Qed.

Lemma prune_own_absent s c u :
  NoDup (dict_keys (participants s)) →
  dict_get u (participants (prune s (c, u))) = None.
Proof.
  intros Hnd. simpl.
  destruct (dict_mem u (participants s)) eqn:Hmem.
  - by apply dict_get_del_eq.
  - unfold dict_mem in Hmem. by destruct (dict_get u (participants s)).
Qed.
End ParticipantFacts.

Section ParticipantClaims.
Import ParticipantServer.


End ParticipantClaims.

(** ** Video relay and audio mixer *)

Section RelayClaims.

(** C10.  In the video relay and in the audio mixer, a datagram that does not
    begin with [REGISTER|] and comes from an address that is not registered
    is ignored: the registry, the last-seen times and (for audio) the latest
    chunks are unchanged and nothing is sent; the receive loop goes on with
    the next datagram. *)
Theorem relay_ignores_unknown_source
    (video_ok audio_ok : nat → address → bool)
    (decode_ignore : bytes → string) (np_mix : list (list Z) → bytes)
    (data : bytes) (source : address) (now : Z)
    (sv : VideoServer.state) (trv : list VideoServer.sendev)
    (sa : AudioServer.state) (tra : list AudioServer.sendev)
    (rest : list (Z * datagram_event)) :
  startswith REGISTER_PREFIX data = false →
  dict_mem source (VideoServer.clients sv) = false →
  dict_mem source (AudioServer.clients sa) = false →
  VideoServer.handle_datagram video_ok decode_ignore data source now sv trv
    = (sv, trv) ∧
  VideoServer._receive_and_broadcast video_ok decode_ignore
    ((now, Datagram data source) :: rest) sv trv
    = VideoServer._receive_and_broadcast video_ok decode_ignore rest sv trv ∧
  AudioServer.handle_datagram audio_ok decode_ignore np_mix data source now
    sa tra = (sa, tra) ∧
  AudioServer._receive_and_broadcast audio_ok decode_ignore np_mix
    ((now, Datagram data source) :: rest) sa tra
    = AudioServer._receive_and_broadcast audio_ok decode_ignore np_mix
        rest sa tra.
Proof.
  intros Hreg Hv Ha.
  assert (Hvideo : VideoServer.handle_datagram video_ok decode_ignore data
                     source now sv trv = (sv, trv)).
  { unfold VideoServer.handle_datagram.
    destruct (decide (data = [])); [done|]. by rewrite Hreg, Hv. }
  assert (Haudio : AudioServer.handle_datagram audio_ok decode_ignore np_mix
                     data source now sa tra = (sa, tra)).
  { unfold AudioServer.handle_datagram.
    destruct (decide (data = [])); [done|]. by rewrite Hreg, Ha. }
  split; [done|]. split; [simpl; by rewrite Hvideo|].
  split; [done|]. simpl. by rewrite Haudio.
Qed.

Lemma relay_ignores_unknown_source_witness :
  let frame := String.list_byte_of_string "FRAME|eve|0|0|1|x" in
  let known : address := ("10.0.0.2"%string, 4000) in
  let stranger : address := ("10.0.0.9"%string, 4001) in
  let sv := {| VideoServer.clients := [(known, "bob"%string)];
               VideoServer.last_seen := [(known, 0)] |} in
  VideoServer.handle_datagram (λ _ _, true) (λ _, "eve"%string) frame
    stranger 5 sv []
  = (sv, []).
Proof.
  intros frame known stranger sv.
  refine (proj1 (relay_ignores_unknown_source (λ _ _, true) (λ _ _, true)
                   (λ _, "eve"%string) (λ _, []) frame stranger 5 sv []
                   {| AudioServer.clients := []; AudioServer.last_seen := [];
                      AudioServer.latest_chunks := [] |} [] [] _ _ _));
    reflexivity.
Defined.
End RelayClaims.

(* ================================================================== *)
(** * Further properties of the modelled code *)
(* ================================================================== *)

(** ** Dictionaries: well-formedness is kept *)

Section DictWellFormed.
Context {K V : Type} `{EqDecision K}.
Implicit Types (d : list (K * V)) (k : K) (v : V).

Lemma dict_keys_del_subseteq k d : dict_keys (dict_del k d) ⊆ dict_keys d.
Proof.
  induction d as [|[k2 v2] d IH]; simpl; [done|].
  destruct (decide (k = k2)); simpl.
  - intros x Hx. by right.
  - intros x Hx. apply elem_of_cons in Hx as [->|Hx]; [left | right; by apply IH].
Qed.

Lemma dict_del_NoDup k d : NoDup (dict_keys d) → NoDup (dict_keys (dict_del k d)).
Proof.
  induction d as [|[k2 v2] d IH]; simpl; [done|].
  intros Hnd. apply NoDup_cons in Hnd as [Hfresh Hnd].
  destruct (decide (k = k2)); simpl; [done|].
  apply NoDup_cons. split; [|by apply IH].
  intros Hin. apply Hfresh. by apply (dict_keys_del_subseteq k d).
Qed.

Lemma dict_keys_set k v d :
  dict_keys (dict_set k v d)
  = if dict_mem k d then dict_keys d else dict_keys d ++ [k].
Proof.
  unfold dict_mem. induction d as [|[k2 v2] d IH]; simpl; [done|].
  destruct (decide (k = k2)) as [->|Hne]; simpl; [done|].
  rewrite IH. by destruct (dict_get k d).
Qed.

Lemma dict_set_NoDup k v d : NoDup (dict_keys d) → NoDup (dict_keys (dict_set k v d)).
Proof.
  intros Hnd. rewrite dict_keys_set.
  destruct (dict_mem k d) eqn:Hmem; [done|].
  apply NoDup_app. split; [done|]. split.
  - intros x Hx Hx'. apply list_elem_of_singleton in Hx' as ->.
    unfold dict_mem in Hmem.
    destruct (dict_get k d) eqn:Hg; [done|]. by apply dict_get_None in Hg.
  - apply NoDup_singleton.
Qed.

Lemma dict_mem_false_del k d : dict_mem k d = false → dict_del k d = d.
Proof.
  unfold dict_mem. induction d as [|[k2 v2] d IH]; simpl; [done|].
  destruct (decide (k = k2)); [done|]. intros Hg. by rewrite IH.
Qed.

Lemma dict_get_keys k d : is_Some (dict_get k d) ↔ k ∈ dict_keys d.
Proof.
  induction d as [|[k2 v2] d IH]; simpl.
  - split; [by intros [? ?] | by intros ?%elem_of_nil].
  - destruct (decide (k = k2)) as [->|Hne].
    + split; [intros _; left | by eexists].
    + rewrite IH. split; [by right | by intros [?|?]%elem_of_cons].
Qed.
End DictWellFormed.

(** ** Screen relay: exclusion, relay, teardown *)

Section ScreenMore.
Import ScreenServer.
Variable send_ok : nat → sock → bool.
Implicit Types (s : state) (tr : list sendev) (m : message) (u p : string).


Lemma broadcast_except_presenter u m s tr :
  current_presenter (_broadcast_to_all_except send_ok u m s tr).1
  = current_presenter s.
Proof.
  unfold _broadcast_to_all_except.
  destruct (send_each send_ok _ m tr) as [dis tr1]. simpl.
  apply remove_all_presenter.
Qed.

Lemma broadcast_except_attempts u m s tr :
  attempts (_broadcast_to_all_except send_ok u m s tr).2
  = attempts tr
      ++ map (λ uc, (uc.2, m)) (filter (λ uc, uc.1 ≠ u) (clients s)).
Proof.
  unfold _broadcast_to_all_except.
  pose proof (send_each_attempts send_ok
                (filter (λ uc, uc.1 ≠ u) (clients s)) m tr) as H.
  by destruct (send_each send_ok _ m tr) as [dis tr1].
Qed.

Lemma remove_client_NoDup u s :
  NoDup (dict_keys (clients s)) →
  NoDup (dict_keys (clients (_remove_client u s))).
Proof.
  intros Hnd. simpl. destruct (dict_mem u (clients s)); [|done].
  by apply dict_del_NoDup.
Qed.

Lemma remove_all_NoDup dis s :
  NoDup (dict_keys (clients s)) →
  NoDup (dict_keys (clients (remove_all dis s))).
Proof.
  revert s. induction dis as [|u dis IH]; intros s Hnd; [done|].
  unfold remove_all in *. simpl. apply IH. by apply remove_client_NoDup.
Qed.

Lemma broadcast_NoDup m s tr :
  NoDup (dict_keys (clients s)) →
  NoDup (dict_keys (clients (_broadcast_to_all send_ok m s tr).1)).
Proof.
  intros Hnd. unfold _broadcast_to_all.
  destruct (send_each send_ok (clients s) m tr) as [dis tr1]. simpl.
  by apply remove_all_NoDup.
Qed.

Lemma broadcast_except_NoDup u m s tr :
  NoDup (dict_keys (clients s)) →
  NoDup (dict_keys (clients (_broadcast_to_all_except send_ok u m s tr).1)).
Proof.
  intros Hnd. unfold _broadcast_to_all_except.
  destruct (send_each send_ok _ m tr) as [dis tr1]. simpl.
  by apply remove_all_NoDup.
Qed.

Lemma send_to_client_NoDup u m s tr :
  NoDup (dict_keys (clients s)) →
  NoDup (dict_keys (clients (_send_to_client send_ok u m s tr).1)).
Proof.
  intros Hnd. unfold _send_to_client.
  destruct (dict_get u (clients s)); [|done].
  unfold sendall. destruct (send_ok (length tr) _); [done|].
  by apply remove_client_NoDup.
Qed.

Lemma handle_message_NoDup u r s tr s' tr' :
  NoDup (dict_keys (clients s)) →
  handle_message send_ok u r s tr = Some (s', tr') →
  NoDup (dict_keys (clients s')).
Proof.
  intros Hnd Hr. destruct r as [| |frame|ty]; simpl in Hr.
  - injection Hr as Hr. unfold _handle_start_presenting in Hr.
    destruct (current_presenter s) as [p|].
    + pose proof (send_to_client_NoDup u (presenting_allowed false (Some p))
                    s tr Hnd) as H. by rewrite Hr in H.
    + pose proof (broadcast_NoDup (presenter_started u)
                    (set_presenter (Some u) s) tr Hnd) as Hb.
      destruct (_broadcast_to_all send_ok _ _ tr) as [s2 tr2].
      pose proof (send_to_client_NoDup u (presenting_allowed true None)
                    s2 tr2 Hb) as H. by rewrite Hr in H.
  - injection Hr as Hr. unfold _handle_stop_presenting in Hr.
    destruct (decide (current_presenter s = Some u)).
    + pose proof (broadcast_NoDup (presenter_stopped u)
                    (set_presenter None s) tr Hnd) as Hb. by rewrite Hr in Hb.
    + by injection Hr as <- <-.
  - destruct (decide (current_presenter s = Some u)).
    + destruct frame as [f|]; [|done]. injection Hr as Hr.
      pose proof (broadcast_except_NoDup u (screen_frame u f) s tr Hnd) as Hb.
      by rewrite Hr in Hb.
    + by injection Hr as <- <-.
  - by injection Hr as <- <-.
Qed.

(** After the tail of the handler the client is neither registered nor
    presenter. *)
Lemma disconnect_releases u s tr :
  NoDup (dict_keys (clients s)) →
  dict_mem u (clients (disconnect send_ok u s tr).1) = false ∧
  current_presenter (disconnect send_ok u s tr).1 ≠ Some u.
Proof.
  intros Hnd. unfold disconnect, _handle_stop_presenting.
  destruct (decide (current_presenter s = Some u)) as [Hp|Hp].
  - pose proof (broadcast_NoDup (presenter_stopped u)
                  (set_presenter None s) tr Hnd) as Hb.
    pose proof (broadcast_presenter send_ok (presenter_stopped u)
                  (set_presenter None s) tr) as Hq.
    destruct (_broadcast_to_all send_ok _ _ tr) as [s2 tr2].
    simpl in Hb, Hq. simpl. split; [|by rewrite Hq].
    destruct (dict_mem u (clients s2)) eqn:Hm; [|done].
    by apply dict_mem_del.
  - simpl. split; [|done].
    destruct (dict_mem u (clients s)) eqn:Hm; [|done].
    by apply dict_mem_del.
Qed.

End ScreenMore.

Section ScreenExtras.
Import ScreenServer.


(** X2.  A [screen_frame] is relayed only when its sender is the presenter:
    it is then sent, with the sender's name, to every registered client
    under another name, in registry order, and to nobody else; from anyone
    else it changes nothing and sends nothing.  The presenter is unchanged
    in both cases. *)
Theorem screen_frame_reaches_the_others (send_ok : nat → sock → bool)
    (u : string) (f : bytes) (s : state) (tr : list sendev) :
  ∃ s' tr',
    handle_message send_ok u (screen_frame_req (Some f)) s tr = Some (s', tr') ∧
    current_presenter s' = current_presenter s ∧
    attempts tr'
    = attempts tr
        ++ (if decide (current_presenter s = Some u)
            then map (λ uc, (uc.2, screen_frame u f))
                   (filter (λ uc, uc.1 ≠ u) (clients s))
            else []) ∧
    (current_presenter s ≠ Some u → s' = s ∧ tr' = tr).
Proof.
  simpl. destruct (decide (current_presenter s = Some u)) as [Hp|Hp].
  - pose proof (broadcast_except_presenter send_ok u (screen_frame u f) s tr)
      as Hq.
    pose proof (broadcast_except_attempts send_ok u (screen_frame u f) s tr)
      as Ha.
    destruct (_broadcast_to_all_except send_ok u _ s tr) as [s' tr'].
    exists s', tr'. by repeat split.
  - exists s, tr. rewrite app_nil_r. by repeat split.
Qed.

(** The invariant at a relay where ann presents and bob disconnects. *)
Lemma presenter_registered_when_sends_succeed_witness :
  let s := {| clients := [("ann"%string, 1%nat); ("bob"%string, 2%nat)];
              client_threads := [];
              current_presenter := Some "ann"%string |} in
  presenter_registered (disconnect (λ _ _, true) "bob" s []).1 = true.
Proof.
  intros s.
  refine (proj2 (proj2 (presenter_registered_when_sends_succeed (λ _ _, true)
                          s [] "bob" _ _))).
  - reflexivity.
  - reflexivity.
Defined.

(** X4.  However a handler thread runs, when it ends its client is out of the
    registry and does not hold the presenter slot: the loop of
    [_handle_client] always finishes with the stop-presenting transition
    followed by the removal. *)
Theorem screen_handler_end_releases (send_ok : nat → sock → bool)
    (u : string) (input : list inbound) (s : state) (tr : list sendev) :
  NoDup (dict_keys (clients s)) →
  dict_mem u (clients (_handle_client send_ok u input s tr).1) = false ∧
  current_presenter (_handle_client send_ok u input s tr).1 ≠ Some u.
Proof.
  revert s tr. induction input as [|i input IH]; intros s tr Hnd.
  - by apply disconnect_releases.
  - destruct i as [r|]; simpl; [|by apply disconnect_releases].
    destruct (handle_message send_ok u r s tr) as [[s1 tr1]|] eqn:Hr.
    + apply IH. by eapply handle_message_NoDup.
    + by apply disconnect_releases.
Qed.

Lemma screen_handler_end_releases_witness :
  let s := {| clients := [("ann"%string, 1%nat); ("bob"%string, 2%nat)];
              client_threads := [];
              current_presenter := None |} in
  dict_mem "ann"%string
    (clients (_handle_client (λ _ _, true) "ann" [Msg start_presenting] s []).1)
  = false.
Proof.
  intros s.
  refine (proj1 (screen_handler_end_releases (λ _ _, true) "ann"
                   [Msg start_presenting] s [] _)).
  apply (bool_decide_unpack _). vm_compute. exact I.
Defined.

(** X5.  A client that connects while somebody presents is sent exactly one
    message, [presenter_started] with the presenter's name; it is sent
    nothing when nobody presents, and nothing when the presenter's name is
    empty.  The presenter is unchanged, and when the notice (if any) is
    delivered the new client is registered under its socket. *)
Theorem screen_late_joiner_notice (send_ok : nat → sock → bool)
    (u : string) (c : sock) (s : state) (tr : list sendev) :
  let r := _accept_client send_ok u c s tr in
  attempts r.2
  = attempts tr
      ++ match current_presenter s with
         | Some p => if decide (p = "")%string then []
                     else [(c, presenter_started p)]
         | None => []
         end ∧
  current_presenter r.1 = current_presenter s ∧
  dict_get u (client_threads r.1) = Some c ∧
  (send_ok (length tr) c = true → dict_get u (clients r.1) = Some c).
Proof.
  cbv zeta. unfold _accept_client. cbn [current_presenter].
  destruct (current_presenter s) as [p|] eqn:Hp.
  - destruct (decide (p = "")%string).
    + simpl. rewrite app_nil_r, !dict_get_set_eq. by repeat split.
    + unfold _send_to_client. cbn [clients]. rewrite dict_get_set_eq.
      unfold sendall. destruct (send_ok (length tr) c) eqn:Hok; simpl.
      * unfold attempts. rewrite map_app, !dict_get_set_eq. by repeat split.
      * unfold attempts. rewrite map_app. simpl.
        destruct (dict_mem u (client_threads s));
          rewrite dict_get_set_eq; by repeat split.
  - simpl. rewrite app_nil_r, !dict_get_set_eq. by repeat split.
Qed.
End ScreenExtras.

(** ** File catalogue: transfers *)

Section FileTransfers.
Import FileServer.
Implicit Types (input rest : stream) (content chunk : bytes).

Lemma recv_length n input chunk input' :
  recv n input = (Some chunk, input') → (length chunk ≤ Z.to_nat n)%nat.
Proof.
  unfold recv. destruct input as [|[[|b bs]|] rest']; intros [= <- <-];
    simpl; try lia.
  rewrite length_take. lia.
Qed.

(** The receive loop never takes more than the declared size, and its count
    is the number of bytes written. *)
Lemma receive_file_bounds fuel fs count content input :
  count ≤ fs →
  Z.of_nat (length content) = count →
  ∃ res content' input',
    receive_file fuel fs count content input = (res, content', input') ∧
    Z.of_nat (length content') ≤ fs ∧
    content `prefix_of` content' ∧
    ∀ c, res = LoopDone c → c = Z.of_nat (length content').
Proof.
  revert count content input.
  induction fuel as [|fuel IH]; intros count content input Hle Hlen; simpl.
  - eexists _, _, _. split; [done|]. split; [lia|]. split; [done|].
    intros c [= <-]. done.
  - destruct (decide (count < fs)) as [Hlt|Hge].
    + destruct (recv _ input) as [[[|b chunk]|] input'] eqn:Hrecv.
      * eexists _, _, _. split; [done|]. split; [lia|]. split; [done|].
        intros c [= <-]. done.
      * apply recv_length in Hrecv.
        destruct (IH (count + Z.of_nat (length (b :: chunk)))
                    (content ++ b :: chunk) input')
          as (res & content' & input'' & Heq & Hb & Hpre & Hc).
        { lia. }
        { rewrite length_app. lia. }
        exists res, content', input''. split; [done|]. split; [done|].
        split; [|done].
        etrans; [|exact Hpre]. by apply prefix_app_r.
      * eexists _, _, _. split; [done|]. split; [lia|]. by split.
    + eexists _, _, _. split; [done|]. split; [lia|]. split; [done|].
      intros c [= <-]. done.
Qed.


Lemma file_chunks_spec fuel content :
  (length content ≤ fuel)%nat →
  concat (file_chunks fuel content) = content ∧
  Forall (λ chunk, chunk ≠ [] ∧ Z.of_nat (length chunk) ≤ CHUNK_SIZE)
    (file_chunks fuel content).
Proof.
  revert content. induction fuel as [|fuel IH]; intros content Hlen.
  - destruct content; [done | simpl in Hlen; lia].
  - destruct content as [|b content]; [done|].
    change (file_chunks (S fuel) (b :: content))
      with (take (Z.to_nat CHUNK_SIZE) (b :: content)
              :: file_chunks fuel (drop (Z.to_nat CHUNK_SIZE) (b :: content))).
    destruct (IH (drop (Z.to_nat CHUNK_SIZE) (b :: content))) as [Hcat Hall].
    { rewrite length_drop. unfold CHUNK_SIZE. simpl in *. lia. }
    split.
    + change (concat (?x :: ?l)) with (x ++ concat l).
      by rewrite Hcat, take_drop.
    + apply Forall_cons. split; [|done]. split.
      * intros Hnil. apply (f_equal length) in Hnil.
        rewrite length_take in Hnil. unfold CHUNK_SIZE in Hnil.
        simpl in Hnil. lia.
      * rewrite length_take. unfold CHUNK_SIZE. lia.
Qed.

Lemma send_chunks_all (send_ok : nat → sock → bool) c chunks
    (tr : list sendev) :
  (∀ n, send_ok n c = true) →
  send_chunks send_ok c chunks tr
  = tr ++ map (λ chunk, (c, raw chunk, true)) chunks.
Proof.
  intros Hok. revert tr. induction chunks as [|chunk chunks IH]; intros tr.
  - by rewrite app_nil_r.
  - simpl. rewrite Hok, IH. by rewrite <- app_assoc.
Qed.

(** What a download of a stored file puts on the wire when the sends succeed
    and the client's ready token arrives. *)
Lemma handle_download_found (send_ok : nat → sock → bool) c fn content
    (s : state) input (tr : list sendev) :
  disk s !! fn = Some content →
  (∀ n, send_ok n c = true) →
  (recv 1024 input).1 ≠ None →
  (_handle_download send_ok c
     {| command := Some "DOWNLOAD"%string; filename := Some fn;
        filesize := None; username := None |} s input tr).2
  = tr ++ (c, status_ready_size (Z.of_nat (length content)), true)
         :: map (λ chunk, (c, raw chunk, true))
              (file_chunks (length content) content).
Proof.
  intros Hfile Hok Hrecv. unfold _handle_download. cbn [filename].
  unfold bytes in *. rewrite Hfile. unfold send at 1. rewrite Hok. cbn [negb].
  destruct (recv 1024 input) as [[token|] input1]; [|done]. cbn [snd].
  rewrite send_chunks_all by done. by rewrite <- app_assoc.
Qed.
End FileTransfers.

Section FileRegistry.
Import FileServer.
Variable send_ok : nat → sock → bool.
Implicit Types (s : state) (tr : list sendev) (l : list sock) (c : sock).

Lemma list_remove_subseteq c l : list_remove c l ⊆ l.
Proof.
  induction l as [|c' l IH]; simpl; [done|].
  destruct (decide (c = c')).
  - intros x Hx. by right.
  - intros x Hx. apply elem_of_cons in Hx as [->|Hx]; [left | right; by apply IH].
Qed.

Lemma list_remove_other c x l : x ∈ l → x ≠ c → x ∈ list_remove c l.
Proof.
  induction l as [|c' l IH]; simpl; [done|].
  intros Hin Hne. destruct (decide (c = c')) as [->|Hc].
  - apply elem_of_cons in Hin as [->|Hin]; [done | exact Hin].
  - apply elem_of_cons in Hin as [->|Hin]; [left | right; by apply IH].
Qed.

Lemma list_remove_NoDup c l : NoDup l → NoDup (list_remove c l).
Proof.
  induction l as [|c' l IH]; simpl; [done|].
  intros Hnd. apply NoDup_cons in Hnd as [Hfresh Hnd].
  destruct (decide (c = c')); [done|].
  apply NoDup_cons. split; [|by apply IH].
  intros Hin. apply Hfresh. by apply (list_remove_subseteq c l).
Qed.

Lemma list_remove_gone c l : NoDup l → c ∉ list_remove c l.
Proof.
  induction l as [|c' l IH]; simpl; [intros _; apply not_elem_of_nil|].
  intros Hnd. apply NoDup_cons in Hnd as [Hfresh Hnd].
  destruct (decide (c = c')) as [->|Hne]; [done|].
  apply not_elem_of_cons. split; [done | by apply IH].
Qed.

Lemma remove_each_subseteq dis l :
  fold_left (λ l c, list_remove c l) dis l ⊆ l.
Proof.
  revert l. induction dis as [|c dis IH]; intros l; simpl; [done|].
  etrans; [apply IH | apply list_remove_subseteq].
Qed.

Lemma remove_each_other dis l x :
  x ∈ l → x ∉ dis → x ∈ fold_left (λ l c, list_remove c l) dis l.
Proof.
  revert l. induction dis as [|c dis IH]; intros l Hin Hnin; simpl; [done|].
  apply not_elem_of_cons in Hnin as [Hne Hnin].
  apply IH; [|done]. by apply list_remove_other.
Qed.

Lemma remove_each_NoDup dis l :
  NoDup l → NoDup (fold_left (λ l c, list_remove c l) dis l).
Proof.
  revert l. induction dis as [|c dis IH]; intros l Hnd; simpl; [done|].
  apply IH. by apply list_remove_NoDup.
Qed.

Lemma file_send_each_attempts targets r tr :
  map fst (send_each send_ok targets r tr).2
  = map fst tr ++ map (λ c, (c, r)) targets.
Proof.
  revert tr. induction targets as [|c rest IH]; intros tr; simpl.
  - by rewrite app_nil_r.
  - specialize (IH (tr ++ [(c, r, send_ok (length tr) c)])).
    destruct (send_each send_ok rest r _) as [dis tr2]; simpl in *.
    rewrite IH, map_app. simpl. by rewrite <- app_assoc.
Qed.

Lemma file_send_each_failed targets r tr c :
  c ∈ (send_each send_ok targets r tr).1 → ∃ n, send_ok n c = false.
Proof.
  revert tr. induction targets as [|c' rest IH]; intros tr; simpl.
  - intros Hin. inversion Hin.
  - specialize (IH (tr ++ [(c', r, send_ok (length tr) c')])).
    destruct (send_each send_ok rest r _) as [dis tr2]; simpl in *.
    destruct (send_ok (length tr) c') eqn:Hok; simpl; [exact IH|].
    intros Hin. apply elem_of_cons in Hin as [->|Hin]; [by eexists | by apply IH].
Qed.

Lemma broadcast_file_list_NoDup s tr :
  NoDup (clients s) → NoDup (clients (_broadcast_file_list send_ok s tr).1).
Proof.
  intros Hnd. unfold _broadcast_file_list.
  destruct (send_each send_ok (clients s) _ tr) as [dis tr1]. simpl.
  by apply remove_each_NoDup.
Qed.

Lemma handle_upload_NoDup os_error c req s input tr :
  NoDup (clients s) →
  NoDup (clients (_handle_upload send_ok os_error c req s input tr).1.1).
Proof.
  intros Hnd. unfold _handle_upload.
  destruct (filename req) as [fn|]; [|done].
  destruct (filesize req) as [fs|]; [|done].
  destruct (username req) as [un|]; [|done].
  destruct (decide (fs > MAX_FILE_SIZE)).
  { destruct (send send_ok c _ tr) as [ok tr1]. by destruct ok. }
  destruct (send send_ok c status_ready tr) as [ok tr1].
  destruct ok; cbn [negb]; [|done].
  destruct (receive_file _ fs 0 [] input) as [[res content] input1].
  destruct res as [count|]; [|done].
  destruct (send send_ok c (status_success _) tr1) as [ok2 tr2].
  destruct ok2; cbn [negb]; [|done].
  match goal with
  | |- context [_broadcast_file_list send_ok ?s0 tr2] =>
      pose proof (broadcast_file_list_NoDup s0 tr2 Hnd) as Hb;
      destruct (_broadcast_file_list send_ok s0 tr2) as [s3 tr3]
  end.
  done.
Qed.
End FileRegistry.

Section FileExtras.
Import FileServer.

(** X6.  The receive loop of an upload never takes more than the declared
    number of bytes off the connection: what it has written is at most
    [filesize] long, whatever the peer sends, and when the loop ends without
    an exception its counter is the number of bytes written. *)
Theorem upload_loop_within_declared_size (fuel : nat) (filesize : Z)
    (input : stream) :
  0 ≤ filesize →
  let r := receive_file fuel filesize 0 [] input in
  Z.of_nat (length r.1.2) ≤ filesize ∧
  (∀ count, r.1.1 = LoopDone count → count = Z.of_nat (length r.1.2)).
Proof.
  intros Hfs. cbv zeta.
  destruct (receive_file_bounds fuel filesize 0 [] input Hfs eq_refl)
    as (res & content & input' & Heq & Hb & _ & Hc).
  rewrite Heq. by split.
Qed.

Lemma upload_loop_within_declared_size_witness :
  Z.of_nat (length (receive_file 5 2 0 []
                      [Some [x01; x02; x03; x04]]).1.2) ≤ 2.
Proof.
  refine (proj1 (upload_loop_within_declared_size 5 2
                   [Some [x01; x02; x03; x04]] _)).
  lia.
Defined.



(** X8.  A download of a stored file sends the file verbatim: after the
    [ready] reply, which announces the size on disk, and the client's ready
    token, the chunks handed to [send] are non-empty, at most [CHUNK_SIZE]
    long, and concatenate to the stored content. *)
Theorem download_sends_file_verbatim (send_ok : nat → sock → bool)
    (c : sock) (fn : string) (content : bytes)
    (s : state) (input : stream) (tr : list sendev) :
  disk s !! fn = Some content →
  (∀ n, send_ok n c = true) →
  (recv 1024 input).1 ≠ None →
  ∃ chunks,
    (_handle_download send_ok c
       {| command := Some "DOWNLOAD"%string; filename := Some fn;
          filesize := None; username := None |} s input tr).2
    = tr ++ (c, status_ready_size (Z.of_nat (length content)), true)
           :: map (λ chunk, (c, raw chunk, true)) chunks ∧
    concat chunks = content ∧
    Forall (λ chunk, chunk ≠ [] ∧ Z.of_nat (length chunk) ≤ CHUNK_SIZE) chunks.
Proof.
  intros Hfile Hok Hrecv.
  exists (file_chunks (length content) content).
  split; [by apply handle_download_found|].
  by apply file_chunks_spec.
Qed.

Lemma download_sends_file_verbatim_witness :
  ∃ chunks,
    (_handle_download (λ _ _, true) 7%nat
       {| command := Some "DOWNLOAD"%string; filename := Some "a.bin"%string;
          filesize := None; username := None |}
       {| clients := [7%nat]; available_files := ∅;
          disk := <["a.bin"%string := [x01; x02; x03]]> ∅ |}
       [Some [x52]] []).2
    = [] ++ (7%nat, status_ready_size (Z.of_nat (length [x01; x02; x03])), true)
           :: map (λ chunk, (7%nat, raw chunk, true)) chunks ∧
    concat chunks = [x01; x02; x03] ∧
    Forall (λ chunk, chunk ≠ [] ∧ Z.of_nat (length chunk) ≤ CHUNK_SIZE) chunks.
Proof.
  apply (download_sends_file_verbatim (λ _ _, true) 7%nat "a.bin"
           [x01; x02; x03]).
  - reflexivity.
  - reflexivity.
  - discriminate.
Defined.


End FileExtras.

Section FileStartup.
Import FileServer.

Lemma load_existing_files_lookup (storage : gmap string entry) fn info :
  _load_existing_files storage !! fn = Some info →
  ∃ content, storage !! fn = Some (RegularFile content) ∧
             info = {| size := Z.of_nat (length content);
                       uploader := "Server" |}.
Proof.
  unfold _load_existing_files. rewrite lookup_omap.
  destruct (storage !! fn) as [[content|]|]; simpl; [|done..].
  intros [= <-]. by exists content.
Qed.

Lemma files_of_lookup (storage : gmap string entry) fn content :
  storage !! fn = Some (RegularFile content) →
  files_of storage !! fn = Some content.
Proof. intros H. unfold files_of. by rewrite lookup_omap, H. Qed.

(** X10.  Every file the server lists after start-up can be downloaded as
    listed: a name in the catalogue built by [_load_existing_files] has the
    uploader ['Server'], and a download of it announces exactly the listed
    size and then sends that many bytes. *)
Theorem startup_listed_file_is_served (send_ok : nat → sock → bool)
    (c : sock) (storage : gmap string entry) (fn : string) (info : fileinfo)
    (input : stream) (tr : list sendev) :
  available_files (__init__ storage) !! fn = Some info →
  (∀ n, send_ok n c = true) →
  (recv 1024 input).1 ≠ None →
  uploader info = "Server"%string ∧
  ∃ chunks,
    (_handle_download send_ok c
       {| command := Some "DOWNLOAD"%string; filename := Some fn;
          filesize := None; username := None |}
       (__init__ storage) input tr).2
    = tr ++ (c, status_ready_size (size info), true)
           :: map (λ chunk, (c, raw chunk, true)) chunks ∧
    Z.of_nat (length (concat chunks)) = size info.
Proof.
  intros Hlisted Hok Hrecv.
  apply load_existing_files_lookup in Hlisted as (content & Hst & ->).
  split; [done|]. cbn [size].
  exists (file_chunks (length content) content).
  split.
  - apply handle_download_found; [|done..].
    by apply files_of_lookup.
  - by rewrite (proj1 (file_chunks_spec (length content) content (le_n _))).
Qed.

Lemma startup_listed_file_is_served_witness :
  let storage : gmap string entry :=
    <["a.bin"%string := RegularFile [x01; x02; x03]]>
      (<["sub"%string := Directory]> ∅) in
  uploader {| size := 3; uploader := "Server" |} = "Server"%string ∧
  ∃ chunks,
    (_handle_download (λ _ _, true) 7%nat
       {| command := Some "DOWNLOAD"%string; filename := Some "a.bin"%string;
          filesize := None; username := None |}
       (__init__ storage) [Some [x52]] []).2
    = [] ++ (7%nat, status_ready_size
                      (size {| size := 3; uploader := "Server" |}), true)
           :: map (λ chunk, (7%nat, raw chunk, true)) chunks ∧
    Z.of_nat (length (concat chunks))
    = size {| size := 3; uploader := "Server" |}.
Proof.
  intros storage.
  apply (startup_listed_file_is_served (λ _ _, true) 7%nat storage "a.bin"
           {| size := 3; uploader := "Server" |} [Some [x52]] []).
  - vm_compute. reflexivity.
  - reflexivity.
  - discriminate.
Defined.

(** X11.  [_broadcast_file_list] offers the whole catalogue once to every
    connected client, in order; it changes neither the catalogue nor the
    stored files, adds no client, and drops a client only if a send to it
    failed. *)
Theorem broadcast_file_list_prunes_only_failed
    (send_ok : nat → sock → bool) (s : state) (tr : list sendev) :
  let r := _broadcast_file_list send_ok s tr in
  map fst r.2
  = map fst tr
    ++ map (λ c, (c, file_list_update (available_files s))) (clients s) ∧
  available_files r.1 = available_files s ∧
  disk r.1 = disk s ∧
  (∀ c, c ∈ clients r.1 → c ∈ clients s) ∧
  (∀ c, c ∈ clients s → c ∉ clients r.1 → ∃ n, send_ok n c = false).
Proof.
  cbv zeta. unfold _broadcast_file_list.
  pose proof (file_send_each_attempts send_ok (clients s)
                (file_list_update (available_files s)) tr) as Hatt.
  pose proof (file_send_each_failed send_ok (clients s)
                (file_list_update (available_files s)) tr) as Hfail.
  destruct (send_each send_ok (clients s) _ tr) as [dis tr1].
  cbn [fst snd] in *. cbn [set_clients clients available_files disk].
  split; [done|]. split; [done|]. split; [done|]. split.
  - intros c Hin. by apply (remove_each_subseteq dis (clients s)).
  - intros c Hin Hout. apply Hfail.
    destruct (decide (c ∈ dis)) as [|Hnin]; [done|].
    exfalso. apply Hout. by apply remove_each_other.
Qed.

(** X12.  When the handler of a connection ends, its socket is no longer
    among the server's clients, whatever requests it served before, and the
    client list still has no duplicate. *)
Theorem file_handler_end_unregisters (send_ok : nat → sock → bool)
    (json_loads : bytes → option request) (os_error : string)
    (fuel : nat) (c : sock) (s : state) (input : stream)
    (tr : list sendev) :
  NoDup (clients s) →
  let r := _handle_client send_ok json_loads os_error fuel c s input tr in
  NoDup (clients r.1.1.1) ∧ (r.2 = true → c ∉ clients r.1.1.1).
Proof.
  cbv zeta. revert s input tr.
  assert (Hclose : ∀ s, NoDup (clients s) →
            NoDup (clients (close_client c s)) ∧
            c ∉ clients (close_client c s)).
  { intros s Hnd. unfold close_client. cbn [set_clients clients].
    destruct (decide (c ∈ clients s)) as [Hin|Hnin].
    - split; [by apply list_remove_NoDup | by apply list_remove_gone].
    - done. }
  induction fuel as [|fuel IH]; intros s input tr Hnd; simpl; [done|].
  destruct (recv 1024 input) as [[data|] input1].
  2: { destruct (Hclose s Hnd). by split. }
  destruct data as [|b data].
  { destruct (Hclose s Hnd). by split. }
  destruct (json_loads (b :: data)) as [req|].
  2: { destruct (Hclose s Hnd). by split. }
  destruct (decide (command req = Some "UPLOAD"%string)).
  { pose proof (handle_upload_NoDup send_ok os_error c req s input1 tr Hnd)
      as Hup.
    destruct (_handle_upload send_ok os_error c req s input1 tr)
      as [[s2 input2] tr2].
    by apply IH. }
  destruct (decide (command req = Some "DOWNLOAD"%string)).
  { destruct (_handle_download send_ok c req s input1 tr) as [input2 tr2].
    by apply IH. }
  destruct (decide (command req = Some "LIST"%string)); by apply IH.
Qed.

Lemma file_handler_end_unregisters_witness :
  NoDup (clients (_handle_client (λ _ _, true) (λ _, None) "closed" 3 7%nat
                    {| clients := [5%nat; 7%nat]; available_files := ∅;
                       disk := ∅ |} [None] []).1.1.1).
Proof.
  refine (proj1 (file_handler_end_unregisters (λ _ _, true) (λ _, None)
                   "closed" 3 7%nat
                   {| clients := [5%nat; 7%nat]; available_files := ∅;
                      disk := ∅ |} [None] [] _)).
  apply (bool_decide_unpack _). vm_compute. exact I.
Defined.
End FileStartup.

Section VideoSending.
Import VideoClient.

Lemma sendto_until_error_spec (sendto_ok : nat → bool) (packets : list bytes)
    (tr : list (bytes * bool)) :
  ∃ sent,
    sendto_until_error sendto_ok packets tr = tr ++ sent ∧
    map fst sent `prefix_of` packets ∧
    (∀ i p, sent !! i = Some (p, false) → S i = length sent) ∧
    ((∀ n, sendto_ok n = true) → map fst sent = packets).
Proof.
  revert tr. induction packets as [|p rest IH]; intros tr; simpl.
  - exists []. rewrite app_nil_r. split; [done|]. split; [done|].
    split; [|done]. intros i q Hq. by rewrite lookup_nil in Hq.
  - destruct (sendto_ok (length tr)) eqn:Hok.
    + destruct (IH (tr ++ [(p, true)])) as (sent & Heq & Hpre & Hlast & Hall).
      exists ((p, true) :: sent). rewrite Heq, <- app_assoc.
      split; [done|]. split; [simpl; by apply prefix_cons|].
      split.
      * intros [|i] q Hq; simpl in Hq; [by injection Hq|].
        simpl. f_equal. by eapply Hlast.
      * intros Hs. simpl. f_equal. by apply Hall.
    + exists [(p, false)]. split; [done|].
      split; [simpl; apply prefix_cons, prefix_nil|].
      split.
      * intros [|i] q Hq; simpl in Hq; [done|]. by rewrite lookup_nil in Hq.
      * intros Hs. by rewrite Hs in Hok.
Qed.

(** X13.  [_send_frame] advances the frame counter by one modulo a million
    and labels the datagrams with the old counter: the datagrams handed to
    the socket are a prefix of the frame's datagrams in index order, only the
    last one can have failed, and when no [sendto] raises they are all of
    them. *)
Theorem send_frame_counter_and_datagrams (sendto_ok : nat → bool)
    (username : string) (_frame_counter : Z) (frame_bytes : bytes)
    (tr : list (bytes * bool)) :
  let r := _send_frame sendto_ok username _frame_counter frame_bytes tr in
  0 ≤ r.1 < 1000000 ∧
  (0 ≤ _frame_counter < 999999 → r.1 = _frame_counter + 1) ∧
  (_frame_counter = 999999 → r.1 = 0) ∧
  ∃ sent,
    r.2 = tr ++ sent ∧
    map fst sent `prefix_of` frame_packets username _frame_counter frame_bytes ∧
    (∀ i p, sent !! i = Some (p, false) → S i = length sent) ∧
    ((∀ n, sendto_ok n = true) →
     map fst sent = frame_packets username _frame_counter frame_bytes).
Proof.
  cbv zeta. unfold _send_frame. cbn [fst snd].
  split; [apply Z.mod_pos_bound; lia|].
  split; [intros H; apply Z.mod_small; lia|].
  split; [by intros ->|].
  apply sendto_until_error_spec.
Qed.
End VideoSending.

Section VideoReceiving.
Import VideoClient.
Variable frame : Type.
Variable imdecode : bytes → option frame.
Variable int : bytes → option Z.
Variable utf8_ok : bytes → bool.
Variable username : string.
Variable has_callback : bool.

#[local] Abbreviation handle' :=
  (_handle_frame_chunk frame imdecode int utf8_ok username has_callback).
#[local] Abbreviation receive' :=
  (receive_chunks frame imdecode int utf8_ok username has_callback).
#[local] Abbreviation receive_video :=
  (_receive_video frame imdecode int utf8_ok username has_callback).

Lemma handle_ignores_unparsed (packet : bytes) (now : Z) (st : state) :
  parse_chunk int utf8_ok packet = None → handle' packet now st = (st, None).
Proof.
  unfold _handle_frame_chunk, parse_chunk.
  destruct (split 5 BAR packet) as [|p0 [|p1 [|p2 [|p3 [|p4 [|p5 [|p6 l]]]]]]];
    try done.
  destruct (utf8_ok p1); simpl; [|done].
  destruct (int p2) as [frame_id|]; [|done].
  destruct (int p3) as [chunk_index|]; [|done].
  destruct (int p4) as [total_chunks|]; done.
Qed.

Lemma handle_ignores_own (packet : bytes) (now : Z) (st : state)
    (frame_id chunk_index total_chunks : Z) (payload : bytes) :
  parse_chunk int utf8_ok packet
    = Some (username, frame_id, chunk_index, total_chunks, payload) →
  handle' packet now st = (st, None).
Proof.
  unfold _handle_frame_chunk, parse_chunk.
  destruct (split 5 BAR packet) as [|p0 [|p1 [|p2 [|p3 [|p4 [|p5 [|p6 l]]]]]]];
    try done.
  destruct (utf8_ok p1); simpl; [|done].
  destruct (int p2) as [fid|]; [|done].
  destruct (int p3) as [idx|]; [|done].
  destruct (int p4) as [tot|]; [|done].
  intros [= Hname _ _ _ _]. by rewrite decide_True.
Qed.

Lemma cleanup_subseteq (now : Z) (st : state) :
  _incoming_frames (_cleanup_stale_frames now st) ⊆ _incoming_frames st ∧
  _frame_meta (_cleanup_stale_frames now st) ⊆ _frame_meta st.
Proof.
  unfold _cleanup_stale_frames. generalize (stale_keys now st). intros keys.
  revert st. induction keys as [|key keys IH]; intros st; simpl; [done|].
  destruct (IH {| _incoming_frames := delete key (_incoming_frames st);
                  _frame_meta := delete key (_frame_meta st) |}) as [Hi Hm].
  cbn [_incoming_frames _frame_meta] in *.
  split; (etrans; [eassumption | apply delete_subseteq]).
Qed.

Lemma cleanup_dom (now : Z) (st : state) :
  dom (_incoming_frames st) = dom (_frame_meta st) →
  dom (_incoming_frames (_cleanup_stale_frames now st))
  = dom (_frame_meta (_cleanup_stale_frames now st)).
Proof.
  unfold _cleanup_stale_frames. generalize (stale_keys now st). intros keys.
  revert st. induction keys as [|key keys IH]; intros st Hdom; simpl; [done|].
  apply IH. cbn [_incoming_frames _frame_meta].
  by rewrite !dom_delete_L, Hdom.
Qed.

Lemma handle_dom (packet : bytes) (now : Z) (st : state) :
  dom (_incoming_frames st) = dom (_frame_meta st) →
  dom (_incoming_frames (handle' packet now st).1)
  = dom (_frame_meta (handle' packet now st).1).
Proof.
  intros Hdom. unfold _handle_frame_chunk.
  destruct (split 5 BAR packet) as [|p0 [|p1 [|p2 [|p3 [|p4 [|p5 [|p6 l]]]]]]];
    try done.
  destruct (utf8_ok p1); simpl; [|done].
  destruct (int p2) as [fid|]; [|done].
  destruct (int p3) as [idx|]; [|done].
  destruct (int p4) as [tot|]; [|done].
  destruct (decide _); [done|].
  destruct (decide _).
  - destruct (ordered_chunks _ tot); simpl.
    + by rewrite !dom_delete_L, !dom_insert_L, Hdom.
    + by rewrite !dom_insert_L, Hdom.
  - simpl. by rewrite !dom_insert_L, Hdom.
Qed.

(** X14.  The receiver never buffers or shows what is not another
    participant's frame chunk: over receptions whose datagrams are empty,
    registrations, not [FRAME] datagrams, malformed, or chunks carrying the
    receiver's own name, the callback is never called and the buffers only
    shrink (by the sweep on time-outs). *)
Theorem receiver_ignores_foreign_datagrams (events : list (Z * received))
    (st : state) :
  Forall (λ e, match e.2 with
               | Datagram data =>
                   data = [] ∨ startswith REGISTER_HEADER data = true ∨
                   startswith FRAME_HEADER data = false ∨
                   parse_chunk int utf8_ok data = None ∨
                   ∃ frame_id chunk_index total_chunks payload,
                     parse_chunk int utf8_ok data
                     = Some (username, frame_id, chunk_index, total_chunks,
                             payload)
               | _ => True
               end) events →
  let r := receive_video events st in
  r.2 = [] ∧
  _incoming_frames r.1 ⊆ _incoming_frames st ∧
  _frame_meta r.1 ⊆ _frame_meta st.
Proof.
  cbv zeta. intros Hall. revert st.
  induction Hall as [|[now ev] events Hev Hall IH]; intros st;
    cbn [_receive_video]; [done|].
  destruct ev as [data| | |]; cbn [snd] in Hev.
  - destruct (decide (data = [])) as [|Hne]; [apply IH|].
    destruct (startswith REGISTER_HEADER data) eqn:Hreg; [apply IH|].
    destruct (startswith FRAME_HEADER data) eqn:Hfr; [|apply IH].
    assert (Hig : handle' data now st = (st, None)).
    { destruct Hev as [?|[?|[?|[Hp|(fid & idx & tot & pl & Hp)]]]];
        [done..| by apply handle_ignores_unparsed
               | by eapply handle_ignores_own]. }
    rewrite Hig. specialize (IH st).
    destruct (receive_video events st) as [st2 outs]. exact IH.
  - destruct (cleanup_subseteq now st) as [Hi Hm].
    destruct (IH (_cleanup_stale_frames now st)) as (Hout & Hi2 & Hm2).
    split; [done|]. split; by etrans.
  - done.
  - apply IH.
Qed.

(** X15.  After any receptions, a frame has a buffer exactly when it has a
    record of its creation time: the two maps of the reassembler keep the
    same keys, so every buffered frame can expire. *)
Theorem receiver_buffers_have_records (events : list (Z * received))
    (st : state) :
  dom (_incoming_frames st) = dom (_frame_meta st) →
  let r := receive_video events st in
  dom (_incoming_frames r.1) = dom (_frame_meta r.1).
Proof.
  cbv zeta. revert st.
  induction events as [|[now ev] events IH]; intros st Hdom;
    cbn [_receive_video]; [done|].
  destruct ev as [data| | |]; [| |done|by apply IH].
  - destruct (decide (data = [])); [by apply IH|].
    destruct (startswith REGISTER_HEADER data); [by apply IH|].
    destruct (startswith FRAME_HEADER data); [|by apply IH].
    pose proof (handle_dom data now st Hdom) as Hd.
    destruct (handle' data now st) as [st1 out].
    specialize (IH st1 Hd).
    by destruct (receive_video events st1) as [st2 outs].
  - apply IH. by apply cleanup_dom.
Qed.

End VideoReceiving.

Section VideoReceivingExamples.
Import VideoClient.

Lemma receiver_ignores_foreign_datagrams_witness :
  (_receive_video bytes Some int_decimal (λ _, true) "me" true
     [(0, Datagram (header "me" 7 0 1 ++ [x01]));
      (5, Datagram (String.list_byte_of_string "REGISTER|bob"));
      (9, SocketTimeout);
      (9, Datagram (String.list_byte_of_string "FRAME|bob|x|0|1|z"))]
     {| _incoming_frames := ∅; _frame_meta := ∅ |}).2 = [].
Proof.
  refine (proj1 (receiver_ignores_foreign_datagrams bytes Some int_decimal
                   (λ _, true) "me" true _ _ _)).
  apply Forall_cons_2; [do 4 right; by exists 7, 0, 1, [x01]|].
  apply Forall_cons_2; [right; by left|].
  apply Forall_cons_2; [exact I|].
  apply Forall_cons_2; [do 3 right; by left|].
  apply Forall_nil_2.
Defined.

Lemma receiver_buffers_have_records_witness :
  dom (_incoming_frames
         (_receive_video bytes Some int_decimal (λ _, true) "me" true
            [(0, Datagram (header "bob" 7 0 2 ++ [x01])); (9, SocketTimeout)]
            {| _incoming_frames := ∅; _frame_meta := ∅ |}).1)
  = dom (_frame_meta
           (_receive_video bytes Some int_decimal (λ _, true) "me" true
              [(0, Datagram (header "bob" 7 0 2 ++ [x01]));
               (9, SocketTimeout)]
              {| _incoming_frames := ∅; _frame_meta := ∅ |}).1).
Proof.
  apply (receiver_buffers_have_records bytes Some int_decimal (λ _, true)
           "me" true).
  reflexivity.
Defined.
End VideoReceivingExamples.

Section VideoAnyOrder.
Import VideoClient.
Variable frame : Type.
Variable imdecode : bytes → option frame.
Variable int : bytes → option Z.
Variable utf8_ok : bytes → bool.
Variable username : string.
Variable has_callback : bool.
Variable sender : string.
Variable frame_id : Z.
Variable total : Z.
Variable chunk : Z → bytes.
Hypothesis int_str : ∀ n, 0 ≤ n → int (str n) = Some n.
Hypothesis sender_utf8 : utf8_ok (String.list_byte_of_string sender) = true.
Hypothesis sender_no_bar : BAR ∉ String.list_byte_of_string sender.
Hypothesis sender_other : sender ≠ username.
Hypothesis frame_id_nonneg : 0 ≤ frame_id.

#[local] Abbreviation handle_any :=
  (_handle_frame_chunk frame imdecode int utf8_ok username has_callback).
#[local] Abbreviation receive_any :=
  (receive_chunks frame imdecode int utf8_ok username has_callback).
#[local] Abbreviation packet_any := (packet sender frame_id total chunk).
#[local] Abbreviation delivered_any := (delivered frame imdecode has_callback).

Lemma ordered_chunks_all (buffer : gmap Z bytes) (idxs : list Z) :
  (∀ i, i ∈ idxs → buffer !! i = Some (chunk i)) →
  mapM (λ i, buffer !! i) idxs = Some (map chunk idxs).
Proof.
  induction idxs as [|i idxs IH]; intros Hall; [done|].
  cbn [mapM map]. rewrite (Hall i) by left. simpl.
  rewrite IH; [done|]. intros j Hj. apply Hall. by right.
Qed.

(** The datagrams of the indices [rest], in that order, after those of the
    indices [seen]: together the indices are a rearrangement of
    [0 .. total-1]. *)
Lemma receive_rearranged (rest seen : list Z) (now : Z) (st : state) :
  seen ++ rest ≡ₚ seqZ 0 total →
  rest ≠ [] →
  size (default ∅ (_incoming_frames st !! (sender, frame_id))) = length seen →
  (∀ i, default ∅ (_incoming_frames st !! (sender, frame_id)) !! i
        = if decide (i ∈ seen) then Some (chunk i) else None) →
  receive_any (map packet_any rest) now st
  = ({| _incoming_frames := delete (sender, frame_id) (_incoming_frames st);
        _frame_meta := delete (sender, frame_id) (_frame_meta st) |},
     option_list (delivered_any sender (concat (map chunk (seqZ 0 total))))).
Proof.
  revert seen st. induction rest as [|i rest IH]; intros seen st Hperm Hne Hsize Hbuf;
    [done|].
  assert (Hnd : NoDup (seen ++ i :: rest)).
  { rewrite Hperm. apply NoDup_seqZ. }
  assert (Hi : 0 ≤ i < total).
  { assert (i ∈ seqZ 0 total) as Hin
      by (rewrite <- Hperm; apply elem_of_app; right; left).
    apply elem_of_seqZ in Hin. lia. }
  assert (Hfresh : i ∉ seen).
  { apply NoDup_app in Hnd as (_ & Hdisj & _). intros Hin.
    apply (Hdisj i Hin). left. }
  assert (Hlen : (length seen + S (length rest))%nat = Z.to_nat total).
  { apply Permutation_length in Hperm.
    rewrite length_app, length_seqZ in Hperm. simpl in Hperm. lia. }
  set (buffer := default ∅ (_incoming_frames st !! (sender, frame_id))) in *.
  assert (Hnone : buffer !! i = None).
  { rewrite Hbuf. by rewrite decide_False. }
  assert (Hsize' : size (<[i := chunk i]> buffer) = S (length seen)).
  { by rewrite map_size_insert_None, Hsize. }
  assert (Hbuf' : ∀ j, <[i := chunk i]> buffer !! j
                       = if decide (j ∈ seen ++ [i]) then Some (chunk j)
                         else None).
  { intros j. destruct (decide (j = i)) as [->|Hji].
    - rewrite lookup_insert_eq. rewrite decide_True; [done|].
      apply elem_of_app. right. left.
    - rewrite lookup_insert_ne by done. rewrite Hbuf.
      destruct (decide (j ∈ seen)) as [Hin|Hnin].
      + rewrite decide_True; [done|]. apply elem_of_app. by left.
      + rewrite decide_False; [done|].
        intros [?|Hj%list_elem_of_singleton]%elem_of_app; done. }
  cbn [map receive_chunks].
  unfold _handle_frame_chunk at 1. unfold packet at 1.
  rewrite split_header by done. rewrite sender_utf8. cbn [negb].
  rewrite !int_str by lia.
  rewrite String.string_of_list_byte_of_string.
  rewrite !decide_False by done.
  fold buffer. cbv zeta. rewrite Hsize'.
  destruct rest as [|i' rest].
  - rewrite !decide_True by (simpl in Hlen; lia).
    assert (Hord : ordered_chunks (<[i := chunk i]> buffer) total
                   = Some (map chunk (seqZ 0 total))).
    { apply ordered_chunks_all. intros j Hj.
      rewrite Hbuf'. rewrite decide_True; [done|].
      rewrite <- Hperm in Hj. exact Hj. }
    rewrite Hord. cbn [receive_chunks]. rewrite !delete_insert_eq.
    unfold delivered. by destruct (imdecode _) as [f|]; [destruct has_callback|].
  - rewrite !decide_False by (simpl in Hlen; lia).
    rewrite (IH (seen ++ [i])); cbn [_incoming_frames _frame_meta].
    + by rewrite !delete_insert_eq.
    + by rewrite <- app_assoc.
    + done.
    + rewrite lookup_insert_eq. cbn [from_option id].
      rewrite Hsize', length_app. simpl. lia.
    + rewrite lookup_insert_eq. exact Hbuf'.
Qed.
End VideoAnyOrder.

Section VideoAnyOrderClaims.
Import VideoClient.

(** X16.  Reassembly does not depend on the order of arrival: a receiver
    that holds no buffer for [(sender, frame_id)] and is handed the
    datagrams of a frame, each once and in any order, calls its callback
    once, with the image decoded from exactly the original bytes, and is
    left without buffer or record for the frame. *)
Theorem frame_reassembled_in_any_order (frame : Type)
    (imdecode : bytes → option frame) (int : bytes → option Z)
    (utf8_ok : bytes → bool) (username : string) (has_callback : bool)
    (sender : string) (frame_id now : Z) (st : state)
    (frame_bytes : bytes) (packets : list bytes) :
  (∀ n, 0 ≤ n → int (str n) = Some n) →
  utf8_ok (String.list_byte_of_string sender) = true →
  BAR ∉ String.list_byte_of_string sender →
  sender ≠ username →
  0 ≤ frame_id →
  _incoming_frames st !! (sender, frame_id) = None →
  packets ≡ₚ frame_packets sender frame_id frame_bytes →
  let r := receive_chunks frame imdecode int utf8_ok username has_callback
             packets now st in
  r.2 = option_list (delivered frame imdecode has_callback sender
                       frame_bytes) ∧
  _incoming_frames r.1 = _incoming_frames st ∧
  _frame_meta r.1 !! (sender, frame_id) = None.
Proof.
  intros Hint Hutf Hbar Hother Hfid Hfresh Hperm. cbv zeta.
  unfold frame_packets in Hperm.
  apply Permutation_map_inv in Hperm as (idxs & -> & Hidx).
  pose proof (total_chunks_of_pos frame_bytes) as Hpos.
  pose proof (receive_rearranged frame imdecode int utf8_ok username
                has_callback sender frame_id (total_chunks_of frame_bytes)
                (chunk_of frame_bytes) Hint Hutf Hbar Hother Hfid
                idxs [] now st) as Hrec.
  change (map (chunk_of frame_bytes) (seqZ 0 (total_chunks_of frame_bytes)))
    with (frame_chunks frame_bytes) in Hrec.
  rewrite frame_chunks_concat in Hrec.
  assert (Hsome : idxs ≠ []).
  { intros ->. apply Permutation_nil_r in Hidx.
    apply (f_equal length) in Hidx. rewrite length_seqZ in Hidx.
    simpl in Hidx. lia. }
  specialize (Hrec ltac:(simpl; by symmetry) Hsome).
  rewrite Hfresh in Hrec. cbn [from_option id] in Hrec.
  specialize (Hrec eq_refl).
  match goal with
  | |- context [receive_chunks ?a ?b ?c ?d ?e ?f ?g ?h ?i] =>
      replace (receive_chunks a b c d e f g h i)
        with ({| _incoming_frames :=
                   delete (sender, frame_id) (_incoming_frames st);
                 _frame_meta := delete (sender, frame_id) (_frame_meta st) |},
              option_list (delivered frame imdecode has_callback sender
                             frame_bytes))
  end.
  - cbn [fst snd _incoming_frames _frame_meta].
    split; [done|]. split; [by apply delete_id | by rewrite lookup_delete_eq].
  - symmetry. apply Hrec. intros i. rewrite lookup_empty.
    rewrite decide_False; [done|]. apply not_elem_of_nil.
Qed.

Lemma frame_reassembled_in_any_order_witness :
  let frame_bytes := replicate (Z.to_nat 8193) x01 in
  (receive_chunks bytes Some int_decimal (λ _, true) "me" true
     (reverse (frame_packets "bob" 7 frame_bytes)) 0
     {| _incoming_frames := ∅; _frame_meta := ∅ |}).2
  = option_list (delivered bytes Some true "bob" frame_bytes).
Proof.
  intros frame_bytes.
  refine (proj1 (frame_reassembled_in_any_order bytes Some int_decimal
                   (λ _, true) "me" true "bob" 7 0
                   {| _incoming_frames := ∅; _frame_meta := ∅ |}
                   frame_bytes (reverse (frame_packets "bob" 7 frame_bytes))
                   _ _ _ _ _ _ _)).
  - intros n _. apply int_decimal_str.
  - reflexivity.
  - apply (bool_decide_unpack _). vm_compute. exact I.
  - discriminate.
  - lia.
  - reflexivity.
  - apply reverse_Permutation.
Defined.
End VideoAnyOrderClaims.

Section OrchestratorStates.
Import MainServer.
Implicit Types (s : state) (tr : list event).
Implicit Types (ms : list (string * server_module)).

(** A run of the starting loop in which every start succeeds. *)
Lemma start_each_all_ok ms index total started s tr :
  Forall start_ok ms →
  ∃ s1 delta,
    start_each index total ms started s tr
    = (inl (started ++ ms), s1, tr ++ delta) ∧
    running s1 = running s ∧
    active_modules s1 = active_modules s ∧
    start_calls delta = map fst ms ∧
    stop_calls delta = [] ∧
    ∀ n, dict_get n (module_states s1)
         = if decide (n ∈ map fst ms) then Some "running"%string
           else dict_get n (module_states s).
Proof.
  revert index started s tr.
  induction ms as [|[name m] ms IH]; intros index started s tr Hok.
  - exists s, []. rewrite !app_nil_r. by split_and!.
  - apply Forall_cons in Hok as [Hm Hok]. unfold start_ok in Hm. simpl in Hm.
    cbn [start_each]. unfold _update_status, _log. cbn [module_states].
    rewrite Hm.
    match goal with
    | |- context [start_each ?i ?t ms ?st ?s0 ?tr0] =>
        destruct (IH i st s0 tr0 Hok)
          as (s1 & delta & Heq & Hrun & Hact & Hst & Hsp & Hstates)
    end.
    exists s1, ([EvStatus name "starting";
                 EvLog (LogStarting index total name);
                 EvStart name StartOk; EvStatus name "running";
                 EvLog (LogOnline name)] ++ delta).
    rewrite Heq.
    split; [by rewrite <- !app_assoc|]. split; [done|]. split; [done|].
    split; [by rewrite start_calls_app, Hst|].
    split; [by rewrite stop_calls_app, Hsp|].
    intros n. rewrite Hstates. cbn [map fst module_states].
    destruct (decide (n ∈ map fst ms)) as [Hin|Hnin].
    + rewrite decide_True; [done|]. by right.
    + destruct (decide (n = name)) as [->|Hne].
      * rewrite decide_True by left. by rewrite dict_get_set_eq.
      * rewrite decide_False by (by intros [?|?]%elem_of_cons).
        by rewrite !dict_get_set_ne.
Qed.

(** The stopping loop: every module is stopped once, in list order, and is
    marked stopped whether or not its [stop] raises. *)
Lemma stop_each_states ms s tr :
  ∃ s1 delta,
    stop_each ms s tr = (s1, tr ++ delta) ∧
    running s1 = running s ∧
    active_modules s1 = active_modules s ∧
    start_calls delta = [] ∧
    stop_calls delta = map fst ms ∧
    ∀ n, dict_get n (module_states s1)
         = if decide (n ∈ map fst ms) then Some "stopped"%string
           else dict_get n (module_states s).
Proof.
  revert s tr. induction ms as [|[name m] ms IH]; intros s tr.
  - exists s, []. rewrite app_nil_r. by split_and!.
  - cbn [stop_each]. unfold _update_status, _log. cbn [module_states].
    match goal with
    | |- context [stop_each ms ?s0 ?tr0] =>
        destruct (IH s0 tr0)
          as (s1 & delta & Heq & Hrun & Hact & Hst & Hsp & Hstates)
    end.
    exists s1, ([EvStatus name "stopping"; EvLog (LogStopping name);
                 EvStop name (stop m)]
                ++ match stop m with
                   | Some what => [EvLog (LogStopError name what)]
                   | None => []
                   end ++ [EvStatus name "stopped"] ++ delta).
    rewrite Heq.
    split.
    { f_equal. destruct (stop m); rewrite <- !app_assoc; done. }
    split; [done|]. split; [done|].
    split.
    { rewrite !start_calls_app, Hst. by destruct (stop m). }
    split.
    { rewrite !stop_calls_app, Hsp. by destruct (stop m). }
    intros n. rewrite Hstates. cbn [map fst module_states].
    destruct (decide (n ∈ map fst ms)) as [Hin|Hnin].
    + rewrite decide_True; [done|]. by right.
    + destruct (decide (n = name)) as [->|Hne].
      * rewrite decide_True by left. by rewrite dict_get_set_eq.
      * rewrite decide_False by (by intros [?|?]%elem_of_cons).
        by rewrite !dict_get_set_ne.
Qed.

(** X17.  When every component starts, [start_modules] returns normally
    with the orchestrator running and all the components active: each was
    started once, in list order, none was stopped, and each is reported as
    running. *)
Theorem startup_success_activates_all
    (modules : list (string * server_module)) (s : state)
    (tr : list event) :
  running s = false →
  Forall start_ok modules →
  let r := start_modules modules s tr in
  r.1.1 = Returned ∧
  running r.1.2 = true ∧
  active_modules r.1.2 = modules ∧
  ∃ delta,
    r.2 = tr ++ delta ∧
    start_calls delta = map fst modules ∧
    stop_calls delta = [] ∧
    ∀ n, n ∈ map fst modules →
         dict_get n (module_states r.1.2) = Some "running"%string.
Proof.
  intros Hrun Hall. cbv zeta. unfold start_modules. rewrite Hrun.
  destruct (start_each_all_ok modules 1 (length modules) [] s
              (_log LogBanner tr) Hall)
    as (s1 & delta & Heq & _ & _ & Hst & Hsp & Hstates).
  rewrite Heq. cbn [fst snd app set_active running active_modules
                    module_states].
  split; [done|]. split; [done|]. split; [done|].
  exists ([EvLog LogBanner] ++ delta ++ [EvLog LogAllUp]).
  unfold _log. split; [by rewrite <- !app_assoc|].
  split.
  { rewrite !start_calls_app, Hst. simpl. by rewrite app_nil_r. }
  split.
  { rewrite !stop_calls_app, Hsp. done. }
  intros n Hn. rewrite Hstates. by rewrite decide_True.
Qed.

Lemma startup_success_activates_all_witness :
  let up := {| start := StartOk; stop := None |} in
  let modules := [("Chat Service"%string, up);
                  ("File Transfer Service"%string, up)] in
  let s := {| module_states := []; active_modules := []; running := false |} in
  active_modules (start_modules modules s []).1.2 = modules.
Proof.
  intros up modules s.
  refine (proj1 (proj2 (proj2 (startup_success_activates_all modules s []
                                 _ _)))).
  - reflexivity.
  - by repeat constructor.
Defined.

(** X18.  [stop_modules] on a running orchestrator stops every active
    component once, in the reverse of their order, starts none, reports
    each of them as stopped even when its [stop] raises, and leaves the
    orchestrator not running with no active component; a second
    [stop_modules] then does nothing. *)
Theorem shutdown_stops_all_in_reverse (s : state) (tr : list event) :
  running s = true →
  let r := stop_modules s tr in
  running r.1 = false ∧
  active_modules r.1 = [] ∧
  (∃ delta,
     r.2 = tr ++ delta ∧
     stop_calls delta = rev (map fst (active_modules s)) ∧
     start_calls delta = []) ∧
  (∀ n, n ∈ map fst (active_modules s) →
        dict_get n (module_states r.1) = Some "stopped"%string) ∧
  ∀ tr', stop_modules r.1 tr' = (r.1, tr').
Proof.
  intros Hrun. cbv zeta.
  destruct (stop_each_states (rev (active_modules s)) s
              (_log LogStoppingServices tr))
    as (s1 & delta & Heq & _ & _ & Hst & Hsp & Hstates).
  assert (Hr : stop_modules s tr
               = (set_active [] false s1,
                  _log LogShutdownComplete
                    (_log LogStoppingServices tr ++ delta))).
  { unfold stop_modules, _stop_modules_list. rewrite Hrun. cbn [negb andb].
    by rewrite Heq. }
  rewrite Hr. cbn [fst snd set_active running active_modules module_states].
  split; [done|]. split; [done|].
  split.
  { exists ([EvLog LogStoppingServices] ++ delta
            ++ [EvLog LogShutdownComplete]).
    unfold _log. split; [by rewrite <- !app_assoc|].
    rewrite !stop_calls_app, !start_calls_app, Hst, Hsp, map_rev.
    simpl. by rewrite app_nil_r. }
  split.
  { intros n Hn. rewrite Hstates. rewrite decide_True; [done|].
    rewrite map_rev. apply list_elem_of_In, in_rev.
    rewrite rev_involutive. by apply list_elem_of_In. }
  intros tr'. unfold stop_modules.
  cbn [set_active running active_modules negb andb].
  by rewrite bool_decide_eq_true_2.
Qed.

Lemma shutdown_stops_all_in_reverse_witness :
  let up := {| start := StartOk; stop := None |} in
  let stuck := {| start := StartOk; stop := Some "busy"%string |} in
  let s := {| module_states := [];
              active_modules := [("Chat Service"%string, up);
                                 ("Video Service"%string, stuck)];
              running := true |} in
  active_modules (stop_modules s []).1 = [].
Proof.
  intros up stuck s.
  refine (proj1 (proj2 (shutdown_stops_all_in_reverse s [] _))).
  reflexivity.
Defined.
End OrchestratorStates.

Section ParticipantHandler.
Import ParticipantServer.
Variable send_ok : nat → sock → bool.
Implicit Types (s : state) (tr : list sendev) (m : message).

(** Both dictionaries of the registry have distinct keys. *)
#[local] Abbreviation distinct_keys s :=
  (NoDup (dict_keys (clients s)) ∧ NoDup (dict_keys (participants s))).

Lemma prune_distinct s cu : distinct_keys s → distinct_keys (prune s cu).
Proof.
  intros [Hc Hp]. unfold prune. cbn [clients participants]. split.
  - destruct (dict_mem cu.1 (clients s)); [by apply dict_del_NoDup | done].
  - destruct (dict_mem cu.2 (participants s)); [by apply dict_del_NoDup | done].
Qed.

Lemma prune_all_distinct dis s :
  distinct_keys s → distinct_keys (fold_left prune dis s).
Proof.
  revert s. induction dis as [|cu dis IH]; intros s Hd; [done|].
  simpl. apply IH. by apply prune_distinct.
Qed.

Lemma broadcast_distinct s tr :
  distinct_keys s →
  distinct_keys (_broadcast_participant_update send_ok s tr).1.
Proof.
  intros Hd. unfold _broadcast_participant_update.
  destruct (send_each send_ok (clients s) _ tr) as [dis tr1].
  by apply prune_all_distinct.
Qed.

Lemma set_video_distinct u b s :
  distinct_keys s → distinct_keys (set_video u b s).
Proof.
  intros [Hc Hp]. unfold set_video.
  destruct (dict_get u (participants s)); [|done].
  cbn [clients participants]. split; [done | by apply dict_set_NoDup].
Qed.

Lemma prune_client_absent s cu c :
  dict_get c (clients s) = None → dict_get c (clients (prune s cu)) = None.
Proof.
  intros Hg. unfold prune. cbn [clients].
  destruct (dict_mem cu.1 (clients s)); [|done].
  by apply dict_get_del_None.
Qed.

Lemma broadcast_client_absent s tr c :
  dict_get c (clients s) = None →
  dict_get c (clients (_broadcast_participant_update send_ok s tr).1) = None.
Proof.
  intros Hg. unfold _broadcast_participant_update.
  destruct (send_each send_ok (clients s) _ tr) as [dis tr1]. simpl.
  revert s Hg. induction dis as [|cu dis IH]; intros s Hg; [done|].
  simpl. apply IH. by apply prune_client_absent.
Qed.

Lemma remove_participant_unlists u c s tr :
  distinct_keys s →
  let r := _remove_participant send_ok u c s tr in
  dict_get u (participants r.1) = None ∧ dict_get c (clients r.1) = None.
Proof.
  intros [Hc Hp]. cbv zeta. unfold _remove_participant.
  assert (Hu : dict_get u (participants (prune s (c, u))) = None)
    by (by apply prune_own_absent).
  assert (Hs : dict_get c (clients (prune s (c, u))) = None).
  { unfold prune. cbn [clients fst].
    destruct (dict_mem c (clients s)) eqn:Hmem.
    - by apply dict_get_del_eq.
    - unfold dict_mem in Hmem. by destruct (dict_get c (clients s)). }
  destruct (dict_mem c (clients s) || dict_mem u (participants s)).
  - split; [by apply broadcast_absent | by apply broadcast_client_absent].
  - done.
Qed.

(** X19.  Whatever messages a connection carried, once its handler has
    finished the participant's name is not in the roster and its socket is
    not among the clients. *)
Theorem participant_handler_finish_unlists (username : string) (c : sock)
    (input : list inbound) (s s' : state) (tr tr' : list sendev) :
  NoDup (dict_keys (clients s)) →
  NoDup (dict_keys (participants s)) →
  _handle_client send_ok username c input s tr = Finished s' tr' →
  dict_get username (participants s') = None ∧
  dict_get c (clients s') = None.
Proof.
  intros Hc Hp. assert (Hd : distinct_keys s) by done. clear Hc Hp.
  revert s tr Hd.
  assert (Hend : ∀ s tr, distinct_keys s →
            (let '(s1, tr1) := _remove_participant send_ok username c s tr in
             Finished s1 tr1) = Finished s' tr' →
            dict_get username (participants s') = None ∧
            dict_get c (clients s') = None).
  { intros s tr Hd.
    pose proof (remove_participant_unlists username c s tr Hd) as Hr.
    destruct (_remove_participant send_ok username c s tr) as [s1 tr1].
    by intros [= <- <-]. }
  induction input as [|i input IH]; intros s tr Hd; cbn [_handle_client];
    [done|].
  destruct i as [[r|]| | |]; [|by apply IH|by apply Hend..].
  destruct r as [value|value| |].
  - destruct (dict_mem username (participants s)); [done | by apply IH].
  - pose proof (broadcast_distinct
                  (set_video username (default false value) s) tr
                  (set_video_distinct _ _ _ Hd)) as Hb.
    destruct (_broadcast_participant_update send_ok _ tr) as [s2 tr2].
    by apply IH.
  - destruct (sendall send_ok c keepalive_ack tr) as [ok tr1].
    destruct ok; [by apply IH | by apply Hend].
  - by apply IH.
Qed.

End ParticipantHandler.

Section ParticipantHandlerExamples.
Import ParticipantServer.

Lemma participant_handler_finish_unlists_witness :
  let s := {| clients := [(4%nat, "dave"%string)];
              participants :=
                [("dave"%string,
                  {| status := "online"; joined_at := "10:15:00";
                     video_active := false |})] |} in
  dict_get "dave"%string (participants {| clients := []; participants := [] |})
  = None.
Proof.
  intros s.
  refine (proj1 (participant_handler_finish_unlists (λ _ _, true) "dave"
                   4%nat [Data (Some keepalive); Closed] s
                   {| clients := []; participants := [] |} []
                   [(4%nat, keepalive_ack, true)] _ _ _)).
  - apply (bool_decide_unpack _). vm_compute. exact I.
  - apply (bool_decide_unpack _). vm_compute. exact I.
  - reflexivity.
Defined.

End ParticipantHandlerExamples.

Section VideoRelay.
Import VideoServer.
Variable sendto_ok : nat → address → bool.
Variable decode_ignore : bytes → string.
Implicit Types (s : state) (tr : list sendev) (a source : address).

Lemma video_send_each_spec targets source data tr :
  let r := send_each sendto_ok targets source data tr in
  map fst r.2
  = map fst tr ++ map (λ a, (a, data)) (filter (λ a, a ≠ source) targets) ∧
  ∀ a, a ∈ r.1 → a ≠ source ∧ a ∈ targets ∧ ∃ n, sendto_ok n a = false.
Proof.
  cbv zeta. revert tr.
  induction targets as [|a rest IH]; intros tr; cbn [send_each].
  - split; [by rewrite app_nil_r | by intros a ?%elem_of_nil].
  - destruct (decide (a = source)) as [->|Hne].
    + rewrite filter_cons_False by (by intros ?).
      destruct (IH tr) as [Hatt Hdis]. split; [done|].
      intros a Ha. destruct (Hdis a Ha) as (? & ? & ?).
      split; [done|]. split; [by right | done].
    + rewrite filter_cons_True by done.
      unfold sendto. cbn [fst snd].
      destruct (IH (tr ++ [(a, data, sendto_ok (length tr) a)]))
        as [Hatt Hdis].
      destruct (send_each sendto_ok rest source data _) as [dis tr2].
      cbn [fst snd] in *. split.
      { rewrite Hatt, map_app. simpl. by rewrite <- app_assoc. }
      intros a' Ha'.
      destruct (sendto_ok (length tr) a) eqn:Hok.
      * destruct (Hdis a' Ha') as (? & ? & ?).
        split; [done|]. split; [by right | done].
      * apply elem_of_cons in Ha' as [->|Ha'].
        { split; [done|]. split; [left | by eexists]. }
        destruct (Hdis a' Ha') as (? & ? & ?).
        split; [done|]. split; [by right | done].
Qed.

Lemma video_forget_all_other dis s a :
  a ∉ dis →
  dict_get a (clients (fold_left forget dis s)) = dict_get a (clients s) ∧
  dict_get a (last_seen (fold_left forget dis s)) = dict_get a (last_seen s).
Proof.
  revert s. induction dis as [|d dis IH]; intros s Hnin; [done|].
  apply not_elem_of_cons in Hnin as [Hne Hnin].
  cbn [fold_left]. destruct (IH (forget s d) Hnin) as [-> ->].
  unfold forget. cbn [clients last_seen].
  by rewrite !dict_get_del_ne.
Qed.

Lemma video_forget_all_gone dis s a :
  NoDup (dict_keys (clients s)) → NoDup (dict_keys (last_seen s)) →
  a ∈ dis →
  dict_get a (clients (fold_left forget dis s)) = None ∧
  dict_get a (last_seen (fold_left forget dis s)) = None.
Proof.
  revert s. induction dis as [|d dis IH]; intros s Hc Hl Hin;
    [by apply elem_of_nil in Hin|].
  cbn [fold_left].
  assert (Hc' : NoDup (dict_keys (clients (forget s d))))
    by (by apply dict_del_NoDup).
  assert (Hl' : NoDup (dict_keys (last_seen (forget s d))))
    by (by apply dict_del_NoDup).
  destruct (decide (a ∈ dis)) as [Hd|Hd]; [by apply IH|].
  apply elem_of_cons in Hin as [->|Hin]; [|done].
  destruct (video_forget_all_other dis (forget s d) d Hd) as [-> ->].
  unfold forget. cbn [clients last_seen].
  by rewrite !dict_get_del_eq.
Qed.

(** X21.  The video relay forwards a datagram of a registered source,
    unchanged and once, to every other registered address in registry
    order, and never back to the source; the source stays registered with
    its last-seen time set to the time of arrival, and an address to which
    no send fails keeps its registration. *)
Theorem video_relay_forwards_to_others (data : bytes) (source : address)
    (now : Z) (s : state) (tr : list sendev) :
  data ≠ [] →
  startswith REGISTER_PREFIX data = false →
  dict_mem source (clients s) = true →
  let r := handle_datagram sendto_ok decode_ignore data source now s tr in
  map fst r.2
  = map fst tr
    ++ map (λ a, (a, data))
         (filter (λ a, a ≠ source) (dict_keys (clients s))) ∧
  dict_get source (clients r.1) = dict_get source (clients s) ∧
  dict_get source (last_seen r.1) = Some now ∧
  ∀ a, (∀ n, sendto_ok n a = true) →
       dict_get a (clients r.1) = dict_get a (clients s).
Proof.
  intros Hne Hreg Hmem. cbv zeta. unfold handle_datagram.
  rewrite decide_False by done. rewrite Hreg, Hmem. cbn [negb clients].
  destruct (video_send_each_spec (dict_keys (clients s)) source data tr)
    as [Hatt Hdis].
  destruct (send_each sendto_ok (dict_keys (clients s)) source data tr)
    as [dis tr1].
  cbn [fst snd] in *.
  split; [done|].
  assert (Hsrc : source ∉ dis).
  { intros Hin. by destruct (Hdis source Hin). }
  match goal with
  | |- context [fold_left forget dis ?s0] =>
      pose proof (video_forget_all_other dis s0) as Hkeep
  end.
  cbn [clients last_seen] in Hkeep.
  destruct (Hkeep source Hsrc) as [Hc Hl].
  split; [done|]. split; [by rewrite Hl, dict_get_set_eq|].
  intros a Hok. apply Hkeep. intros Hin.
  destruct (Hdis a Hin) as (_ & _ & n & Hn). by rewrite Hok in Hn.
Qed.

(** X22.  A registration datagram records the source under the name that
    follows [REGISTER|], with the time of arrival as last-seen time, and
    leaves every other address as it was; nothing is forwarded, and the
    datagram is echoed to the source exactly when the source was already
    registered under that name. *)
Theorem video_registration_records_source (data : bytes) (source : address)
    (now : Z) (s : state) (tr : list sendev) :
  data ≠ [] →
  startswith REGISTER_PREFIX data = true →
  let username := decode_ignore (drop (length REGISTER_PREFIX) data) in
  let r := handle_datagram sendto_ok decode_ignore data source now s tr in
  dict_get source (clients r.1) = Some username ∧
  dict_get source (last_seen r.1) = Some now ∧
  (∀ a, a ≠ source →
        dict_get a (clients r.1) = dict_get a (clients s) ∧
        dict_get a (last_seen r.1) = dict_get a (last_seen s)) ∧
  map fst r.2
  = map fst tr
    ++ (if decide (dict_get source (clients s) = Some username)
        then [(source, data)] else []).
Proof.
  intros Hne Hreg. cbv zeta. unfold handle_datagram.
  rewrite decide_False by done. rewrite Hreg. cbn [fst snd clients last_seen].
  split; [apply dict_get_set_eq|]. split; [apply dict_get_set_eq|].
  split; [intros a Ha; by rewrite !dict_get_set_ne|].
  destruct (decide _); [|by rewrite app_nil_r].
  unfold sendto. cbn [snd]. by rewrite map_app.
Qed.
End VideoRelay.

Section VideoRelayExamples.
Import VideoServer.

Lemma video_relay_forwards_to_others_witness :
  let frame := String.list_byte_of_string "FRAME|bob|0|0|1|x" in
  let bob : address := ("10.0.0.2"%string, 4000) in
  let ann : address := ("10.0.0.3"%string, 4001) in
  let s := {| clients := [(bob, "bob"%string); (ann, "ann"%string)];
              last_seen := [(bob, 0); (ann, 0)] |} in
  dict_get bob
    (last_seen (handle_datagram (λ _ _, true) (λ _, "bob"%string) frame bob 5
                  s []).1)
  = Some 5.
Proof.
  intros frame bob ann s.
  refine (proj1 (proj2 (proj2 (video_relay_forwards_to_others (λ _ _, true)
                                 (λ _, "bob"%string) frame bob 5 s []
                                 _ _ _)))).
  - discriminate.
  - reflexivity.
  - reflexivity.
Defined.

Lemma video_registration_records_source_witness :
  let hello := String.list_byte_of_string "REGISTER|bob" in
  let bob : address := ("10.0.0.2"%string, 4000) in
  let s := {| clients := []; last_seen := [] |} in
  dict_get bob
    (last_seen (handle_datagram (λ _ _, true) (λ _, "bob"%string) hello bob 5
                  s []).1)
  = Some 5.
Proof.
  intros hello bob s.
  refine (proj1 (proj2 (video_registration_records_source (λ _ _, true)
                          (λ _, "bob"%string) hello bob 5 s [] _ _))).
  - discriminate.
  - reflexivity.
Defined.
End VideoRelayExamples.

Section RelayCleanup.
Implicit Types (a : address) (now : Z).

Lemma stale_addresses_spec now (seen : list (address * Z)) a :
  NoDup (dict_keys seen) →
  a ∈ map fst (filter (λ al, now - al.2 > CLIENT_TIMEOUT) seen)
  ↔ ∃ t, dict_get a seen = Some t ∧ now - t > CLIENT_TIMEOUT.
Proof.
  intros Hnd. rewrite list_elem_of_fmap. split.
  - intros [[a' t] [-> Hin]]. apply list_elem_of_filter in Hin as [HP Hin].
    exists t. split; [by apply dict_elem_get | done].
  - intros (t & Hg & HP). exists (a, t). split; [done|].
    apply list_elem_of_filter. split; [done | by apply dict_get_elem].
Qed.

Lemma audio_forget_all_other dis (s : AudioServer.state) a :
  a ∉ dis →
  dict_get a (AudioServer.clients (fold_left AudioServer.forget dis s))
  = dict_get a (AudioServer.clients s) ∧
  dict_get a (AudioServer.last_seen (fold_left AudioServer.forget dis s))
  = dict_get a (AudioServer.last_seen s) ∧
  dict_get a (AudioServer.latest_chunks (fold_left AudioServer.forget dis s))
  = dict_get a (AudioServer.latest_chunks s).
Proof.
  revert s. induction dis as [|d dis IH]; intros s Hnin; [done|].
  apply not_elem_of_cons in Hnin as [Hne Hnin].
  cbn [fold_left]. destruct (IH (AudioServer.forget s d) Hnin) as (-> & -> & ->).
  unfold AudioServer.forget.
  cbn [AudioServer.clients AudioServer.last_seen AudioServer.latest_chunks].
  by rewrite !dict_get_del_ne.
Qed.

Lemma audio_forget_all_gone dis (s : AudioServer.state) a :
  NoDup (dict_keys (AudioServer.clients s)) →
  NoDup (dict_keys (AudioServer.last_seen s)) →
  NoDup (dict_keys (AudioServer.latest_chunks s)) →
  a ∈ dis →
  dict_get a (AudioServer.clients (fold_left AudioServer.forget dis s)) = None ∧
  dict_get a (AudioServer.last_seen (fold_left AudioServer.forget dis s))
  = None ∧
  dict_get a (AudioServer.latest_chunks (fold_left AudioServer.forget dis s))
  = None.
Proof.
  revert s. induction dis as [|d dis IH]; intros s Hc Hl Hk Hin;
    [by apply elem_of_nil in Hin|].
  cbn [fold_left].
  destruct (decide (a ∈ dis)) as [Hd|Hd].
  { apply IH; [by apply dict_del_NoDup..|done]. }
  apply elem_of_cons in Hin as [->|Hin]; [|done].
  destruct (audio_forget_all_other dis (AudioServer.forget s d) d Hd)
    as (-> & -> & ->).
  unfold AudioServer.forget.
  cbn [AudioServer.clients AudioServer.last_seen AudioServer.latest_chunks].
  by rewrite !dict_get_del_eq.
Qed.

(** X23.  A sweep of the clean-up loop of the video relay and of the audio
    mixer evicts exactly the addresses last seen more than [CLIENT_TIMEOUT]
    ago: such an address loses its registration, its last-seen time and
    (for audio) its latest chunk, and every other address keeps all of
    them. *)
Theorem relay_cleanup_evicts_stale (now : Z)
    (sv : VideoServer.state) (sa : AudioServer.state) :
  NoDup (dict_keys (VideoServer.clients sv)) →
  NoDup (dict_keys (VideoServer.last_seen sv)) →
  NoDup (dict_keys (AudioServer.clients sa)) →
  NoDup (dict_keys (AudioServer.last_seen sa)) →
  NoDup (dict_keys (AudioServer.latest_chunks sa)) →
  let sv' := VideoServer.cleanup now sv in
  let sa' := AudioServer.cleanup now sa in
  (∀ a t, dict_get a (VideoServer.last_seen sv) = Some t →
          now - t > CLIENT_TIMEOUT →
          dict_get a (VideoServer.clients sv') = None ∧
          dict_get a (VideoServer.last_seen sv') = None) ∧
  (∀ a, (∀ t, dict_get a (VideoServer.last_seen sv) = Some t →
              now - t ≤ CLIENT_TIMEOUT) →
        dict_get a (VideoServer.clients sv')
        = dict_get a (VideoServer.clients sv) ∧
        dict_get a (VideoServer.last_seen sv')
        = dict_get a (VideoServer.last_seen sv)) ∧
  (∀ a t, dict_get a (AudioServer.last_seen sa) = Some t →
          now - t > CLIENT_TIMEOUT →
          dict_get a (AudioServer.clients sa') = None ∧
          dict_get a (AudioServer.last_seen sa') = None ∧
          dict_get a (AudioServer.latest_chunks sa') = None) ∧
  (∀ a, (∀ t, dict_get a (AudioServer.last_seen sa) = Some t →
              now - t ≤ CLIENT_TIMEOUT) →
        dict_get a (AudioServer.clients sa')
        = dict_get a (AudioServer.clients sa) ∧
        dict_get a (AudioServer.last_seen sa')
        = dict_get a (AudioServer.last_seen sa) ∧
        dict_get a (AudioServer.latest_chunks sa')
        = dict_get a (AudioServer.latest_chunks sa)).
Proof.
  intros Hvc Hvl Hac Hal Hak. cbv zeta.
  unfold VideoServer.cleanup, AudioServer.cleanup.
  split; [|split; [|split]].
  - intros a t Hg Hold. apply video_forget_all_gone; [done..|].
    apply stale_addresses_spec; [done|]. by exists t.
  - intros a Hfresh. apply video_forget_all_other.
    intros Hin. apply stale_addresses_spec in Hin as (t & Hg & Hold); [|done].
    specialize (Hfresh t Hg). lia.
  - intros a t Hg Hold. apply audio_forget_all_gone; [done..|].
    apply stale_addresses_spec; [done|]. by exists t.
  - intros a Hfresh. apply audio_forget_all_other.
    intros Hin. apply stale_addresses_spec in Hin as (t & Hg & Hold); [|done].
    specialize (Hfresh t Hg). lia.
Qed.

Lemma relay_cleanup_evicts_stale_witness :
  let bob : address := ("10.0.0.2"%string, 4000) in
  let ann : address := ("10.0.0.3"%string, 4001) in
  let sv := {| VideoServer.clients := [(bob, "bob"%string);
                                       (ann, "ann"%string)];
               VideoServer.last_seen := [(bob, 0); (ann, 9000)] |} in
  dict_get bob (VideoServer.clients (VideoServer.cleanup 13000 sv)) = None.
Proof.
  intros bob ann sv.
  refine (proj1 (proj1 (relay_cleanup_evicts_stale 13000 sv
                          {| AudioServer.clients := [];
                             AudioServer.last_seen := [];
                             AudioServer.latest_chunks := [] |}
                          _ _ _ _ _) bob 0 _ _)).
  - apply (bool_decide_unpack _). vm_compute. exact I.
  - apply (bool_decide_unpack _). vm_compute. exact I.
  - apply NoDup_nil_2.
  - apply NoDup_nil_2.
  - apply NoDup_nil_2.
  - reflexivity.
  - unfold CLIENT_TIMEOUT. lia.
Defined.
End RelayCleanup.

Section AudioMixing.
Import AudioServer.
Variable sendto_ok : nat → address → bool.
Variable decode_ignore : bytes → string.
Variable np_mix : list (list Z) → bytes.
Implicit Types (latest : list (address * bytes)) (a target : address).

Lemma int16_of_range lo hi : -32768 ≤ int16_of lo hi ≤ 32767.
Proof.
  unfold int16_of.
  pose proof (Byte.to_N_bounded lo). pose proof (Byte.to_N_bounded hi).
  destruct (decide _); lia.
Qed.

Lemma frombuffer_int16_pairs chunk :
  (∀ samples, frombuffer_int16 chunk = Some samples →
     length chunk = (2 * length samples)%nat ∧
     Forall (λ x, -32768 ≤ x ≤ 32767) samples) ∧
  (Nat.even (length chunk) = true → is_Some (frombuffer_int16 chunk)) ∧
  ∀ b,
    (∀ samples, frombuffer_int16 (b :: chunk) = Some samples →
       length (b :: chunk) = (2 * length samples)%nat ∧
       Forall (λ x, -32768 ≤ x ≤ 32767) samples) ∧
    (Nat.even (length (b :: chunk)) = true →
     is_Some (frombuffer_int16 (b :: chunk))).
Proof.
  induction chunk as [|hi chunk IH].
  - split; [intros samples [= <-]; by split|]. split; [by eexists|].
    intros b. split; [done|]. simpl. done.
  - destruct IH as (Hsome & Heven & Hnext).
    split; [apply Hnext|]. split; [apply Hnext|].
    intros lo. split.
    + intros samples. cbn [frombuffer_int16].
      destruct (frombuffer_int16 chunk) as [rest|]; [|done].
      intros [= <-]. destruct (Hsome rest eq_refl) as [Hlen Hrange].
      split; [simpl; lia|]. constructor; [apply int16_of_range | done].
    + intros Hev. cbn [frombuffer_int16].
      destruct (Heven Hev) as [rest ->]. by eexists.
Qed.

(** A chunk is decoded exactly when its length is even; it then gives one
    sample for every two bytes, each a 16-bit signed value. *)
Lemma frombuffer_int16_even (chunk : bytes) :
  (is_Some (frombuffer_int16 chunk) ↔ Nat.even (length chunk) = true) ∧
  ∀ samples, frombuffer_int16 chunk = Some samples →
    length chunk = (2 * length samples)%nat ∧
    Forall (λ x, -32768 ≤ x ≤ 32767) samples.
Proof.
  destruct (frombuffer_int16_pairs chunk) as (Hsome & Heven & _).
  split; [|done]. split; [|done].
  intros [samples Hs]. destruct (Hsome samples Hs) as [Hlen _].
  rewrite Hlen. apply Nat.even_spec. by exists (length samples).
Qed.

Lemma contributors_without_own target own latest :
  filter (λ ac : address * bytes, ac.1 ≠ target ∧ ac.2 ≠ [])
    (dict_set target own latest)
  = filter (λ ac : address * bytes, ac.1 ≠ target ∧ ac.2 ≠ []) latest.
Proof.
  induction latest as [|[a chunk] latest IH]; cbn [dict_set].
  - rewrite filter_cons_False; [done|]. by intros [? _].
  - destruct (decide (target = a)) as [<-|Hne].
    + rewrite !filter_cons_False; [done|by intros [? _]..].
    + destruct (decide (chunk ≠ [])) as [Hc|Hc].
      * rewrite !(filter_cons_True _ (a, chunk))
          by (split; [simpl; congruence | done]).
        by rewrite IH.
      * rewrite !(filter_cons_False _ (a, chunk)) by (by intros [_ ?]).
        exact IH.
Qed.

Lemma min_length_le (arrays : list (list Z)) pcm :
  pcm ∈ arrays → (min_length arrays ≤ length pcm)%nat.
Proof.
  unfold min_length. generalize (match arrays with
                                 | [] => O
                                 | pcm0 :: _ => length pcm0
                                 end).
  intros init Hin. induction arrays as [|x arrays IH]; [by inversion Hin|].
  cbn [foldr]. apply elem_of_cons in Hin as [->|Hin]; [lia|].
  specialize (IH Hin). lia.
Qed.

(** X25.  What a listener is sent by the mixer: its own latest chunk never
    enters its mix; a mix is produced from at least one decoded contributor
    and all the arrays mixed have the same non-zero length; and when no
    other address holds a non-empty chunk there is no mix. *)
Theorem audio_mix_excludes_listener (latest : list (address * bytes))
    (target : address) :
  (∀ own, _build_mix_for_target np_mix (dict_set target own latest) target
          = _build_mix_for_target np_mix latest target) ∧
  (∀ out, _build_mix_for_target np_mix latest target = Some out →
     ∃ arrays n,
       out = np_mix arrays ∧ arrays ≠ [] ∧ (0 < n)%nat ∧
       Forall (λ pcm, length pcm = n) arrays) ∧
  ((∀ a chunk, (a, chunk) ∈ latest → a = target ∨ chunk = []) →
   _build_mix_for_target np_mix latest target = None).
Proof.
  split; [|split].
  - intros own. unfold _build_mix_for_target.
    by rewrite contributors_without_own.
  - intros out. unfold _build_mix_for_target.
    destruct (map snd (filter _ latest)) as [|c0 contributors]; [done|].
    destruct (decoded (c0 :: contributors)) as [|pcm0 arrays] eqn:Hdec;
      [done|].
    destruct (decide (min_length (pcm0 :: arrays) = O)) as [|Hpos]; [done|].
    intros [= <-].
    exists (map (take (min_length (pcm0 :: arrays))) (pcm0 :: arrays)),
           (min_length (pcm0 :: arrays)).
    split; [done|]. split; [done|]. split; [lia|].
    apply Forall_fmap, Forall_forall. intros pcm Hin. simpl.
    rewrite length_take. pose proof (min_length_le _ _ Hin). lia.
  - intros Hnone. unfold _build_mix_for_target.
    match goal with
    | |- context [@filter ?A ?B ?F ?P ?D latest] =>
        assert (Hf : @filter A B F P D latest = [])
    end.
    { induction latest as [|[a chunk] latest' IH]; [done|].
      rewrite filter_cons_False.
      - apply IH. intros a' chunk' Hin. apply (Hnone a' chunk'). by right.
      - simpl. intros [Ha Hc]. destruct (Hnone a chunk); [left|done..]. }
    by rewrite Hf.
Qed.

Lemma min_length_ge (arrays : list (list Z)) (n : nat) :
  arrays ≠ [] →
  (∀ pcm, pcm ∈ arrays → (n ≤ length pcm)%nat) →
  (n ≤ min_length arrays)%nat.
Proof.
  intros Hne Hall. unfold min_length.
  assert (Hinit : (n ≤ match arrays with
                       | [] => O
                       | pcm0 :: _ => length pcm0
                       end)%nat).
  { destruct arrays as [|pcm0 arrays]; [done|]. apply Hall. left. }
  revert Hinit. generalize (match arrays with
                            | [] => O
                            | pcm0 :: _ => length pcm0
                            end).
  clear Hne. intros init Hinit.
  induction arrays as [|x arrays IH]; [done|].
  cbn [foldr]. apply Nat.min_glb.
  - apply Hall. left.
  - apply IH. intros pcm Hin. apply Hall. by right.
Qed.

Lemma decoded_spec (contributors : list bytes) (pcm : list Z) :
  pcm ∈ decoded contributors
  ↔ ∃ chunk, chunk ∈ contributors ∧ (2 ≤ length chunk)%nat ∧
             frombuffer_int16 chunk = Some pcm.
Proof.
  unfold decoded. rewrite list_elem_of_omap. split.
  - intros (chunk & Hin & Hd). exists chunk.
    destruct (decide (length chunk < 2)%nat); [done|].
    split; [done|]. split; [lia | done].
  - intros (chunk & Hin & Hlen & Hd). exists chunk. split; [done|].
    rewrite decide_False by lia. done.
Qed.

(** X24.  The mixer has something to send to a listener exactly when some
    other address holds a latest chunk of whole 16-bit samples, that is, of
    an even length of at least two bytes: chunks of odd length are skipped,
    and the test [min_length == 0] never discards a mix. *)
Theorem audio_mix_exists_iff_whole_sample_contributor
    (latest : list (address * bytes)) (target : address) :
  is_Some (_build_mix_for_target np_mix latest target)
  ↔ ∃ a chunk, (a, chunk) ∈ latest ∧ a ≠ target ∧
               (2 ≤ length chunk)%nat ∧ Nat.even (length chunk) = true.
Proof.
  unfold _build_mix_for_target.
  match goal with
  | |- context [decoded ?cs] => set (contributors := cs)
  end.
  assert (Hcontrib : ∀ chunk, chunk ∈ contributors
            ↔ ∃ a, (a, chunk) ∈ latest ∧ a ≠ target ∧ chunk ≠ []).
  { intros chunk. subst contributors. rewrite list_elem_of_fmap. split.
    - intros [[a chunk'] [-> Hin]].
      apply list_elem_of_filter in Hin as [[Ha Hc] Hin]. by exists a.
    - intros (a & Hin & Ha & Hc). exists (a, chunk). split; [done|].
      by apply list_elem_of_filter. }
  clearbody contributors.
  assert (Hpos : ∀ pcm, pcm ∈ decoded contributors → (1 ≤ length pcm)%nat).
  { intros pcm (chunk & _ & Hlen & Hd)%decoded_spec.
    destruct (proj2 (frombuffer_int16_even chunk) pcm Hd) as [Hl _]. lia. }
  split.
  - intros Hsome.
    assert (∃ pcm, pcm ∈ decoded contributors) as [pcm Hpcm].
    { destruct contributors as [|c0 cs]; [by destruct Hsome|].
      destruct (decoded (c0 :: cs)) as [|pcm0 arrays];
        [by destruct Hsome|].
      exists pcm0. left. }
    apply decoded_spec in Hpcm as (chunk & Hin & Hlen & Hd).
    apply Hcontrib in Hin as (a & Hin & Ha & _).
    exists a, chunk. split; [done|]. split; [done|]. split; [done|].
    apply (proj1 (frombuffer_int16_even chunk)). by eexists.
  - intros (a & chunk & Hin & Ha & Hlen & Hev).
    assert (Hc : chunk ∈ contributors).
    { apply Hcontrib. exists a. split; [done|]. split; [done|].
      intros ->. simpl in Hlen. lia. }
    apply (proj1 (frombuffer_int16_even chunk)) in Hev as [pcm Hd].
    assert (Hpcm : pcm ∈ decoded contributors).
    { apply decoded_spec. by exists chunk. }
    destruct contributors as [|c0 cs]; [by apply elem_of_nil in Hc|].
    destruct (decoded (c0 :: cs)) as [|pcm0 arrays] eqn:Hdec;
      [by apply elem_of_nil in Hpcm|].
    assert (Hmin : (1 ≤ min_length (pcm0 :: arrays))%nat)
      by (by apply min_length_ge).
    rewrite decide_False by lia. by eexists.
Qed.

Lemma omap_cons_match {A B} (f : A → option B) (x : A) (l : list A) :
  omap f (x :: l)
  = match f x with Some y => y :: omap f l | None => omap f l end.
Proof. done. Qed.

Lemma audio_send_each_spec targets source latest tr :
  let r := send_each sendto_ok np_mix targets source latest tr in
  map fst r.2
  = map fst tr
    ++ omap (λ a, if decide (a = source) then None
                  else match _build_mix_for_target np_mix latest a with
                       | Some (b :: mix) => Some (a, b :: mix)
                       | _ => None
                       end) targets ∧
  ∀ a, a ∈ r.1 → a ≠ source ∧ ∃ n, sendto_ok n a = false.
Proof.
  cbv zeta. revert tr.
  induction targets as [|a rest IH]; intros tr; cbn [send_each].
  - split; [by rewrite app_nil_r | by intros a ?%elem_of_nil].
  - rewrite omap_cons_match.
    destruct (decide (a = source)) as [->|Hne]; [apply IH|].
    destruct (_build_mix_for_target np_mix latest a) as [[|b mix]|];
      [apply IH| |apply IH].
    unfold sendto. cbn [fst snd].
    destruct (IH (tr ++ [(a, b :: mix, sendto_ok (length tr) a)]))
      as [Hatt Hdis].
    destruct (send_each sendto_ok np_mix rest source latest _) as [dis tr2].
    cbn [fst snd] in *. split.
    { rewrite Hatt, map_app. simpl. by rewrite <- app_assoc. }
    intros a' Ha'.
    destruct (sendto_ok (length tr) a) eqn:Hok; [by apply Hdis|].
    apply elem_of_cons in Ha' as [->|Ha']; [|by apply Hdis].
    split; [done | by eexists].
Qed.

(** X26.  An audio chunk from a registered source replaces the source's
    latest chunk and refreshes its last-seen time; every other registered
    address for which a non-empty mix exists is sent that mix, built from
    the chunks as they now stand, once and in registry order, and nothing
    is sent to the source. *)
Theorem audio_chunk_is_mixed_for_others (data : bytes) (source : address)
    (now : Z) (s : state) (tr : list sendev) :
  data ≠ [] →
  startswith REGISTER_PREFIX data = false →
  dict_mem source (clients s) = true →
  let latest := dict_set source data (latest_chunks s) in
  let r := handle_datagram sendto_ok decode_ignore np_mix data source now
             s tr in
  map fst r.2
  = map fst tr
    ++ omap (λ a, if decide (a = source) then None
                  else match _build_mix_for_target np_mix latest a with
                       | Some (b :: mix) => Some (a, b :: mix)
                       | _ => None
                       end) (dict_keys (clients s)) ∧
  dict_get source (latest_chunks r.1) = Some data ∧
  dict_get source (last_seen r.1) = Some now ∧
  dict_get source (clients r.1) = dict_get source (clients s).
Proof.
  intros Hne Hreg Hmem. cbv zeta. unfold handle_datagram.
  rewrite decide_False by done. rewrite Hreg, Hmem.
  cbn [negb clients latest_chunks].
  destruct (audio_send_each_spec (dict_keys (clients s)) source
              (dict_set source data (latest_chunks s)) tr) as [Hatt Hdis].
  destruct (send_each sendto_ok np_mix (dict_keys (clients s)) source
              (dict_set source data (latest_chunks s)) tr) as [dis tr1].
  cbn [fst snd] in *.
  split; [done|].
  assert (Hsrc : source ∉ dis).
  { intros Hin. by destruct (Hdis source Hin). }
  match goal with
  | |- context [fold_left forget dis ?s0] =>
      destruct (audio_forget_all_other dis s0 source Hsrc) as (Hc & Hl & Hk)
  end.
  cbn [clients last_seen latest_chunks] in *.
  rewrite Hc, Hl, Hk. by rewrite !dict_get_set_eq.
Qed.
End AudioMixing.

Section AudioMixingExamples.
Import AudioServer.

Lemma audio_chunk_is_mixed_for_others_witness :
  let bob : address := ("10.0.0.2"%string, 4000) in
  let ann : address := ("10.0.0.3"%string, 4001) in
  let s := {| clients := [(bob, "bob"%string); (ann, "ann"%string)];
              last_seen := [(bob, 0); (ann, 0)];
              latest_chunks := [(bob, []); (ann, [])] |} in
  dict_get bob
    (latest_chunks (handle_datagram (λ _ _, true) (λ _, "bob"%string)
                      (λ _, [x00; x00]) [x01; x00] bob 5 s []).1)
  = Some [x01; x00].
Proof.
  intros bob ann s.
  refine (proj1 (proj2 (audio_chunk_is_mixed_for_others (λ _ _, true)
                          (λ _, "bob"%string) (λ _, [x00; x00]) [x01; x00]
                          bob 5 s [] _ _ _))).
  - discriminate.
  - reflexivity.
  - reflexivity.
Defined.
End AudioMixingExamples.

Section ChatRelay.
Import ChatServer.
Variable send_ok : nat → sock → bool.
Implicit Types (s : state) (tr : list sendev) (c : sock) (m : object).

Lemma chat_send_each_spec targets exclude m tr :
  let r := send_each send_ok targets exclude m tr in
  map fst r.2
  = map fst tr
    ++ map (λ c, (c, m)) (filter (λ c, Some c ≠ exclude) targets) ∧
  ∀ c, c ∈ r.1 → Some c ≠ exclude ∧ ∃ n, send_ok n c = false.
Proof.
  cbv zeta. revert tr.
  induction targets as [|c rest IH]; intros tr; cbn [send_each].
  - split; [by rewrite app_nil_r | by intros c ?%elem_of_nil].
  - destruct (decide (Some c = exclude)) as [Heq|Hne].
    + rewrite filter_cons_False by (by intros ?). apply IH.
    + rewrite filter_cons_True by done.
      destruct (IH (tr ++ [(c, m, send_ok (length tr) c)])) as [Hatt Hdis].
      destruct (send_each send_ok rest exclude m _) as [dis tr2].
      cbn [fst snd] in *. split.
      { rewrite Hatt, map_app. simpl. by rewrite <- app_assoc. }
      intros c' Hc'.
      destruct (send_ok (length tr) c) eqn:Hok; [by apply Hdis|].
      apply elem_of_cons in Hc' as [->|Hc']; [|by apply Hdis].
      split; [done | by eexists].
Qed.

Lemma drop_client_NoDup s dead :
  NoDup (dict_keys (clients s)) →
  NoDup (dict_keys (clients (drop_client s dead))).
Proof.
  intros Hnd. unfold drop_client. cbn [clients].
  destruct (dict_mem dead (clients s)); [by apply dict_del_NoDup | done].
Qed.

Lemma drop_client_absent s dead c :
  dict_get c (clients s) = None →
  dict_get c (clients (drop_client s dead)) = None.
Proof.
  intros Hg. unfold drop_client. cbn [clients].
  destruct (dict_mem dead (clients s)); [by apply dict_get_del_None | done].
Qed.

Lemma drop_client_other s dead c :
  c ≠ dead →
  dict_get c (clients (drop_client s dead)) = dict_get c (clients s).
Proof.
  intros Hne. unfold drop_client. cbn [clients].
  destruct (dict_mem dead (clients s)); [by apply dict_get_del_ne | done].
Qed.

Lemma chat_broadcast_NoDup m exclude s tr :
  NoDup (dict_keys (clients s)) →
  NoDup (dict_keys (clients (_broadcast send_ok m exclude s tr).1)).
Proof.
  intros Hnd. unfold _broadcast.
  destruct (send_each send_ok (dict_keys (clients s)) exclude m tr)
    as [dis tr1]. cbn [fst].
  revert s Hnd. induction dis as [|d dis IH]; intros s Hnd; [done|].
  cbn [fold_left]. apply IH. by apply drop_client_NoDup.
Qed.

Lemma chat_broadcast_absent m exclude s tr c :
  dict_get c (clients s) = None →
  dict_get c (clients (_broadcast send_ok m exclude s tr).1) = None.
Proof.
  intros Hg. unfold _broadcast.
  destruct (send_each send_ok (dict_keys (clients s)) exclude m tr)
    as [dis tr1]. cbn [fst].
  revert s Hg. induction dis as [|d dis IH]; intros s Hg; [done|].
  cbn [fold_left]. apply IH. by apply drop_client_absent.
Qed.

Lemma chat_broadcast_keeps_sender m c s tr :
  dict_get c (clients (_broadcast send_ok m (Some c) s tr).1)
  = dict_get c (clients s).
Proof.
  unfold _broadcast.
  destruct (chat_send_each_spec (dict_keys (clients s)) (Some c) m tr)
    as [_ Hdis].
  destruct (send_each send_ok (dict_keys (clients s)) (Some c) m tr)
    as [dis tr1]. cbn [fst snd] in *.
  assert (Hnin : c ∉ dis).
  { intros Hin. by destruct (Hdis c Hin). }
  clear Hdis. revert s. induction dis as [|d dis IH]; intros s; [done|].
  apply not_elem_of_cons in Hnin as [Hne Hnin].
  cbn [fold_left]. rewrite IH by done. by apply drop_client_other.
Qed.

Lemma chat_leave_unregisters c now s tr :
  NoDup (dict_keys (clients s)) →
  dict_get c (clients (leave send_ok c now s tr).1) = None.
Proof.
  intros Hnd. unfold leave.
  destruct (dict_get c (clients s)) as [username|] eqn:Hg; [|done].
  apply chat_broadcast_absent. cbn [clients]. by apply dict_get_del_eq.
Qed.

Lemma filter_not_excluded c (targets : list sock) :
  filter (λ c', Some c' ≠ Some c) targets = filter (λ c', c' ≠ c) targets.
Proof.
  apply list_filter_iff. intros c'. split; [congruence|].
  intros Hne [= ->]. done.
Qed.

Lemma filter_none_excluded (exclude : option sock) (targets : list sock) :
  exclude = None → filter (λ c', Some c' ≠ exclude) targets = targets.
Proof.
  intros Hex. induction targets as [|c' rest IH]; [done|].
  rewrite filter_cons_True by (by rewrite Hex). by rewrite IH.
Qed.

(** X27.  A chat message is relayed, once and in registry order, to every
    connected client except its sender, stamped with the server's time: the
    relayed object is the sender's with the key ['timestamp'] set to the
    clock reading of the turn and every other key unchanged.  The sender is
    not dropped by its own message, and the handler goes on with the next
    read. *)
Theorem chat_message_relayed_to_others (c : sock) (now : string)
    (message_data : object) (rest : list (string * inbound))
    (s : state) (tr : list sendev) :
  let stamped := dict_set "timestamp"%string now message_data in
  let r := _broadcast send_ok stamped (Some c) s tr in
  serve send_ok c ((now, Data (Some message_data)) :: rest) s tr
    = serve send_ok c rest r.1 r.2 ∧
  map fst r.2
  = map fst tr
    ++ map (λ c', (c', stamped))
         (filter (λ c', c' ≠ c) (dict_keys (clients s))) ∧
  dict_get "timestamp"%string stamped = Some now ∧
  (∀ k, k ≠ "timestamp"%string →
        dict_get k stamped = dict_get k message_data) ∧
  dict_get c (clients r.1) = dict_get c (clients s).
Proof.
  cbv zeta. split.
  { cbn [serve]. by destruct (_broadcast send_ok _ (Some c) s tr). }
  split.
  { unfold _broadcast.
    destruct (chat_send_each_spec (dict_keys (clients s)) (Some c)
                (dict_set "timestamp"%string now message_data) tr)
      as [Hatt _].
    destruct (send_each send_ok (dict_keys (clients s)) (Some c) _ tr)
      as [dis tr1]. cbn [fst snd] in *.
    by rewrite Hatt, filter_not_excluded. }
  split; [apply dict_get_set_eq|].
  split; [intros k Hk; by apply dict_get_set_ne|].
  apply chat_broadcast_keeps_sender.
Qed.

(** X28.  Whatever a chat connection carried, once its handler has finished
    the socket is not in the registry of the chat server. *)
Theorem chat_handler_finish_unregisters (c : sock)
    (first : string * option string) (input : list (string * inbound))
    (s s' : state) (tr tr' : list sendev) :
  NoDup (dict_keys (clients s)) →
  _handle_client send_ok c first input s tr = Finished s' tr' →
  dict_get c (clients s') = None.
Proof.
  intros Hnd.
  assert (Hend : ∀ now s0 tr0, NoDup (dict_keys (clients s0)) →
            (let '(s1, tr1) := leave send_ok c now s0 tr0 in Finished s1 tr1)
            = Finished s' tr' →
            dict_get c (clients s') = None).
  { intros now s0 tr0 Hnd0.
    pose proof (chat_leave_unregisters c now s0 tr0 Hnd0) as Hl.
    destruct (leave send_ok c now s0 tr0) as [s1 tr1].
    by intros [= <- <-]. }
  assert (Hserve : ∀ input s0 tr0, NoDup (dict_keys (clients s0)) →
            serve send_ok c input s0 tr0 = Finished s' tr' →
            dict_get c (clients s') = None).
  { clear input. intros input.
    induction input as [|[now i] input IH]; intros s0 tr0 Hnd0;
      cbn [serve]; [done|].
    destruct i as [[message_data|]| |]; [|by apply Hend..].
    pose proof (chat_broadcast_NoDup
                  (dict_set "timestamp"%string now message_data) (Some c)
                  s0 tr0 Hnd0) as Hb.
    destruct (_broadcast send_ok _ (Some c) s0 tr0) as [s1 tr1].
    by apply IH. }
  unfold _handle_client. destruct first as [now [username|]];
    [|by apply Hend].
  match goal with
  | |- context [_broadcast send_ok ?m None ?s0 tr] =>
      pose proof (chat_broadcast_NoDup m None s0 tr) as Hb;
      destruct (_broadcast send_ok m None s0 tr) as [s2 tr2]
  end.
  apply Hserve. apply Hb. cbn [clients]. by apply dict_set_NoDup.
Qed.

(** X29.  The join notice ['<name> joined the chat'] is offered to every
    registered client, the newcomer included; the leave notice carries the
    name the socket was registered under and is offered to every client
    that remains, never to the socket that left. *)
Theorem chat_join_and_leave_notices (c : sock) (username now : string)
    (input : list (string * inbound)) (s : state) (tr : list sendev) :
  (let s1 := {| clients := dict_set c username (clients s) |} in
   let joined := notice (username ++ " joined the chat") now in
   let r := _broadcast send_ok joined None s1 tr in
   _handle_client send_ok c (now, Some username) input s tr
     = serve send_ok c input r.1 r.2 ∧
   map fst r.2
   = map fst tr ++ map (λ c', (c', joined)) (dict_keys (clients s1)) ∧
   c ∈ dict_keys (clients s1)) ∧
  (NoDup (dict_keys (clients s)) →
   dict_get c (clients s) = Some username →
   let remaining := dict_keys (dict_del c (clients s)) in
   let left := notice (username ++ " left the chat") now in
   map fst (leave send_ok c now s tr).2
   = map fst tr ++ map (λ c', (c', left)) remaining ∧
   c ∉ remaining).
Proof.
  split.
  - cbv zeta. split.
    { unfold _handle_client. by destruct (_broadcast send_ok _ None _ tr). }
    split.
    { unfold _broadcast.
      match goal with
      | |- context [send_each send_ok ?l None ?m tr] =>
          destruct (chat_send_each_spec l None m tr) as [Hatt _];
          destruct (send_each send_ok l None m tr) as [dis tr1]
      end.
      cbn [fst snd] in *. by rewrite Hatt, (filter_none_excluded None). }
    cbn [clients]. apply dict_get_keys. rewrite dict_get_set_eq. by eexists.
  - intros Hnd Hg. cbv zeta. unfold leave. rewrite Hg. split.
    { unfold _broadcast. cbn [clients].
      match goal with
      | |- context [send_each send_ok ?l None ?m tr] =>
          destruct (chat_send_each_spec l None m tr) as [Hatt _];
          destruct (send_each send_ok l None m tr) as [dis tr1]
      end.
      cbn [fst snd] in *. by rewrite Hatt, (filter_none_excluded None). }
    intros Hin. apply dict_get_keys in Hin as [u Hu].
    by rewrite dict_get_del_eq in Hu.
Qed.
End ChatRelay.

Section ChatRelayExamples.
Import ChatServer.

Lemma chat_handler_finish_unregisters_witness :
  dict_get 4%nat (clients {| clients := [(3%nat, "ann"%string)] |}) = None.
Proof.
  refine (chat_handler_finish_unregisters (λ _ _, true) 4%nat
            ("10:15:00"%string, Some "dave"%string)
            [("10:15:02"%string, Data (Some [("message", "hi")]%string));
             ("10:15:09"%string, Closed)]
            {| clients := [(3%nat, "ann"%string)] |}
            {| clients := [(3%nat, "ann"%string)] |} []
            [(3%nat, notice "dave joined the chat" "10:15:00", true);
             (4%nat, notice "dave joined the chat" "10:15:00", true);
             (3%nat, [("message", "hi"); ("timestamp", "10:15:02")]%string,
              true);
             (3%nat, notice "dave left the chat" "10:15:09", true)] _ _).
  - apply (bool_decide_unpack _). vm_compute. exact I.
  - reflexivity.
Defined.
End ChatRelayExamples.

Section RosterFraming.
Import ParticipantClient.
Variable roster : Type.
Variable participant_list_of : bytes → option roster.

#[local] Abbreviation drain_all :=
  (λ buffer : bytes, drain roster participant_list_of (length buffer) buffer).

Lemma cut_shorter sep (l pre post : bytes) :
  VideoClient.cut sep l = Some (pre, post) → (length post < length l)%nat.
Proof.
  revert pre. induction l as [|b l IH]; intros pre; simpl; [done|].
  destruct (decide (b = sep)); [intros [= <- <-]; lia|].
  destruct (VideoClient.cut sep l) as [[pre' post']|]; [|done].
  intros [= <- <-]. specialize (IH pre' eq_refl). lia.
Qed.

Lemma cut_more sep (l pre post text : bytes) :
  VideoClient.cut sep l = Some (pre, post) →
  VideoClient.cut sep (l ++ text) = Some (pre, post ++ text).
Proof.
  revert pre. induction l as [|b l IH]; intros pre; simpl; [done|].
  destruct (decide (b = sep)); [by intros [= <- <-]|].
  destruct (VideoClient.cut sep l) as [[pre' post']|]; [|done].
  intros [= <- <-]. by rewrite (IH pre' eq_refl).
Qed.

Lemma drain_enough (fuel1 fuel2 : nat) (buffer : bytes) :
  (length buffer ≤ fuel1)%nat → (length buffer ≤ fuel2)%nat →
  drain roster participant_list_of fuel1 buffer
  = drain roster participant_list_of fuel2 buffer.
Proof.
  revert fuel2 buffer.
  induction fuel1 as [|fuel1 IH]; intros fuel2 buffer H1 H2.
  - destruct buffer; [|simpl in H1; lia]. by destruct fuel2.
  - destruct fuel2 as [|fuel2].
    { destruct buffer; [done | simpl in H2; lia]. }
    cbn [drain].
    destruct (VideoClient.cut NEWLINE buffer) as [[message_str buffer']|]
      eqn:Hcut; [|done].
    apply cut_shorter in Hcut.
    by rewrite (IH fuel2 buffer') by lia.
Qed.

Lemma drain_all_no_newline (buffer : bytes) :
  VideoClient.cut NEWLINE buffer = None → drain_all buffer = ([], buffer).
Proof.
  intros Hcut. destruct buffer as [|b buffer]; [done|].
  cbn [length drain]. by rewrite Hcut.
Qed.

Lemma drain_all_newline (buffer message_str buffer' : bytes) :
  VideoClient.cut NEWLINE buffer = Some (message_str, buffer') →
  drain_all buffer
  = ((match participant_list_of message_str with
      | Some participants => participants :: (drain_all buffer').1
      | None => (drain_all buffer').1
      end), (drain_all buffer').2).
Proof.
  intros Hcut. pose proof (cut_shorter _ _ _ _ Hcut) as Hlen.
  destruct buffer as [|b buffer]; [done|].
  cbn [length drain]. rewrite Hcut.
  rewrite (drain_enough (length buffer) (length buffer') buffer')
    by (simpl in Hlen; lia).
  by destruct (drain roster participant_list_of (length buffer') buffer').
Qed.

Lemma drain_all_app (n : nat) (buffer text : bytes) :
  (length buffer ≤ n)%nat →
  drain_all (buffer ++ text)
  = ((drain_all buffer).1 ++ (drain_all ((drain_all buffer).2 ++ text)).1,
     (drain_all ((drain_all buffer).2 ++ text)).2).
Proof.
  revert buffer. induction n as [|n IH]; intros buffer Hn.
  - destruct buffer; [|simpl in Hn; lia]. simpl.
    by destruct (drain roster participant_list_of (length text) text).
  - destruct (VideoClient.cut NEWLINE buffer) as [[message_str buffer']|]
      eqn:Hcut.
    + pose proof (cut_shorter _ _ _ _ Hcut) as Hlen.
      rewrite (drain_all_newline _ _ _ (cut_more _ _ _ _ text Hcut)).
      rewrite (drain_all_newline _ _ _ Hcut).
      rewrite (IH buffer') by lia. cbn [fst snd].
      by destruct (participant_list_of message_str).
    + rewrite (drain_all_no_newline _ Hcut). cbn [fst snd app].
      by destruct (drain roster participant_list_of _ (buffer ++ text)).
Qed.

Lemma drain_all_rest (n : nat) (buffer : bytes) :
  (length buffer ≤ n)%nat →
  VideoClient.cut NEWLINE (drain_all buffer).2 = None.
Proof.
  revert buffer. induction n as [|n IH]; intros buffer Hn.
  - destruct buffer; [done | simpl in Hn; lia].
  - destruct (VideoClient.cut NEWLINE buffer) as [[message_str buffer']|]
      eqn:Hcut.
    + pose proof (cut_shorter _ _ _ _ Hcut) as Hlen.
      rewrite (drain_all_newline _ _ _ Hcut). cbn [snd].
      apply IH. lia.
    + by rewrite (drain_all_no_newline _ Hcut).
Qed.

Lemma receive_updates_fragments (fragments : list bytes) (buffer : bytes) :
  Forall (λ text, text ≠ []) fragments →
  VideoClient.cut NEWLINE buffer = None →
  _receive_updates roster participant_list_of (map Data fragments) buffer
  = (drain_all (buffer ++ concat fragments), true).
Proof.
  intros Hne. revert buffer.
  induction Hne as [|text fragments Htext Hne IH]; intros buffer Hbuf.
  - simpl. rewrite app_nil_r. by rewrite (drain_all_no_newline _ Hbuf).
  - destruct text as [|b text]; [done|].
    cbn [map _receive_updates concat].
    rewrite (app_assoc buffer (b :: text) (concat fragments)).
    rewrite (drain_all_app (length (buffer ++ b :: text))
               (buffer ++ b :: text) (concat fragments)) by done.
    pose proof (drain_all_rest (length (buffer ++ b :: text))
                  (buffer ++ b :: text) (le_n _)) as Hrest.
    destruct (drain roster participant_list_of
                (length (buffer ++ b :: text)) (buffer ++ b :: text))
      as [calls buffer1].
    cbn [fst snd] in *. rewrite (IH buffer1 Hrest).
    by destruct (drain roster participant_list_of _
                   (buffer1 ++ concat fragments)).
Qed.

(** X30.  The roster updates a client acts on do not depend on how TCP
    fragments the server's stream: starting from a buffer that holds no
    complete line, over non-empty reads, the calls of the callback and the
    buffer left are those of the whole text received, cut at its newlines,
    so two fragmentations of the same text give the same calls and the same
    buffer. *)
Theorem roster_updates_independent_of_fragmentation
    (fragments fragments' : list bytes) (buffer : bytes) :
  VideoClient.cut NEWLINE buffer = None →
  Forall (λ text, text ≠ []) fragments →
  Forall (λ text, text ≠ []) fragments' →
  concat fragments = concat fragments' →
  let whole := buffer ++ concat fragments in
  _receive_updates roster participant_list_of (map Data fragments) buffer
    = (drain roster participant_list_of (length whole) whole, true) ∧
  _receive_updates roster participant_list_of (map Data fragments') buffer
    = _receive_updates roster participant_list_of (map Data fragments) buffer.
Proof.
  intros Hbuf Hne Hne' Heq. cbv zeta.
  rewrite !receive_updates_fragments by done. by rewrite Heq.
Qed.
End RosterFraming.

Section RosterFramingExamples.
Import ParticipantClient.

Lemma roster_updates_independent_of_fragmentation_witness :
  _receive_updates bytes Some
    (map Data [[x61]; [x62; x0a; x63]; [x0a; x64]]) []
  = _receive_updates bytes Some (map Data [[x61; x62; x0a]; [x63; x0a; x64]])
      [].
Proof.
  refine (proj2 (roster_updates_independent_of_fragmentation bytes Some
                   [[x61; x62; x0a]; [x63; x0a; x64]]
                   [[x61]; [x62; x0a; x63]; [x0a; x64]] [] _ _ _ _)).
  - reflexivity.
  - repeat constructor; discriminate.
  - repeat constructor; discriminate.
  - reflexivity.
Defined.
End RosterFramingExamples.
